(** * comanda: chunker, model registry and provider resolver

    A shallow embedding of three parts of the comanda workflow core,
    written after the Go sources:

    - [utils/models/registry.go]  the model registry ([Registry]),
    - [utils/models/provider.go]  the provider resolver ([Resolver]),
    - [utils/chunker/chunker.go]  the file chunker ([Chunker]).

    Go strings are byte strings and are embedded as [string]; the
    functions of Go's [strings] package that the sources call are
    embedded in [GoStrings] on the ASCII range, which is where every
    model name of the registry lives.  What is stated about the
    outcome of lowercasing and trimming a name is stated for names in
    that range ([is_ascii]). *)

From Stdlib Require Import ZArith Ascii.
From stdpp Require Import gmap strings list pretty.

Open Scope Z_scope.

(** ** The part of Go's [strings] package used by the sources *)
Module GoStrings.

(** [unicode.ToLower] on one ASCII byte: 'A'..'Z' move to 'a'..'z'. *)
Definition lower_ascii (c : ascii) : ascii :=
  let n := N_of_ascii c in
  if ((65 <=? n) && (n <=? 90))%N then ascii_of_N (n + 32) else c.

(** The bytes below [0x80]: the strings on which [strings.ToLower]
    and [strings.TrimSpace] work byte by byte, as they are embedded
    below.  On other strings Go decodes runes (it lowers [U+00C9] and
    trims [U+00A0]), which is not embedded. *)
Fixpoint is_ascii (s : string) : bool :=
  match s with
  | EmptyString => true
  | String c s' => (N_of_ascii c <? 128)%N && is_ascii s'
  end.

(** [strings.ToLower], on a string of ASCII bytes *)
Fixpoint ToLower (s : string) : string :=
  match s with
  | EmptyString => EmptyString
  | String c s' => String (lower_ascii c) (ToLower s')
  end.

(** The white space of [strings.TrimSpace] and [strings.Fields] in
    the ASCII range: tab, line feed, vertical tab, form feed,
    carriage return, space. *)
Definition isSpace (c : ascii) : bool := Ascii.is_space c.

Fixpoint all_space (s : string) : bool :=
  match s with
  | EmptyString => true
  | String c s' => isSpace c && all_space s'
  end.

(** [strings.TrimLeft s <white space>] *)
Fixpoint TrimLeft (s : string) : string :=
  match s with
  | EmptyString => EmptyString
  | String c s' => if isSpace c then TrimLeft s' else s
  end.

(** [strings.TrimRight s <white space>] *)
Fixpoint TrimRight (s : string) : string :=
  match s with
  | EmptyString => EmptyString
  | String c s' =>
      match TrimRight s' with
      | EmptyString => if isSpace c then EmptyString else String c EmptyString
      | t => String c t
      end
  end.

(** [strings.TrimSpace], on a string of ASCII bytes *)
Definition TrimSpace (s : string) : string := TrimRight (TrimLeft s).

(** [strings.HasPrefix s prefix] *)
Fixpoint HasPrefix (s prefix : string) {struct prefix} : bool :=
  match prefix with
  | EmptyString => true
  | String a p' =>
      match s with
      | EmptyString => false
      | String b s' => bool_decide (a = b) && HasPrefix s' p'
      end
  end.

(** [strings.Contains s ":"], specialised to a separator of one byte. *)
Fixpoint ContainsByte (s : string) (sep : ascii) : bool :=
  match s with
  | EmptyString => false
  | String c s' => bool_decide (c = sep) || ContainsByte s' sep
  end.

(** [strings.Split s sep] for a separator of one byte; the result is
    never empty. *)
Fixpoint SplitByte (s : string) (sep : ascii) : list string :=
  match s with
  | EmptyString => [EmptyString]
  | String c s' =>
      if bool_decide (c = sep) then EmptyString :: SplitByte s' sep
      else match SplitByte s' sep with
           | [] => [String c EmptyString]
           | w :: ws => String c w :: ws
           end
  end.

(** [s[n:]] for [0 <= n <= len(s)] *)
Fixpoint drop_bytes (n : nat) (s : string) : string :=
  match n, s with
  | O, _ => s
  | S n', String _ s' => drop_bytes n' s'
  | S _, EmptyString => EmptyString
  end.

(** [strings.Join elems sep] *)
Fixpoint Join (elems : list string) (sep : string) : string :=
  match elems with
  | [] => EmptyString
  | [x] => x
  | x :: rest => x +:+ sep +:+ Join rest sep
  end.

(** [strings.Fields]: the maximal runs of non-space bytes, in order. *)
Fixpoint fields_go (cur : option string) (s : string) : list string :=
  match s with
  | EmptyString => option_list (String.rev <$> cur)
  | String c s' =>
      if isSpace c
      then option_list (String.rev <$> cur) ++ fields_go None s'
      else fields_go (Some (String c (default EmptyString cur))) s'
  end.
Definition Fields (s : string) : list string := fields_go None s.

(** A name is in normal form when lowercasing and trimming leave it
    as it is. *)
Definition normalized (s : string) : Prop :=
  ToLower s = s ∧ TrimSpace s = s.

Global Instance normalized_dec s : Decision (normalized s).
Proof. unfold normalized. apply _. Defined.

End GoStrings.
Import GoStrings.

(** ** utils/models/registry.go *)
Module Registry.

(** [ModelRegistry]: provider name to registered model names, and
    provider name to registered family prefixes.  The lock field is
    not embedded: every operation below runs to completion while
    holding it. *)
Record ModelRegistry := {
  models : gmap string (list string);
  families : gmap string (list string);
}.

(** Indexing a Go map: a missing key yields the nil slice. *)
Definition index (m : gmap string (list string)) (k : string) : list string :=
  default [] (m !! k).

Definition RegisterModels (r : ModelRegistry) (provider : string)
    (ms : list string) : ModelRegistry :=
  {| models := <[provider := index (models r) provider ++ ms]> (models r);
     families := families r |}.

Definition RegisterFamilies (r : ModelRegistry) (provider : string)
    (fs : list string) : ModelRegistry :=
  {| models := models r;
     families := <[provider := index (families r) provider ++ fs]> (families r) |}.

Definition GetModels (r : ModelRegistry) (provider : string) : list string :=
  index (models r) provider.

Definition GetFamilies (r : ModelRegistry) (provider : string) : list string :=
  index (families r) provider.

Definition initializeDefaultModels (r : ModelRegistry) : ModelRegistry :=
  let r := RegisterModels r "anthropic"
    [ "claude-3-5-sonnet-20241022"; "claude-3-5-sonnet-latest";
      "claude-3-5-haiku-latest"; "claude-3-7-sonnet-20250219";
      "claude-3-7-sonnet-latest"; "claude-3-5-haiku-20241022";
      "claude-opus-4-20250514"; "claude-sonnet-4-20250514" ] in
  let r := RegisterFamilies r "anthropic"
    [ "claude-3-5-sonnet"; "claude-3-5-haiku"; "claude-3-7-sonnet";
      "claude-opus-4"; "claude-sonnet-4" ] in
  let r := RegisterModels r "openai"
    [ "gpt-4o"; "gpt-4o-audio-preview"; "o1"; "o3-mini"; "o1-pro";
      "o4-mini"; "gpt-4.1"; "o3-pro"; "o3"; "chatgpt-4o-latest" ] in
  let r := RegisterModels r "xai"
    [ "grok-beta"; "grok-vision-beta"; "grok-4"; "grok-4-heavy" ] in
  let r := RegisterModels r "deepseek"
    [ "deepseek-chat"; "deepseek-coder"; "deepseek-vision";
      "deepseek-reasoner" ] in
  let r := RegisterModels r "google"
    [ "gemini-2.5-pro"; "gemini-2.5-flash"; "gemini-2.5-flash-lite";
      "gemini-1.5-flash"; "gemini-1.5-pro"; "gemini-1.0-pro"; "aqa" ] in
  let r := RegisterFamilies r "google" [ "gemini-1.5"; "gemini-2.5" ] in
  let r := RegisterModels r "moonshot"
    [ "moonshot-v1-8k"; "moonshot-v1-32k"; "moonshot-v1-128k";
      "moonshot-v1-auto" ] in
  RegisterFamilies r "moonshot" [ "moonshot-" ].

Definition NewModelRegistry : ModelRegistry :=
  initializeDefaultModels {| models := ∅; families := ∅ |}.

(** [ValidateModel]: the query is lowercased and trimmed, then
    compared with the registered names as they are stored, then with
    the registered family prefixes. *)
Definition ValidateModel (r : ModelRegistry) (provider modelName : string) : bool :=
  let modelName := TrimSpace (ToLower modelName) in
  if existsb (λ valid, bool_decide (modelName = valid)) (index (models r) provider)
  then true
  else if existsb (λ family, HasPrefix modelName family) (index (families r) provider)
  then true
  else false.

(** [GetAllModels]: a copy of the map of names; in a value semantics
    the copy is the map. *)
Definition GetAllModels (r : ModelRegistry) : gmap string (list string) :=
  (λ ms, [] ++ ms) <$> models r.

(** [GetAllModelsList]: the names of all providers in one list.  Go
    leaves the order in which a map is ranged over open; the embedding
    ranges in the order of [map_to_list]. *)
Definition GetAllModelsList (r : ModelRegistry) : list string :=
  foldl (λ allModels kv, allModels ++ kv.2) [] (map_to_list (models r)).

End Registry.
Import Registry.

(** ** utils/models/provider.go *)
Module Resolver.

(** The [Provider] interface, cut down to the two methods the
    resolver calls. *)
Record Provider := {
  Name : string;
  SupportsModel : string → bool;
}.

(** The provider constructors live in files outside this
    development; the resolver is embedded over any implementation of
    them. *)
Record Backends := {
  NewOllamaProvider : Provider;
  NewGoogleProvider : Provider;
  NewAnthropicProvider : Provider;
  NewXAIProvider : Provider;
  NewDeepseekProvider : Provider;
  NewMoonshotProvider : Provider;
  NewOpenAIProvider : Provider;
}.

Record OllamaModelTag := { TagName : string }.
Record OllamaTagsResponse := { Models : list OllamaModelTag }.

(** What [client.Get] on the local tags endpoint and the read of the
    response body produced. *)
Inductive HttpResult :=
| TransportError
| Response (StatusCode : Z) (body : option string).
    (* [body = None]: [io.ReadAll] returned an error *)

Definition StatusOK : Z := 200.

(** One iteration of the loop over [tagsResponse.Models]: does this
    local model answer to the requested name? *)
Definition tag_matches (modelNameLower : string) (model : OllamaModelTag) : bool :=
  let modelFullName := ToLower (TagName model) in
  if bool_decide (modelFullName = modelNameLower) then true
  else if ContainsByte modelFullName ":"%char
          && bool_decide (default EmptyString (head (SplitByte modelFullName ":"%char))
                          = modelNameLower)
  then true
  else if HasPrefix modelFullName modelNameLower then
    let nextChar := drop_bytes (String.length modelNameLower) modelFullName in
    HasPrefix nextChar ":" || HasPrefix nextChar "."
  else false.

Section Probe.
(** [json.Unmarshal] into an [OllamaTagsResponse]; [None] is a
    decoding error. *)
Variable json_Unmarshal : string → option OllamaTagsResponse.

Definition isModelAvailableLocally (resp : HttpResult) (modelName : string) : bool :=
  match resp with
  | TransportError => false
  | Response status body =>
      if bool_decide (status ≠ StatusOK) then false
      else match body with
           | None => false
           | Some body =>
               match json_Unmarshal body with
               | None => false
               | Some tagsResponse =>
                   let modelNameLower := ToLower modelName in
                   existsb (tag_matches modelNameLower) (Models tagsResponse)
               end
           end
  end.

(** The hosted providers, in the order the resolver tries them. *)
Definition providers (B : Backends) : list Provider :=
  [ NewGoogleProvider B; NewAnthropicProvider B; NewXAIProvider B;
    NewDeepseekProvider B; NewMoonshotProvider B; NewOpenAIProvider B ].

(** The loop [for _, provider := range providers], which returns
    at the first provider that supports the name. *)
Fixpoint first_supporting (ps : list Provider) (modelName : string) : option Provider :=
  match ps with
  | [] => None
  | provider :: rest =>
      if SupportsModel provider modelName then Some provider
      else first_supporting rest modelName
  end.

Definition defaultDetectProvider (B : Backends) (resp : HttpResult)
    (modelName : string) : Provider :=
  let ollamaProvider := NewOllamaProvider B in
  if SupportsModel ollamaProvider modelName
     && isModelAvailableLocally resp modelName
  then ollamaProvider
  else match first_supporting (providers B) modelName with
       | Some provider => provider
       | None => ollamaProvider
       end.
End Probe.

End Resolver.
Import Resolver.

(** ** utils/chunker/chunker.go *)
Module Chunker.

(** *** Go's [int] and [int64]: 64-bit two's complement *)
Definition int_max : Z := 2 ^ 63 - 1.
Definition int_min : Z := - 2 ^ 63.
Definition in_int (z : Z) : Prop := int_min ≤ z ≤ int_max.

Definition wrap (z : Z) : Z := (z + 2 ^ 63) `mod` 2 ^ 64 - 2 ^ 63.
Definition add (a b : Z) : Z := wrap (a + b).
Definition sub (a b : Z) : Z := wrap (a - b).
(** [len] of a slice built by [append], and a counter incremented
    once per element *)
Definition len {A} (l : list A) : Z := wrap (Z.of_nat (length l)).

(** *** Outcomes *)
Inductive error :=
| ErrInvalidMethod (by_ : string)      (* invalid split method *)
| ErrChunkSize (size : Z)              (* chunk size must be greater than 0 *)
| ErrMkdirTemp                         (* failed to create temporary directory *)
| ErrUnsupported (by_ : string)        (* unsupported split method *)
| ErrOpen                              (* failed to open file *)
| ErrRead                              (* error reading file *)
| ErrStat                              (* failed to get file info *)
| ErrWriteEmpty                        (* failed to write empty chunk *)
| ErrLimit (totalChunks maxChunks : Z) (* file would generate .. chunks, exceeding .. *)
| ErrSeek (offset : Z)                 (* failed to seek to position *)
| ErrReadChunk (offset : Z)            (* failed to read chunk at position *)
| ErrWriteChunk (chunkIndex : Z)       (* failed to write chunk *)
| ErrOS.                               (* an error of the operating system, unwrapped *)

Inductive result (A : Type) :=
| Ok (a : A)
| Error (e : error)
| Panic          (* a run-time panic: slice bounds, division by zero, make *)
| OutOfFuel.     (* the embedding ran out of loop iterations *)
Global Arguments Ok {A} a.
Global Arguments Error {A} e.
Global Arguments Panic {A}.
Global Arguments OutOfFuel {A}.

(** *** The file system, as far as the chunker touches it *)

(** Which operations the environment lets fail. *)
Record Faults := {
  mkdir_fails : bool;
  open_fails : string → bool;
  scan_fails : string → bool;   (* I/O error, or a line beyond the scanner's buffer *)
  stat_fails : string → bool;
  read_fails : string → Z → bool;
  write_fails : string → bool;
  remove_fails : string → bool;
}.

(** The effects that went through, oldest first. *)
Inductive Event :=
| EvMkdir (dir : string)
| EvWrite (path content : string)
| EvRemoveAll (path : string).

Record World := {
  files : gmap string string;   (* regular files: path to content *)
  dirs : gset string;           (* directories *)
  temp_seq : nat;               (* names [os.MkdirTemp] has handed out *)
  faults : Faults;
  log : list Event;
}.

Definition M (A : Type) : Type := World → result A * World.

Definition ret {A} (a : A) : M A := λ w, (Ok a, w).
Definition fail {A} (e : error) : M A := λ w, (Error e, w).
Definition panic {A} : M A := λ w, (Panic, w).
Definition out_of_fuel {A} : M A := λ w, (OutOfFuel, w).

Definition bind {A B} (m : M A) (k : A → M B) : M B := λ w,
  match m w with
  | (Ok a, w') => k a w'
  | (Error e, w') => (Error e, w')
  | (Panic, w') => (Panic, w')
  | (OutOfFuel, w') => (OutOfFuel, w')
  end.

(** [if err != nil { return ..., fmt.Errorf(msg, err) }] *)
Definition or_fail {A} (m : M A) (e : error) : M A := λ w,
  match m w with
  | (Error _, w') => (Error e, w')
  | r => r
  end.

Declare Scope chunker_scope.
Delimit Scope chunker_scope with chunker.
Notation "'let*' x ':=' m 'in' k" := (bind m (λ x, k))
  (at level 10, x pattern, m at level 100, k at level 200) : chunker_scope.
Notation "m 'orelse' e" := (or_fail m e) (at level 60) : chunker_scope.
Local Open Scope chunker_scope.

Definition temp_name (n : nat) : string := "/tmp/comanda-chunks-" +:+ pretty n.

(** [filepath.Join dir name] for a clean [dir] and a plain [name] *)
Definition path_join (dir name : string) : string := dir +:+ "/" +:+ name.

(** Is [path] below the directory [dir]? *)
Definition under (dir path : string) : bool := HasPrefix path (dir +:+ "/").

Definition exists_path (w : World) (path : string) : bool :=
  bool_decide (path ∈ dirs w) || bool_decide (is_Some (files w !! path)).

(** [os.MkdirTemp "" "comanda-chunks-*"]: a directory that did not
    exist before. *)
Definition make_dir (dir : string) (w : World) : World :=
  {| files := files w; dirs := {[dir]} ∪ dirs w;
     temp_seq := S (temp_seq w); faults := faults w;
     log := log w ++ [EvMkdir dir] |}.

Definition MkdirTemp : M string := λ w,
  let dir := temp_name (temp_seq w) in
  if mkdir_fails (faults w) || exists_path w dir then (Error ErrOS, w)
  else (Ok dir, make_dir dir w).

(** [os.WriteFile path content 0644] *)
Definition put_file (path content : string) (w : World) : World :=
  {| files := <[path := content]> (files w); dirs := dirs w;
     temp_seq := temp_seq w; faults := faults w;
     log := log w ++ [EvWrite path content] |}.

Definition WriteFile (path content : string) : M unit := λ w,
  if write_fails (faults w) path then (Error ErrOS, w)
  else (Ok (), put_file path content w).

(** [os.RemoveAll path]: removes [path] and everything below it; a
    path that does not exist is not an error. *)
Definition remove_tree (path : string) (w : World) : World :=
  {| files := filter (λ kv, kv.1 ≠ path ∧ under path kv.1 = false) (files w);
     dirs := dirs w ∖ {[path]};
     temp_seq := temp_seq w; faults := faults w;
     log := log w ++ [EvRemoveAll path] |}.

Definition RemoveAll (path : string) : M unit := λ w,
  if negb (exists_path w path) then (Ok (), w)
  else if remove_fails (faults w) path then (Error ErrOS, w)
  else (Ok (), remove_tree path w).

(** [os.Open path], giving the bytes a reader will see, for a path
    that names a regular file or nothing at all.  The directories of
    a [World] are scratch directories; a directory in the place of
    the input is not embedded. *)
Definition Open (path : string) : M string := λ w,
  match files w !! path with
  | Some data => if open_fails (faults w) path then (Error ErrOS, w) else (Ok data, w)
  | None => (Error ErrOS, w)
  end.

(** [bufio.ScanLines]: the pieces between line feeds, each without
    one trailing carriage return; an empty last piece is no line. *)
Definition dropCR (s : string) : string :=
  match String.rev s with
  | String c r => if bool_decide (c = "013"%char) then String.rev r else s
  | EmptyString => s
  end.

Fixpoint drop_last_empty (l : list string) : list string :=
  match l with
  | [] => []
  | [x] => if bool_decide (x = EmptyString) then [] else [x]
  | x :: rest => x :: drop_last_empty rest
  end.

Definition ScanLines (data : string) : list string :=
  dropCR <$> drop_last_empty (SplitByte data "010"%char).

(** The loop [for scanner.Scan() { ... scanner.Text() ... }] followed
    by the check of [scanner.Err()] *)
Definition scan (path data : string) : M (list string) := λ w,
  if scan_fails (faults w) path then (Error ErrOS, w) else (Ok (ScanLines data), w).

(** [file.Stat()] and [fileInfo.Size()] *)
Definition Stat (path data : string) : M Z := λ w,
  if stat_fails (faults w) path then (Error ErrOS, w)
  else (Ok (wrap (Z.of_nat (String.length data))), w).

(** [file.Seek offset io.SeekStart] *)
Definition Seek (offset : Z) : M unit := λ w,
  if offset <? 0 then (Error ErrOS, w) else (Ok (), w).

(** [io.ReadFull file buffer] into a zeroed buffer of [n] bytes, at
    [offset]; running into the end of the file is not an error. *)
Definition ReadFull (path data : string) (offset n : Z) : M string := λ w,
  if read_fails (faults w) path offset then (Error ErrOS, w)
  else
    let got := String.substring (Z.to_nat offset) (Z.to_nat n) data in
    (Ok (got +:+ String.string_of_list_ascii
                  (replicate (Z.to_nat n - String.length got)%nat "000"%char)), w).

(** [l[lo:hi]], which panics out of bounds *)
Definition slice {A} (l : list A) (lo hi : Z) : M (list A) :=
  if (0 <=? lo) && (lo <=? hi) && (hi <=? Z.of_nat (length l))
  then ret (take (Z.to_nat (hi - lo)) (drop (Z.to_nat lo) l))
  else panic.

(** [a / b] on [int]: truncated, panics on a zero divisor *)
Definition quo (a b : Z) : M Z :=
  if b =? 0 then panic else ret (wrap (a ÷ b)).

(** *** The chunker *)
Record ChunkConfig := {
  By : string;
  Size : Z;
  Overlap : Z;
  MaxChunks : Z;
}.

Record ChunkResult := {
  ChunkPaths : list string;
  TempDir : string;
  TotalChunks : Z;
}.

Definition validMethods : gmap string bool :=
  <["lines" := true]> (<["bytes" := true]> (<["tokens" := true]> ∅)).

(** [validateConfig] works on the caller's copy through a pointer;
    here it returns the updated copy. *)
Definition validateConfig (config : ChunkConfig) : result ChunkConfig :=
  if negb (default false (validMethods !! ToLower (By config)))
  then Error (ErrInvalidMethod (By config))
  else if Size config <=? 0 then Error (ErrChunkSize (Size config))
  else
    let config :=
      if Overlap config <? 0
      then {| By := By config; Size := Size config; Overlap := 0;
              MaxChunks := MaxChunks config |}
      else config in
    let config :=
      if MaxChunks config <=? 0
      then {| By := By config; Size := Size config; Overlap := Overlap config;
              MaxChunks := 100 |}
      else config in
    Ok config.

(** [fmt.Sprintf "chunk_%d.txt" chunkIndex] *)
Definition chunk_name (chunkIndex : Z) : string :=
  "chunk_" +:+ pretty chunkIndex +:+ ".txt".

(** The branch for an input of no units: one empty chunk. *)
Definition empty_chunk (tempDir : string) : M (list string * Z) :=
  let chunkPath := path_join tempDir "chunk_0.txt" in
  let* _ := WriteFile chunkPath "" orelse ErrWriteEmpty in
  ret ([chunkPath], 1).

(** The check of the chunk count against [MaxChunks]. *)
Definition check_limit (total : Z) (config : ChunkConfig) : M unit :=
  let* totalChunks := quo (sub (add total (Size config)) 1) (Size config) in
  if totalChunks >? MaxChunks config
  then fail (ErrLimit totalChunks (MaxChunks config))
  else ret ().

(** The three emission loops are one loop, up to how the content of
    the chunk [[start, end)] is produced ([content]):

    [for start := 0; start < total; start += Size - Overlap {
       if chunkIndex >= MaxChunks { break }
       end := min(start + Size, total)
       ... write chunk_<chunkIndex>.txt ...
       chunkPaths = append(chunkPaths, chunkPath); chunkIndex++
       if end >= total { break } }] *)
Fixpoint emit_loop (fuel : nat) (content : Z → Z → M string)
    (total : Z) (tempDir : string) (config : ChunkConfig)
    (start chunkIndex : Z) (chunkPaths : list string) : M (list string * Z) :=
  match fuel with
  | O => out_of_fuel
  | S fuel =>
      if negb (start <? total) then ret (chunkPaths, chunkIndex)
      else if chunkIndex >=? MaxChunks config then ret (chunkPaths, chunkIndex)
      else
        let end_ := add start (Size config) in
        let end_ := if end_ >? total then total else end_ in
        let chunkPath := path_join tempDir (chunk_name chunkIndex) in
        let* chunkContent := content start end_ in
        let* _ := WriteFile chunkPath chunkContent orelse ErrWriteChunk chunkIndex in
        let chunkPaths := chunkPaths ++ [chunkPath] in
        let chunkIndex := add chunkIndex 1 in
        if end_ >=? total then ret (chunkPaths, chunkIndex)
        else emit_loop fuel content total tempDir config
               (add start (sub (Size config) (Overlap config))) chunkIndex chunkPaths
  end.

Definition lines_content (lineBuffer : list string) (start end_ : Z) : M string :=
  let* piece := slice lineBuffer start end_ in
  ret (Join piece (String "010" EmptyString)).

Definition splitByLines (fuel : nat) (filePath tempDir : string)
    (config : ChunkConfig) : M (list string * Z) :=
  let* file := Open filePath orelse ErrOpen in
  let* lineBuffer := scan filePath file orelse ErrRead in
  let lineCount := len lineBuffer in
  if lineCount =? 0 then empty_chunk tempDir
  else
    let* _ := check_limit lineCount config in
    emit_loop fuel (lines_content lineBuffer) lineCount tempDir config 0 0 [].

Definition bytes_content (filePath file : string) (offset end_ : Z) : M string :=
  let chunkSize := sub end_ offset in
  if chunkSize <? 0 then panic
  else
    let* _ := Seek offset orelse ErrSeek offset in
    ReadFull filePath file offset chunkSize orelse ErrReadChunk offset.

Definition splitByBytes (fuel : nat) (filePath tempDir : string)
    (config : ChunkConfig) : M (list string * Z) :=
  let* file := Open filePath orelse ErrOpen in
  let* fileSize := Stat filePath file orelse ErrStat in
  if fileSize =? 0 then empty_chunk tempDir
  else
    let* _ := check_limit fileSize config in
    emit_loop fuel (bytes_content filePath file) fileSize tempDir config 0 0 [].

Definition tokens_content (tokens : list string) (start end_ : Z) : M string :=
  let* piece := slice tokens start end_ in
  ret (Join piece " ").

Definition splitByTokens (fuel : nat) (filePath tempDir : string)
    (config : ChunkConfig) : M (list string * Z) :=
  let* file := Open filePath orelse ErrOpen in
  let* lines := scan filePath file orelse ErrRead in
  let tokens := concat (Fields <$> lines) in
  let tokenCount := len tokens in
  if tokenCount =? 0 then empty_chunk tempDir
  else
    let* _ := check_limit tokenCount config in
    emit_loop fuel (tokens_content tokens) tokenCount tempDir config 0 0 [].

(** [SplitFile]; the nil result of the Go function is the absence of
    an [Ok]. *)
Definition SplitFile (fuel : nat) (filePath : string) (config : ChunkConfig)
    : M ChunkResult := λ w,
  match validateConfig config with
  | Ok config =>
      match (MkdirTemp orelse ErrMkdirTemp) w with
      | (Ok tempDir, w) =>
          let by_ := ToLower (By config) in
          let split :=
            if bool_decide (by_ = "lines") then Some (splitByLines fuel filePath tempDir config)
            else if bool_decide (by_ = "bytes") then Some (splitByBytes fuel filePath tempDir config)
            else if bool_decide (by_ = "tokens") then Some (splitByTokens fuel filePath tempDir config)
            else None in
          match split with
          | None => (Error (ErrUnsupported (By config)), w)
          | Some split =>
              match split w with
              | (Ok (chunkPaths, totalChunks), w) =>
                  (Ok {| ChunkPaths := chunkPaths; TempDir := tempDir;
                         TotalChunks := totalChunks |}, w)
              | (Error err, w) =>
                  let '(_, w) := RemoveAll tempDir w in (Error err, w)
              | (Panic, w) => (Panic, w)
              | (OutOfFuel, w) => (OutOfFuel, w)
              end
          end
      | (Error e, w) => (Error e, w)
      | (Panic, w) => (Panic, w)
      | (OutOfFuel, w) => (OutOfFuel, w)
      end
  | Error e => (Error e, w)
  | Panic => (Panic, w)
  | OutOfFuel => (OutOfFuel, w)
  end.

(** [CleanupChunks]; [None] is the nil pointer. *)
Definition CleanupChunks (result : option ChunkResult) : M unit :=
  match result with
  | None => ret ()
  | Some result =>
      if bool_decide (TempDir result = EmptyString) then ret ()
      else RemoveAll (TempDir result)
  end.

(** *** Notions for stating properties *)

(** The ceiling of [a / b], for [b > 0]. *)
Definition ceil_div (a b : Z) : Z := - ((- a) `div` b).

(** The units of an input in a split mode: lines, bytes, or
    white-space separated tokens. *)
Definition unit_count (by_ data : string) : nat :=
  if bool_decide (by_ = "lines") then length (ScanLines data)
  else if bool_decide (by_ = "bytes") then String.length data
  else length (concat (Fields <$> ScanLines data)).

Definition valid_method (by_ : string) : Prop :=
  by_ = "lines" ∨ by_ = "bytes" ∨ by_ = "tokens".

(** The fields of a configuration are Go [int]s. *)
Definition int_config (config : ChunkConfig) : Prop :=
  in_int (Size config) ∧ in_int (Overlap config) ∧ in_int (MaxChunks config).

(** Below this many units the arithmetic of the chunker is exact. *)
Definition unit_bound : Z := 2 ^ 62.

(** The file at [path] holds [data] and can be opened, scanned and
    sized. *)
Definition readable (w : World) (path data : string) : Prop :=
  files w !! path = Some data
  ∧ open_fails (faults w) path = false
  ∧ scan_fails (faults w) path = false
  ∧ stat_fails (faults w) path = false.

(** [os.MkdirTemp] will succeed. *)
Definition can_mkdir (w : World) : Prop :=
  mkdir_fails (faults w) = false ∧ exists_path w (temp_name (temp_seq w)) = false.

(** What [validateConfig] makes of a configuration it accepts. *)
Definition validated (config : ChunkConfig) : ChunkConfig :=
  {| By := By config; Size := Size config;
     Overlap := Z.max 0 (Overlap config);
     MaxChunks := if MaxChunks config <=? 0 then 100 else MaxChunks config |}.

(** [w'] is [w] after writing the files [ws], in order, and nothing
    else. *)
Definition wrote (w w' : World) (ws : list (string * string)) : Prop :=
  dirs w' = dirs w ∧ temp_seq w' = temp_seq w ∧ faults w' = faults w
  ∧ log w' = log w ++ ((λ pc, EvWrite pc.1 pc.2) <$> ws)
  ∧ files w' = foldl (λ m pc, <[pc.1 := pc.2]> m) (files w) ws.

(** Producing the content of a chunk leaves the world alone and
    needs no fuel. *)
Definition pure_content (content : Z → Z → M string) : Prop :=
  ∀ a b w, ∃ r, content a b w = (r, w) ∧ r ≠ OutOfFuel.

(** Producing the content of a chunk within [[0, total]] does not
    panic. *)
Definition safe_content (content : Z → Z → M string) (total : Z) : Prop :=
  ∀ a b w, 0 ≤ a ≤ b → b ≤ total → ∃ r, content a b w = (r, w) ∧ r ≠ Panic.

(** An outcome that is a value or an error. *)
Definition returns {A} (r : result A) : Prop :=
  match r with Ok _ | Error _ => True | Panic | OutOfFuel => False end.

(** A split function went from [w] to [w'] with outcome [r]: it
    wrote at most [maxChunks] files and nothing else, and a value it
    returns lists exactly the files it wrote and their number. *)
Definition emitted (maxChunks : Z) (w : World) (r : result (list string * Z))
    (w' : World) : Prop :=
  ∃ ws, wrote w w' ws
        ∧ Z.of_nat (length ws) ≤ maxChunks
        ∧ ∀ paths n, r = Ok (paths, n) → n = Z.of_nat (length ws) ∧ paths = ws.*1.

(** No input at [path] is too large for exact arithmetic, in any
    split mode. *)
Definition bounded_input (w : World) (path : string) : Prop :=
  ∀ data by_, files w !! path = Some data →
              Z.of_nat (unit_count by_ data) < unit_bound.

(** The contract of a split function, for a configuration that
    passed validation: it only writes chunk files, at most
    [MaxChunks] of them; fuel beyond [MaxChunks] is never used up and
    makes no difference; and for [0 <= Overlap <= Size] on an input
    of bounded size it does not panic. *)
Definition split_contract
    (split : nat → string → string → ChunkConfig → M (list string * Z)) : Prop :=
  ∀ fuel filePath tempDir config w r w',
    int_config config → 0 < Size config → 0 < MaxChunks config →
    split fuel filePath tempDir config w = (r, w') →
    emitted (MaxChunks config) w r w'
    ∧ (MaxChunks config < Z.of_nat fuel → r ≠ OutOfFuel)
    ∧ (0 ≤ Overlap config ≤ Size config → bounded_input w filePath → r ≠ Panic)
    ∧ (∀ fuel', (fuel ≤ fuel')%nat → r ≠ OutOfFuel →
         split fuel' filePath tempDir config w = (r, w')).

(** The split function that [SplitFile] calls for a valid method,
    and the content function of its emission loop on an input that
    holds [data]. *)
Definition split_for (by_ : string)
    : nat → string → string → ChunkConfig → M (list string * Z) :=
  if bool_decide (by_ = "lines") then splitByLines
  else if bool_decide (by_ = "bytes") then splitByBytes
  else splitByTokens.

Definition content_for (by_ filePath data : string) : Z → Z → M string :=
  if bool_decide (by_ = "lines") then lines_content (ScanLines data)
  else if bool_decide (by_ = "bytes") then bytes_content filePath data
  else tokens_content (concat (Fields <$> ScanLines data)).

(** The files written, in order. *)
Definition writes (evs : list Event) : list (string * string) :=
  omap (λ ev, match ev with EvWrite p c => Some (p, c) | _ => None end) evs.

(** The lines [[lo, hi)] of a list, by position. *)
Definition range {A} (l : list A) (lo hi : nat) : list A :=
  take (hi - lo) (drop lo l).

(** *** The chunks as the design describes them *)

(** The ranges of the chunks: starts advance by [size - overlap], a
    chunk is [[start, min (start + size) total)], and the sequence
    ends with the chunk that reaches [total], or after [maxChunks]
    chunks. *)
Fixpoint plan (fuel : nat) (total size overlap maxChunks start idx : Z)
    : list (Z * Z) :=
  match fuel with
  | O => []
  | S fuel =>
      if (start <? total) && (idx <? maxChunks) then
        let end_ := Z.min (start + size) total in
        (start, end_)
        :: (if end_ <? total
            then plan fuel total size overlap maxChunks (start + size - overlap) (idx + 1)
            else [])
      else []
  end.

(** The chunk files of a sequence of ranges: numbered from [idx] on,
    each holding the text of its range. *)
Fixpoint chunk_files (tempDir : string) (text : Z → Z → string) (idx : Z)
    (pl : list (Z * Z)) : list (string * string) :=
  match pl with
  | [] => []
  | (a, b) :: pl =>
      (path_join tempDir (chunk_name idx), text a b)
      :: chunk_files tempDir text (idx + 1) pl
  end.

(** The units of an input that is split by lines or by tokens, and
    what joins them in a chunk. *)
Definition units (by_ data : string) : list string :=
  if bool_decide (by_ = "lines") then ScanLines data
  else concat (Fields <$> ScanLines data).

Definition separator (by_ : string) : string :=
  if bool_decide (by_ = "lines") then String "010" EmptyString else " ".

(** The text of the units [[a, b)] of an input. *)
Definition chunk_text (by_ data : string) (a b : Z) : string :=
  if bool_decide (by_ = "bytes")
  then String.substring (Z.to_nat a) (Z.to_nat (b - a)) data
  else Join (range (units by_ data) (Z.to_nat a) (Z.to_nat b)) (separator by_).

(** Writes below [dir] go through, and so do reads of [path]. *)
Definition writable_below (w : World) (dir : string) : Prop :=
  ∀ p, under dir p = true → write_fails (faults w) p = false.

Definition reads_ok (w : World) (path : string) : Prop :=
  ∀ offset, read_fails (faults w) path offset = false.

(** [strings.Join] without a separator *)
Definition concat_strings (l : list string) : string :=
  foldr String.append EmptyString l.

End Chunker.
Import Chunker.

(** ** Concrete instances, for running the definitions *)
Module Samples.

(** Modelled from the spec: the provider implementations are not
    among the sources; section 4.3 gives a capability's support
    predicate as registry validation against the provider's name and
    family list. *)
Definition registry_provider (r : ModelRegistry) (name : string) : Provider :=
  {| Name := name; SupportsModel := ValidateModel r name |}.

Definition registry_backends (r : ModelRegistry) : Backends :=
  {| NewOllamaProvider := registry_provider r "ollama";
     NewGoogleProvider := registry_provider r "google";
     NewAnthropicProvider := registry_provider r "anthropic";
     NewXAIProvider := registry_provider r "xai";
     NewDeepseekProvider := registry_provider r "deepseek";
     NewMoonshotProvider := registry_provider r "moonshot";
     NewOpenAIProvider := registry_provider r "openai" |}.

(** A registry in which the open-weights family [gpt-oss] is served
    locally and by two hosted backends. *)
Definition oss_registry : ModelRegistry :=
  RegisterFamilies
    (RegisterFamilies
       (RegisterFamilies NewModelRegistry "ollama" ["gpt-oss"])
       "deepseek" ["gpt-oss"])
    "openai" ["gpt-"].

(** The payload of a tags response that lists [gpt-oss:latest]. *)
Definition quote : string := String "034" EmptyString.
Definition tags_body : string :=
  "{" +:+ quote +:+ "models" +:+ quote +:+ ":[{" +:+ quote +:+ "name" +:+ quote
  +:+ ":" +:+ quote +:+ "gpt-oss:latest" +:+ quote +:+ "}]}".

(** A decoder that knows this one payload. *)
Definition sample_Unmarshal (body : string) : option OllamaTagsResponse :=
  if bool_decide (body = tags_body)
  then Some {| Models := [ {| TagName := "gpt-oss:latest" |} ] |}
  else None.

Definition no_faults : Faults :=
  {| mkdir_fails := false; open_fails := λ _, false; scan_fails := λ _, false;
     stat_fails := λ _, false; read_fails := λ _ _, false;
     write_fails := λ _, false; remove_fails := λ _, false |}.

Definition newline : string := String "010" EmptyString.

(** A file of [n] lines [L0], [L1], ... *)
Definition numbered_lines (n : nat) : string :=
  Join ((λ i : nat, "L" +:+ pretty i) <$> seq 0 n) newline.

(** A world that holds one such file and nothing else. *)
Definition sample_world (n : nat) : World :=
  {| files := {[ "in.txt" := numbered_lines n ]}; dirs := ∅; temp_seq := 0;
     faults := no_faults; log := [] |}.

End Samples.
Import Samples.

(** * Properties *)

(** ** Strings *)
Section GoStringsFacts.

Lemma string_app_cons a s t : String a s +:+ t = String a (s +:+ t).
Proof. reflexivity. Qed.

Lemma string_app_nil_l t : EmptyString +:+ t = t.
Proof. reflexivity. Qed.

Lemma string_app_nil_inv s t : s +:+ t = EmptyString → s = EmptyString ∧ t = EmptyString.
Proof. destruct s; [done | discriminate]. Qed.

Lemma ToLower_app a b : ToLower (a +:+ b) = ToLower a +:+ ToLower b.
Proof.
  induction a as [|c a IH]; [done|].
  rewrite ?string_app_cons. simpl. by rewrite IH.
Qed.

Lemma lower_ascii_space c : isSpace c = true → lower_ascii c = c.
Proof. destruct c as [[] [] [] [] [] [] [] []]; (discriminate || reflexivity). Qed.

Lemma ToLower_all_space l : all_space l = true → ToLower l = l.
Proof.
  induction l as [|c l IH]; [done|]. simpl.
  intros [Hc Hl]%andb_true_iff. by rewrite lower_ascii_space, IH.
Qed.

Lemma is_ascii_app a b : is_ascii (a +:+ b) = is_ascii a && is_ascii b.
Proof.
  induction a as [|c a IH]; [done|].
  rewrite string_app_cons. simpl. by rewrite IH, andb_assoc.
Qed.

Lemma is_ascii_ToLower s : is_ascii (ToLower s) = is_ascii s.
Proof.
  induction s as [|c s IH]; [done|].
  simpl. rewrite IH. f_equal.
  by destruct c as [[] [] [] [] [] [] [] []].
Qed.

Lemma is_ascii_all_space l : all_space l = true → is_ascii l = true.
Proof.
  induction l as [|c l IH]; [done|]. simpl.
  intros [Hc Hl]%andb_true_iff. rewrite IH by done.
  rewrite andb_true_r. by destruct c as [[] [] [] [] [] [] [] []].
Qed.

Lemma TrimLeft_all_space l y : all_space l = true → TrimLeft (l +:+ y) = TrimLeft y.
Proof.
  induction l as [|c l IH]; [done|]. simpl.
  intros [Hc Hl]%andb_true_iff. rewrite ?string_app_cons. simpl.
  rewrite Hc. auto.
Qed.

Lemma TrimRight_all_space t : all_space t = true → TrimRight t = EmptyString.
Proof.
  induction t as [|c t IH]; [done|]. simpl.
  intros [Hc Ht]%andb_true_iff. by rewrite IH, Hc.
Qed.

Lemma TrimLeft_only_space t : all_space t = true → TrimLeft t = EmptyString.
Proof.
  induction t as [|c t IH]; [done|]. simpl.
  intros [Hc Ht]%andb_true_iff. rewrite Hc. auto.
Qed.

Lemma TrimRight_app_space y t :
  all_space t = true → TrimRight (y +:+ t) = TrimRight y.
Proof.
  intros Ht. induction y as [|c y IH].
  - by rewrite string_app_nil_l, TrimRight_all_space.
  - rewrite ?string_app_cons. simpl. by rewrite IH.
Qed.

Lemma TrimSpace_app_space x t :
  all_space t = true → TrimSpace (x +:+ t) = TrimSpace x.
Proof.
  intros Ht. unfold TrimSpace. induction x as [|c x IH].
  - by rewrite string_app_nil_l, TrimLeft_only_space.
  - rewrite ?string_app_cons. simpl. destruct (isSpace c); [done|].
    by rewrite <- ?string_app_cons, TrimRight_app_space.
Qed.

(** Padding with white space on both sides is trimmed away. *)
Lemma TrimSpace_pad l x t :
  all_space l = true → all_space t = true →
  TrimSpace (l +:+ x +:+ t) = TrimSpace x.
Proof.
  intros Hl Ht. unfold TrimSpace at 1. rewrite TrimLeft_all_space by done.
  by apply TrimSpace_app_space.
Qed.

Lemma HasPrefix_app p r : HasPrefix (p +:+ r) p = true.
Proof.
  induction p as [|c p IH]; [done|].
  rewrite ?string_app_cons. simpl. by rewrite bool_decide_eq_true_2.
Qed.

Lemma HasPrefix_spec s p : HasPrefix s p = true ↔ ∃ r, s = p +:+ r.
Proof.
  split.
  - revert s. induction p as [|c p IH]; intros s.
    + intros _. by exists s.
    + destruct s as [|b s]; [done|]. simpl.
      intros [Hb Hp]%andb_true_iff. apply bool_decide_eq_true_1 in Hb as ->.
      destruct (IH _ Hp) as [r ->]. by exists r.
  - intros [r ->]. apply HasPrefix_app.
Qed.

Lemma TrimLeft_length s : (String.length (TrimLeft s) ≤ String.length s)%nat.
Proof. induction s as [|c s IH]; simpl; [lia|]. destruct (isSpace c); simpl; lia. Qed.

Lemma TrimRight_length s : (String.length (TrimRight s) ≤ String.length s)%nat.
Proof.
  induction s as [|c s IH]; simpl; [lia|].
  destruct (TrimRight s); [destruct (isSpace c)|]; simpl in *; lia.
Qed.

(** A string that trimming fixes does not start with white space. *)
Lemma TrimSpace_fixed_first c f :
  TrimSpace (String c f) = String c f → isSpace c = false.
Proof.
  unfold TrimSpace. simpl. destruct (isSpace c); [|done].
  intros H. apply (f_equal String.length) in H. simpl in H.
  pose proof (TrimRight_length (TrimLeft f)). pose proof (TrimLeft_length f). lia.
Qed.

Lemma TrimRight_fixed_prefix f r :
  TrimRight f = f → ∃ r', TrimRight (f +:+ r) = f +:+ r'.
Proof.
  induction f as [|c f IH]; intros Hf.
  - by exists (TrimRight r).
  - rewrite ?string_app_cons. simpl in *.
    destruct (TrimRight f) as [|d t] eqn:Ht.
    + destruct (isSpace c) eqn:Hc; [done|]. simplify_eq.
      rewrite string_app_nil_l.
      destruct (TrimRight r) as [|d t]; [by exists EmptyString | by exists (String d t)].
    + simplify_eq. destruct IH as [r' Hr']; [done|]. rewrite Hr'.
      rewrite ?string_app_cons. by exists r'.
Qed.

(** A prefix that trimming fixes survives the trimming of the whole. *)
Lemma TrimSpace_fixed_prefix f r :
  TrimSpace f = f → HasPrefix (TrimSpace (f +:+ r)) f = true.
Proof.
  destruct f as [|c f]; [done|]. intros Hf.
  pose proof (TrimSpace_fixed_first _ _ Hf) as Hc.
  unfold TrimSpace in *. rewrite ?string_app_cons. simpl in *. rewrite Hc in *.
  rewrite <- ?string_app_cons.
  destruct (TrimRight_fixed_prefix (String c f) r Hf) as [r' ->].
  apply (HasPrefix_app (String c f)).
Qed.

End GoStringsFacts.

(** ** The model registry *)
Section RegistryFacts.

Lemma existsb_elem_of {A} (f : A → bool) (l : list A) :
  existsb f l = true ↔ ∃ x, x ∈ l ∧ f x = true.
Proof.
  rewrite existsb_exists. split; intros (x & Hx & Hf); exists x; split; try done;
    by apply list_elem_of_In.
Qed.

(** What [ValidateModel] decides: the normal form of the query is a
    stored name, or starts with a stored family prefix. *)
Lemma ValidateModel_true_iff r provider s :
  ValidateModel r provider s = true ↔
    TrimSpace (ToLower s) ∈ GetModels r provider
    ∨ ∃ family, family ∈ GetFamilies r provider
                ∧ HasPrefix (TrimSpace (ToLower s)) family = true.
Proof.
  unfold ValidateModel, GetModels, GetFamilies.
  destruct (existsb _ (index (models r) provider)) eqn:Hm.
  - split; [|done]. intros _. left.
    apply existsb_elem_of in Hm as (x & Hx & Heq).
    by apply bool_decide_eq_true_1 in Heq as ->.
  - destruct (existsb _ (index (families r) provider)) eqn:Hf.
    + split; [|done]. intros _. right. by apply existsb_elem_of in Hf.
    + split; [done|]. intros [Hin | Hfam].
      * assert (existsb (λ valid, bool_decide (TrimSpace (ToLower s) = valid))
                  (index (models r) provider) = true) as Hex; [|congruence].
        apply existsb_elem_of. eexists. split; [done|]. by apply bool_decide_eq_true_2.
      * apply existsb_elem_of in Hfam. by pose proof (eq_trans (eq_sym Hf) Hfam).
Qed.

Lemma RegisterModels_elem r provider ms name :
  name ∈ ms → name ∈ GetModels (RegisterModels r provider ms) provider.
Proof.
  intros Hin. unfold GetModels, RegisterModels, index. simpl.
  rewrite lookup_insert_eq. simpl. apply elem_of_app. by right.
Qed.

Lemma RegisterFamilies_elem r provider fs family :
  family ∈ fs → family ∈ GetFamilies (RegisterFamilies r provider fs) provider.
Proof.
  intros Hin. unfold GetFamilies, RegisterFamilies, index. simpl.
  rewrite lookup_insert_eq. simpl. apply elem_of_app. by right.
Qed.

(** Every name and every family prefix of the seed list is in
    normal form. *)
Lemma NewModelRegistry_normalized provider entry :
  entry ∈ GetModels NewModelRegistry provider
  ∨ entry ∈ GetFamilies NewModelRegistry provider →
  normalized entry.
Proof.
  assert (map_Forall (λ _ l, Forall normalized l) (models NewModelRegistry)) as Hm.
  { apply (bool_decide_unpack _). by vm_compute. }
  assert (map_Forall (λ _ l, Forall normalized l) (families NewModelRegistry)) as Hf.
  { apply (bool_decide_unpack _). by vm_compute. }
  unfold GetModels, GetFamilies, index. intros [Hin | Hin].
  - destruct (models NewModelRegistry !! provider) as [l|] eqn:Hl;
      [|by apply elem_of_nil in Hin].
    specialize (Hm _ _ Hl). simpl in *. rewrite Forall_forall in Hm. auto.
  - destruct (families NewModelRegistry !! provider) as [l|] eqn:Hl;
      [|by apply elem_of_nil in Hin].
    specialize (Hf _ _ Hl). simpl in *. rewrite Forall_forall in Hf. auto.
Qed.

(** C4, as stated, fails: a registered name is compared as it is
    stored, so a name registered with an upper-case letter does not
    validate, not even verbatim; likewise a family prefix. *)
Lemma ValidateModel_unnormalized_entry :
  let r := RegisterFamilies (RegisterModels NewModelRegistry "openai" ["GPT-5"])
             "openai" ["GPT-"] in
  "GPT-5" ∈ GetModels r "openai"
  ∧ ValidateModel r "openai" "GPT-5" = false
  ∧ "GPT-" ∈ GetFamilies r "openai"
  ∧ HasPrefix "GPT-5-mini" "GPT-" = true
  ∧ ValidateModel r "openai" "GPT-5-mini" = false.
Proof.
  repeat split; try (by vm_compute).
  - apply (bool_decide_unpack _). by vm_compute.
  - apply (bool_decide_unpack _). by vm_compute.
Qed.

(** C4, amended: on the ASCII range, for registered names and family
    prefixes in normal form (lower case, no surrounding white space),
    as all seeded ones are: a registered name validates verbatim and
    in every variant that differs by letter case and white-space
    padding, all of which are ASCII again; every ASCII string that
    starts with a registered family prefix validates; an ASCII string
    whose normal form is not a registered name and starts with no
    registered prefix yields [false]. [ValidateModel] is a total
    boolean function, so there is no error outcome. *)
Theorem ValidateModel_normal_entries (r : ModelRegistry) (provider : string) :
  (∀ name, name ∈ GetModels r provider → is_ascii name = true → normalized name →
     ValidateModel r provider name = true
     ∧ ∀ l c t, all_space l = true → all_space t = true → ToLower c = name →
         is_ascii (l +:+ c +:+ t) = true
         ∧ ValidateModel r provider (l +:+ c +:+ t) = true)
  ∧ (∀ family s, family ∈ GetFamilies r provider → normalized family →
       is_ascii s = true → HasPrefix s family = true →
       is_ascii family = true ∧ ValidateModel r provider s = true)
  ∧ (∀ s, is_ascii s = true →
       TrimSpace (ToLower s) ∉ GetModels r provider →
       (∀ family, family ∈ GetFamilies r provider →
          HasPrefix (TrimSpace (ToLower s)) family = false) →
       ValidateModel r provider s = false).
Proof.
  split; [|split].
  - intros name Hin Hascii [Hlow Htrim]. split.
    + apply ValidateModel_true_iff. left. by rewrite Hlow, Htrim.
    + intros l c t Hl Ht Hc. split.
      * rewrite !is_ascii_app, <- (is_ascii_ToLower c), Hc, Hascii.
        by rewrite !is_ascii_all_space.
      * apply ValidateModel_true_iff. left.
        rewrite !ToLower_app, Hc, !ToLower_all_space by done.
        by rewrite TrimSpace_pad, Htrim.
  - intros family s Hin [Hlow Htrim] Hascii [rest ->]%HasPrefix_spec. split.
    + rewrite is_ascii_app in Hascii. by apply andb_true_iff in Hascii as [? _].
    + apply ValidateModel_true_iff. right. exists family. split; [done|].
      rewrite ToLower_app, Hlow. by apply TrimSpace_fixed_prefix.
  - intros s _ Hname Hfam. apply not_true_is_false.
    intros [Hin | (family & Hin & Hp)]%ValidateModel_true_iff; [done|].
    rewrite Hfam in Hp; done.
Qed.

Lemma ValidateModel_normal_entries_witness :
  ValidateModel NewModelRegistry "anthropic" "claude-opus-4-20250514" = true
  ∧ ValidateModel NewModelRegistry "anthropic"
      ("  " +:+ "Claude-OPUS-4-20250514" +:+ " ") = true
  ∧ ValidateModel NewModelRegistry "moonshot" "moonshot-v2-future" = true
  ∧ ValidateModel NewModelRegistry "moonshot" "not-moonshot-v1" = false.
Proof.
  destruct (ValidateModel_normal_entries NewModelRegistry "anthropic") as (Hname & _ & _).
  destruct (ValidateModel_normal_entries NewModelRegistry "moonshot") as (_ & Hfam & Hnone).
  destruct (Hname "claude-opus-4-20250514") as [Hverb Hvar].
  { apply (bool_decide_unpack _). by vm_compute. }
  { reflexivity. }
  { split; reflexivity. }
  split; [exact Hverb|]. split; [by apply Hvar|]. split.
  - apply (Hfam "moonshot-");
      [apply (bool_decide_unpack _); by vm_compute | by split | done | done].
  - apply Hnone.
    + reflexivity.
    + apply (bool_decide_unpack _). by vm_compute.
    + intros family Hin.
      assert (family ∈ ["moonshot-"]) as ->%list_elem_of_singleton; [|done].
      exact Hin.
Defined.

End RegistryFacts.

(** ** The provider resolver *)
Section ResolverFacts.
Variable json_Unmarshal : string → option OllamaTagsResponse.

Lemma first_supporting_None ps modelName :
  first_supporting ps modelName = None ↔
  ∀ p, p ∈ ps → SupportsModel p modelName = false.
Proof.
  induction ps as [|q ps IH]; simpl.
  - split; [|done]. intros _ p Hp. by apply elem_of_nil in Hp.
  - destruct (SupportsModel q modelName) eqn:Hq.
    + split; [done|]. intros H. specialize (H q (list_elem_of_here _ _)). congruence.
    + rewrite IH. split.
      * intros H p [->|Hp]%elem_of_cons; auto.
      * intros H p Hp. apply H. by apply list_elem_of_further.
Qed.

(** The loop returns the supporting provider of least index. *)
Lemma first_supporting_least ps modelName i provider :
  ps !! i = Some provider →
  SupportsModel provider modelName = true →
  (∀ j q, (j < i)%nat → ps !! j = Some q → SupportsModel q modelName = false) →
  first_supporting ps modelName = Some provider.
Proof.
  revert i. induction ps as [|q ps IH]; intros i Hi Hp Hlt; [done|].
  destruct i as [|i]; simpl in *.
  - simplify_eq. by rewrite Hp.
  - rewrite (Hlt 0%nat q) by (done || lia).
    apply (IH i); [done..|]. intros j q' Hj Hq'. apply (Hlt (S j) q'); [lia | done].
Qed.

Lemma first_supporting_elem ps modelName provider :
  first_supporting ps modelName = Some provider → provider ∈ ps.
Proof.
  induction ps as [|q ps IH]; simpl; [done|].
  destruct (SupportsModel q modelName).
  - intros [= ->]. apply list_elem_of_here.
  - intros H. apply list_elem_of_further. auto.
Qed.

(** C5, amended: when at least one hosted capability supports the
    name, resolution returns the supporting hosted capability that
    comes first in the order Google, Anthropic, X.AI, Deepseek,
    Moonshot, OpenAI, unless the local capability supports the name
    and the probe finds the model locally, in which case the local
    capability is returned.  In particular a name the local
    capability supports but the probe does not find resolves to the
    hosted capability. *)
Theorem defaultDetectProvider_precedence (B : Backends) (resp : HttpResult)
    (modelName : string) (i : nat) (provider : Provider) :
  providers B !! i = Some provider →
  SupportsModel provider modelName = true →
  (∀ j q, (j < i)%nat → providers B !! j = Some q →
          SupportsModel q modelName = false) →
  providers B = [ NewGoogleProvider B; NewAnthropicProvider B; NewXAIProvider B;
                  NewDeepseekProvider B; NewMoonshotProvider B; NewOpenAIProvider B ]
  ∧ (SupportsModel (NewOllamaProvider B) modelName = true →
     isModelAvailableLocally json_Unmarshal resp modelName = true →
     defaultDetectProvider json_Unmarshal B resp modelName = NewOllamaProvider B)
  ∧ (SupportsModel (NewOllamaProvider B) modelName = false
     ∨ isModelAvailableLocally json_Unmarshal resp modelName = false →
     defaultDetectProvider json_Unmarshal B resp modelName = provider).
Proof.
  intros Hi Hp Hleast. split; [done|]. unfold defaultDetectProvider. split.
  - intros -> ->. done.
  - intros Hlocal.
    assert (SupportsModel (NewOllamaProvider B) modelName
            && isModelAvailableLocally json_Unmarshal resp modelName = false) as ->.
    { apply andb_false_iff. exact Hlocal. }
    by rewrite (first_supporting_least _ _ i provider).
Qed.

(** C6: resolution is a total function whose value is one of the
    seven capabilities; when no hosted capability supports the name
    it is the local one, whatever the probe's outcome; and the probe
    answers [false] on a transport error, on a status other than 200,
    on a body that cannot be read and on a payload that does not
    decode. *)
Theorem defaultDetectProvider_fallback (B : Backends) (resp : HttpResult)
    (modelName : string) :
  (defaultDetectProvider json_Unmarshal B resp modelName = NewOllamaProvider B
   ∨ defaultDetectProvider json_Unmarshal B resp modelName ∈ providers B)
  ∧ ((∀ p, p ∈ providers B → SupportsModel p modelName = false) →
     defaultDetectProvider json_Unmarshal B resp modelName = NewOllamaProvider B)
  ∧ isModelAvailableLocally json_Unmarshal TransportError modelName = false
  ∧ (∀ status body, status ≠ StatusOK →
       isModelAvailableLocally json_Unmarshal (Response status body) modelName = false)
  ∧ (∀ status,
       isModelAvailableLocally json_Unmarshal (Response status None) modelName = false)
  ∧ (∀ status body, json_Unmarshal body = None →
       isModelAvailableLocally json_Unmarshal (Response status (Some body)) modelName
       = false).
Proof.
  split; [|split; [|split; [done|split; [|split]]]].
  - unfold defaultDetectProvider.
    destruct (_ && _); [by left|].
    destruct (first_supporting _ _) as [p|] eqn:Hp; [right | by left].
    by apply first_supporting_elem in Hp.
  - intros Hnone. unfold defaultDetectProvider.
    apply first_supporting_None in Hnone. rewrite Hnone. by destruct (_ && _).
  - intros status body Hs. simpl. by rewrite bool_decide_eq_true_2.
  - intros status. simpl. by destruct (bool_decide _).
  - intros status body Hb. simpl. rewrite Hb. by destruct (bool_decide _).
Qed.

End ResolverFacts.

(** C5, as stated, fails: [gpt-oss] is supported by two hosted
    capabilities, Deepseek before OpenAI, yet resolution returns the
    local capability, because it supports the name too and the probe
    finds [gpt-oss:latest]. *)
Lemma defaultDetectProvider_local_first :
  let B := registry_backends oss_registry in
  let resp := Response 200 (Some tags_body) in
  SupportsModel (NewDeepseekProvider B) "gpt-oss" = true
  ∧ SupportsModel (NewOpenAIProvider B) "gpt-oss" = true
  ∧ Name (defaultDetectProvider sample_Unmarshal B resp "gpt-oss") = "ollama"
  ∧ defaultDetectProvider sample_Unmarshal B resp "gpt-oss" ≠ NewDeepseekProvider B.
Proof.
  repeat split; by vm_compute.
Qed.

Lemma defaultDetectProvider_precedence_witness :
  let B := registry_backends oss_registry in
  defaultDetectProvider sample_Unmarshal B TransportError "gpt-oss"
  = NewDeepseekProvider B.
Proof.
  intros B.
  destruct (defaultDetectProvider_precedence sample_Unmarshal B TransportError
              "gpt-oss" 3 (NewDeepseekProvider B)) as (_ & _ & Hhosted).
  - reflexivity.
  - by vm_compute.
  - intros j q Hj Hq.
    destruct j as [|[|[|j]]]; [..|lia]; simpl in Hq; simplify_eq; by vm_compute.
  - apply Hhosted. by right.
Defined.

Lemma defaultDetectProvider_fallback_witness :
  let B := registry_backends NewModelRegistry in
  defaultDetectProvider sample_Unmarshal B (Response 500 None) "llama3"
  = NewOllamaProvider B
  ∧ isModelAvailableLocally sample_Unmarshal (Response 503 (Some tags_body)) "gpt-oss"
    = false
  ∧ isModelAvailableLocally sample_Unmarshal (Response 200 (Some "not json")) "gpt-oss"
    = false.
Proof.
  intros B.
  destruct (defaultDetectProvider_fallback sample_Unmarshal B (Response 500 None)
              "llama3") as (_ & Hfall & _).
  destruct (defaultDetectProvider_fallback sample_Unmarshal B TransportError
              "gpt-oss") as (_ & _ & _ & Hstatus & _ & Hjson).
  split; [|split].
  - apply Hfall. intros p Hp.
    repeat (apply elem_of_cons in Hp as [->|Hp]; [by vm_compute|]).
    by apply elem_of_nil in Hp.
  - by apply Hstatus.
  - by apply Hjson.
Defined.

(** ** The chunker *)
Section ChunkerFacts.
Local Open Scope chunker_scope.

(** *** Integers *)
Lemma wrap_id z : in_int z → wrap z = z.
Proof.
  unfold in_int, int_min, int_max, wrap. intros Hz.
  rewrite Z.mod_small; lia.
Qed.

Lemma wrap_in_int z : in_int (wrap z).
Proof.
  unfold in_int, int_min, int_max, wrap.
  pose proof (Z.mod_pos_bound (z + 2 ^ 63) (2 ^ 64)). lia.
Qed.

Lemma len_id {A} (l : list A) :
  Z.of_nat (length l) < unit_bound → len l = Z.of_nat (length l).
Proof.
  unfold unit_bound, len. intros H. apply wrap_id.
  unfold in_int, int_min, int_max. lia.
Qed.

Lemma ceil_div_add a b : 0 < b → ceil_div a b = (a + b - 1) `div` b.
Proof.
  intros Hb. unfold ceil_div.
  pose proof (Z.div_mod (- a) b ltac:(lia)) as Hdm.
  pose proof (Z.mod_pos_bound (- a) b Hb) as Hr.
  apply (Z.div_unique _ _ _ (b - 1 - (- a) `mod` b)); lia.
Qed.

Lemma ceil_div_pos a b : 0 < a → 0 < b → 0 < ceil_div a b.
Proof.
  intros Ha Hb. rewrite ceil_div_add by done.
  apply Z.div_str_pos. lia.
Qed.

(** More chunks than one means more units than fit in a chunk. *)
Lemma ceil_div_gt_1 a b : 0 < b → 1 < ceil_div a b → b < a.
Proof.
  intros Hb. rewrite ceil_div_add by done. intros H.
  destruct (decide (b < a)) as [|Hle]; [done|].
  assert ((a + b - 1) `div` b < 2); [|lia].
  apply Z.div_lt_upper_bound; lia.
Qed.

(** The chunk count as the code computes it, on [int]. *)
Lemma check_limit_count total size :
  0 < total < unit_bound → 0 < size → in_int size → size < total →
  wrap (sub (add total size) 1 ÷ size) = ceil_div total size.
Proof.
  unfold unit_bound, in_int, int_min, int_max, add, sub.
  intros Ht Hs Hi Hlt.
  rewrite (wrap_id (total + size)) by (unfold in_int, int_min, int_max; lia).
  rewrite (wrap_id (total + size - 1)) by (unfold in_int, int_min, int_max; lia).
  rewrite Z.quot_div_nonneg by lia.
  rewrite ceil_div_add by done.
  apply wrap_id. unfold in_int, int_min, int_max.
  pose proof (Z.div_pos (total + size - 1) size ltac:(lia) ltac:(lia)).
  assert ((total + size - 1) `div` size ≤ total + size - 1); [|lia].
  apply Z.div_le_upper_bound; nia.
Qed.

(** *** Validation *)
Lemma validMethods_spec s :
  default false (validMethods !! s) = true ↔ valid_method s.
Proof.
  unfold validMethods, valid_method. rewrite !lookup_insert.
  repeat case_decide; rewrite ?lookup_empty; simpl; intuition congruence.
Qed.

Lemma validateConfig_Ok config :
  valid_method (ToLower (By config)) → 0 < Size config →
  validateConfig config = Ok (validated config).
Proof.
  intros Hm%validMethods_spec Hs. unfold validateConfig, validated.
  rewrite Hm. simpl. rewrite (proj2 (Z.leb_gt _ _)) by done.
  destruct config as [b s o m]; simpl in *.
  destruct (Z.ltb_spec o 0); simpl; destruct (Z.leb_spec m 0); simpl;
    do 2 f_equal; lia.
Qed.

Lemma validateConfig_inv config config' :
  validateConfig config = Ok config' →
  valid_method (ToLower (By config)) ∧ 0 < Size config ∧ config' = validated config.
Proof.
  intros H.
  assert (valid_method (ToLower (By config)) ∧ 0 < Size config) as [Hm Hs].
  { unfold validateConfig in H.
    destruct (default false _) eqn:Hm; simpl in H; [|done].
    destruct (Z.leb_spec (Size config) 0); [done|].
    split; [by apply validMethods_spec | lia]. }
  rewrite validateConfig_Ok in H by done. by simplify_eq.
Qed.

Lemma validateConfig_outcome config :
  (∃ config', validateConfig config = Ok config')
  ∨ validateConfig config = Error (ErrInvalidMethod (By config))
  ∨ validateConfig config = Error (ErrChunkSize (Size config)).
Proof.
  unfold validateConfig.
  destruct (negb _); [by right; left|].
  destruct (Size config <=? 0); [by right; right|]. left. eauto.
Qed.

Lemma validated_int config : int_config config → int_config (validated config).
Proof.
  unfold int_config, validated, in_int, int_min, int_max. simpl.
  destruct (MaxChunks config <=? 0); lia.
Qed.

Lemma validated_bounds config :
  0 ≤ Overlap (validated config) ∧ 0 < MaxChunks (validated config).
Proof.
  unfold validated. simpl. destruct (Z.leb_spec (MaxChunks config) 0); lia.
Qed.

(** *** The world under the operations *)
Lemma wrote_refl w : wrote w w [].
Proof. unfold wrote. simpl. by rewrite app_nil_r. Qed.

Lemma wrote_put w path content : wrote w (put_file path content w) [(path, content)].
Proof. by unfold wrote, put_file. Qed.

Lemma wrote_trans w1 w2 w3 ws1 ws2 :
  wrote w1 w2 ws1 → wrote w2 w3 ws2 → wrote w1 w3 (ws1 ++ ws2).
Proof.
  unfold wrote. intros (Hd1 & Ht1 & Hf1 & Hl1 & Hm1) (Hd2 & Ht2 & Hf2 & Hl2 & Hm2).
  rewrite Hd2, Ht2, Hf2, Hl2, Hm2, Hl1, Hm1, fmap_app, foldl_app, <- app_assoc. done.
Qed.

Lemma writes_app evs1 evs2 : writes (evs1 ++ evs2) = writes evs1 ++ writes evs2.
Proof. unfold writes. apply omap_app. Qed.

Lemma writes_wrote ws : writes ((λ pc, EvWrite pc.1 pc.2) <$> ws) = ws.
Proof. induction ws as [|[p c] ws IH]; simpl; [done|]. f_equal. exact IH. Qed.

Lemma WriteFile_cases path content w :
  (write_fails (faults w) path = true
   ∧ WriteFile path content w = (Error ErrOS, w))
  ∨ (write_fails (faults w) path = false
     ∧ WriteFile path content w = (Ok (), put_file path content w)).
Proof. unfold WriteFile. destruct (write_fails _ _); auto. Qed.

Lemma emit_loop_S fuel content total tempDir config start chunkIndex chunkPaths :
  emit_loop (S fuel) content total tempDir config start chunkIndex chunkPaths =
  if negb (start <? total) then ret (chunkPaths, chunkIndex)
  else if chunkIndex >=? MaxChunks config then ret (chunkPaths, chunkIndex)
  else
    let end_ := add start (Size config) in
    let end_ := if end_ >? total then total else end_ in
    let chunkPath := path_join tempDir (chunk_name chunkIndex) in
    let* chunkContent := content start end_ in
    let* _ := WriteFile chunkPath chunkContent orelse ErrWriteChunk chunkIndex in
    let chunkPaths := chunkPaths ++ [chunkPath] in
    let chunkIndex := add chunkIndex 1 in
    if end_ >=? total then ret (chunkPaths, chunkIndex)
    else emit_loop fuel content total tempDir config
           (add start (sub (Size config) (Overlap config))) chunkIndex chunkPaths.
Proof. reflexivity. Qed.

(** What one run of the emission loop does to the world: it writes
    files, as many as the chunk index grows, never past [MaxChunks];
    with more fuel than chunks left to emit it does not run out. *)
Lemma emit_loop_wrote fuel content total tempDir config :
  pure_content content → in_int (MaxChunks config) →
  ∀ start idx paths w r w',
    0 ≤ idx ≤ MaxChunks config →
    emit_loop fuel content total tempDir config start idx paths w = (r, w') →
    ∃ ws, wrote w w' ws
          ∧ idx + Z.of_nat (length ws) ≤ MaxChunks config
          ∧ (∀ paths' n, r = Ok (paths', n) →
               n = idx + Z.of_nat (length ws) ∧ paths' = paths ++ ws.*1)
          ∧ (MaxChunks config - idx < Z.of_nat fuel → r ≠ OutOfFuel).
Proof.
  intros Hpure Hmax. induction fuel as [|fuel IH]; intros start idx paths w r w' Hidx.
  { intros [= <- <-]. exists []. split; [apply wrote_refl|]. simpl.
    split; [lia|]. split; [done|]. lia. }
  rewrite emit_loop_S.
  assert (∀ ps n, ret (A := list string * Z) (ps, n) w = (r, w') →
            ps = paths → n = idx →
            ∃ ws, wrote w w' ws
                  ∧ idx + Z.of_nat (length ws) ≤ MaxChunks config
                  ∧ (∀ paths' n, r = Ok (paths', n) →
                       n = idx + Z.of_nat (length ws) ∧ paths' = paths ++ ws.*1)
                  ∧ (MaxChunks config - idx < Z.of_nat (S fuel) → r ≠ OutOfFuel))
    as Hret.
  { intros ps n [= <- <-] -> ->. exists []. split; [apply wrote_refl|]. simpl.
    split; [lia|]. split; [|done]. intros ?? [= <- <-]. rewrite app_nil_r. split; [lia|done]. }
  destruct (negb (start <? total)); [by eauto|].
  destruct (Z.geb_spec idx (MaxChunks config)) as [|Hlt]; [by eauto|].
  cbv zeta. set (end_ := if _ >? total then total else _).
  unfold bind at 1. destruct (Hpure start end_ w) as (rc & -> & Hfuel).
  destruct rc as [chunkContent|e| |]; [|intros [= <- <-]; exists []; split; [apply wrote_refl|];
    simpl; split; [lia|]; split; done..].
  unfold bind at 1, or_fail.
  destruct (WriteFile_cases (path_join tempDir (chunk_name idx)) chunkContent w)
    as [[_ ->]|[_ ->]].
  { intros [= <- <-]. exists []. split; [apply wrote_refl|]. simpl.
    split; [lia|]. split; done. }
  assert (add idx 1 = idx + 1) as ->.
  { apply wrap_id. unfold in_int, int_min, int_max in *. lia. }
  destruct (end_ >=? total).
  - intros [= <- <-]. eexists [_]. split; [apply wrote_put|]. simpl.
    split; [lia|]. split; [|done]. intros ?? [= <- <-]. split; [lia|done].
  - intros Hloop. apply IH in Hloop as (ws & Hw & Hlen & Hok & Hnf); [|lia].
    eexists (_ :: ws). split; [eapply (wrote_trans _ _ _ [_] ws); [apply wrote_put|done]|].
    simpl. split; [lia|]. split.
    + intros paths' n Hr. destruct (Hok _ _ Hr) as [-> ->].
      split; [lia|]. by rewrite <- app_assoc.
    + intros Hf. apply Hnf. lia.
Qed.

(** The arithmetic of one iteration is exact: the chunk
    [[start, end)] lies within the input, and if the loop goes on,
    the next start is [start + Size - Overlap]. *)
Lemma loop_end_bounds config total start :
  in_int (Size config) → in_int (Overlap config) →
  0 < Size config → 0 ≤ Overlap config ≤ Size config →
  0 ≤ total < unit_bound →
  0 ≤ start < total → (start = 0 ∨ Size config < total) →
  let end_ := if add start (Size config) >? total then total
              else add start (Size config) in
  end_ = Z.min (start + Size config) total
  ∧ (end_ < total →
     Size config < total
     ∧ add start (sub (Size config) (Overlap config))
       = start + Size config - Overlap config).
Proof.
  unfold unit_bound, in_int, int_min, int_max. intros Hs Ho Hpos Hov Ht Hst Hinv.
  assert (add start (Size config) = start + Size config) as ->.
  { apply wrap_id. unfold in_int, int_min, int_max. lia. }
  cbv zeta. destruct (Z.gtb_spec (start + Size config) total).
  - split; lia.
  - split; [lia|]. intros Hlt. split; [lia|].
    unfold add, sub. rewrite (wrap_id (_ - _)) by (unfold in_int, int_min, int_max; lia).
    rewrite wrap_id by (unfold in_int, int_min, int_max; lia). lia.
Qed.

(** Within these bounds the emission loop does not panic. *)
Lemma emit_loop_no_panic fuel content total tempDir config :
  safe_content content total →
  int_config config → 0 < Size config → 0 ≤ Overlap config ≤ Size config →
  0 ≤ total < unit_bound →
  ∀ start idx paths w r w',
    0 ≤ start → (start = 0 ∨ Size config < total) →
    emit_loop fuel content total tempDir config start idx paths w = (r, w') →
    r ≠ Panic.
Proof.
  intros Hsafe (Hs & Ho & Hm) Hpos Hov Ht.
  induction fuel as [|fuel IH]; intros start idx paths w r w' Hst Hinv.
  { by intros [= <- <-]. }
  rewrite emit_loop_S.
  destruct (Z.ltb_spec start total) as [Hlt|]; simpl; [|by intros [= <- <-]].
  destruct (idx >=? MaxChunks config); [by intros [= <- <-]|].
  destruct (loop_end_bounds config total start) as [Hend Hnext]; [done..|lia|done|].
  cbv zeta in Hend, Hnext. set (end_ := if _ >? total then total else _) in *.
  unfold bind at 1. destruct (Hsafe start end_ w) as (rc & -> & Hnp); [lia..|].
  destruct rc as [chunkContent|e| |]; [|by intros [= <- <-]..].
  unfold bind at 1, or_fail.
  destruct (WriteFile_cases (path_join tempDir (chunk_name idx)) chunkContent w)
    as [[_ ->]|[_ ->]]; [by intros [= <- <-]|].
  destruct (Z.geb_spec end_ total) as [|Hgo]; [by intros [= <- <-]|].
  destruct (Hnext Hgo) as [Hsz ->]. apply IH; [lia | by right].
Qed.

(** More fuel does not change an outcome that did not run out. *)
Lemma emit_loop_fuel_mono fuel fuel' content total tempDir config :
  (fuel ≤ fuel')%nat →
  ∀ start idx paths w r w',
    emit_loop fuel content total tempDir config start idx paths w = (r, w') →
    r ≠ OutOfFuel →
    emit_loop fuel' content total tempDir config start idx paths w = (r, w').
Proof.
  revert fuel'. induction fuel as [|fuel IH]; intros fuel' Hle start idx paths w r w'.
  { intros [= <- <-]. done. }
  destruct fuel' as [|fuel']; [lia|]. rewrite !emit_loop_S.
  destruct (negb _); [done|]. destruct (_ >=? _); [done|].
  cbv zeta. unfold bind at 1 3.
  destruct (content _ _ w) as [[chunkContent|e| |] w1]; [|done..].
  unfold bind at 1 2.
  destruct ((_ orelse _) w1) as [[[]|e| |] w2]; [|done..].
  destruct (_ >=? total); [done|]. apply IH. lia.
Qed.

(** *** The content of a chunk *)
Lemma slice_pure {A} (l : list A) a b w :
  ∃ r, slice l a b w = (r, w) ∧ r ≠ OutOfFuel.
Proof. unfold slice. destruct (_ && _); eexists; split; done. Qed.

Lemma slice_Ok {A} (l : list A) a b w :
  0 ≤ a ≤ b → b ≤ Z.of_nat (length l) →
  slice l a b w = (Ok (range l (Z.to_nat a) (Z.to_nat b)), w).
Proof.
  intros Hab Hb. unfold slice, range.
  rewrite !(proj2 (Z.leb_le _ _)) by lia. simpl. by rewrite Z2Nat.inj_sub by lia.
Qed.

Lemma lines_content_pure l : pure_content (lines_content l).
Proof.
  intros a b w. unfold lines_content, bind.
  destruct (slice_pure l a b w) as ([piece|e| |] & -> & Hr); eexists; split; done.
Qed.

Lemma lines_content_safe l total :
  total ≤ Z.of_nat (length l) → safe_content (lines_content l) total.
Proof.
  intros Hl a b w Hab Hb. unfold lines_content, bind.
  rewrite slice_Ok by lia. eexists; split; done.
Qed.

Lemma tokens_content_pure l : pure_content (tokens_content l).
Proof.
  intros a b w. unfold tokens_content, bind.
  destruct (slice_pure l a b w) as ([piece|e| |] & -> & Hr); eexists; split; done.
Qed.

Lemma tokens_content_safe l total :
  total ≤ Z.of_nat (length l) → safe_content (tokens_content l) total.
Proof.
  intros Hl a b w Hab Hb. unfold tokens_content, bind.
  rewrite slice_Ok by lia. eexists; split; done.
Qed.

Lemma bytes_content_pure filePath file : pure_content (bytes_content filePath file).
Proof.
  intros a b w. unfold bytes_content, bind, or_fail, Seek, ReadFull.
  destruct (_ <? 0); [eexists; split; done|].
  destruct (a <? 0); [eexists; split; done|].
  destruct (read_fails _ _ _); eexists; split; done.
Qed.

Lemma bytes_content_safe filePath file total :
  total < unit_bound → safe_content (bytes_content filePath file) total.
Proof.
  unfold unit_bound. intros Ht a b w Hab Hb.
  unfold bytes_content, bind, or_fail, Seek, ReadFull.
  assert (sub b a = b - a) as ->.
  { apply wrap_id. unfold in_int, int_min, int_max. lia. }
  rewrite (proj2 (Z.ltb_ge _ _)) by lia.
  destruct (a <? 0); [eexists; split; done|].
  destruct (read_fails _ _ _); eexists; split; done.
Qed.

(** *** The split functions *)
Lemma Open_cases path w :
  Open path w = (Error ErrOS, w)
  ∨ ∃ data, files w !! path = Some data ∧ Open path w = (Ok data, w).
Proof.
  unfold Open. destruct (files w !! path) as [data|]; [|by left].
  destruct (open_fails _ _); [by left | right; eauto].
Qed.

Lemma scan_cases path data w :
  scan path data w = (Error ErrOS, w) ∨ scan path data w = (Ok (ScanLines data), w).
Proof. unfold scan. destruct (scan_fails _ _); auto. Qed.

Lemma Stat_cases path data w :
  Stat path data w = (Error ErrOS, w)
  ∨ Stat path data w = (Ok (wrap (Z.of_nat (String.length data))), w).
Proof. unfold Stat. destruct (stat_fails _ _); auto. Qed.

Lemma check_limit_eq total config w :
  0 < Size config →
  check_limit total config w =
  (let totalChunks := wrap (sub (add total (Size config)) 1 ÷ Size config) in
   if totalChunks >? MaxChunks config
   then Error (ErrLimit totalChunks (MaxChunks config)) else Ok (), w).
Proof.
  intros Hs. unfold check_limit, bind, quo.
  rewrite (proj2 (Z.eqb_neq _ _)) by lia. unfold ret. cbv zeta.
  by destruct (_ >? _).
Qed.

Lemma emitted_nothing maxChunks w (r : result (list string * Z)) :
  0 ≤ maxChunks → (∀ a, r ≠ Ok a) → emitted maxChunks w r w.
Proof.
  intros Hm Hr. exists []. split; [apply wrote_refl|]. simpl. split; [lia|].
  intros paths n ->. by destruct (Hr (paths, n)).
Qed.

(** What every split function does once it has counted the units of
    its input. *)
Lemma split_tail_emitted fuel content total tempDir config w r w' :
  pure_content content → in_int (MaxChunks config) →
  0 < Size config → 0 < MaxChunks config →
  (if total =? 0 then empty_chunk tempDir
   else let* _ := check_limit total config in
        emit_loop fuel content total tempDir config 0 0 []) w = (r, w') →
  emitted (MaxChunks config) w r w'
  ∧ (MaxChunks config < Z.of_nat fuel → r ≠ OutOfFuel).
Proof.
  intros Hpure Hint Hs Hm. destruct (total =? 0).
  - unfold empty_chunk, bind, or_fail.
    destruct (WriteFile_cases (path_join tempDir "chunk_0.txt") "" w) as [[_ ->]|[_ ->]].
    + intros [= <- <-]. split; [|done]. apply emitted_nothing; [lia | done].
    + intros [= <- <-]. split; [|done]. eexists [_]. split; [apply wrote_put|].
      simpl. split; [lia|]. by intros ?? [= <- <-].
  - unfold bind at 1. rewrite check_limit_eq by done. cbv zeta.
    destruct (_ >? _).
    + intros [= <- <-]. split; [|done]. apply emitted_nothing; [lia | done].
    + intros Hloop. apply emit_loop_wrote in Hloop as (ws & Hw & Hlen & Hok & Hnf);
        [|done|done|lia].
      split; [|intros; apply Hnf; lia].
      exists ws. split; [done|]. split; [lia|].
      intros paths n Hr. destruct (Hok _ _ Hr) as [-> ->]. split; [lia|done].
Qed.

Lemma split_tail_no_panic fuel content total tempDir config w r w' :
  safe_content content total →
  int_config config → 0 < Size config → 0 ≤ Overlap config ≤ Size config →
  0 ≤ total < unit_bound →
  (if total =? 0 then empty_chunk tempDir
   else let* _ := check_limit total config in
        emit_loop fuel content total tempDir config 0 0 []) w = (r, w') →
  r ≠ Panic.
Proof.
  intros Hsafe Hint Hs Ho Ht. destruct (total =? 0).
  - unfold empty_chunk, bind, or_fail.
    destruct (WriteFile_cases (path_join tempDir "chunk_0.txt") "" w) as [[_ ->]|[_ ->]];
      by intros [= <- <-].
  - unfold bind at 1. rewrite check_limit_eq by done. cbv zeta.
    destruct (_ >? _); [by intros [= <- <-]|].
    apply emit_loop_no_panic; try done. by left.
Qed.

Lemma split_tail_fuel_mono fuel fuel' content total tempDir config w r w' :
  (fuel ≤ fuel')%nat →
  (if total =? 0 then empty_chunk tempDir
   else let* _ := check_limit total config in
        emit_loop fuel content total tempDir config 0 0 []) w = (r, w') →
  r ≠ OutOfFuel →
  (if total =? 0 then empty_chunk tempDir
   else let* _ := check_limit total config in
        emit_loop fuel' content total tempDir config 0 0 []) w = (r, w').
Proof.
  intros Hle. destruct (total =? 0); [done|]. unfold bind at 1 2.
  destruct (check_limit total config w) as [[[]|e| |] w1]; [|done..].
  by apply emit_loop_fuel_mono.
Qed.

Lemma bind_or_fail_Ok {A B} (m : M A) (e : error) (k : A → M B) w a w1 :
  m w = (Ok a, w1) → (let* x := m orelse e in k x) w = k a w1.
Proof. intros H. unfold bind, or_fail. by rewrite H. Qed.

Lemma bind_or_fail_Error {A B} (m : M A) (e : error) (k : A → M B) w e0 w1 :
  m w = (Error e0, w1) → (let* x := m orelse e in k x) w = (Error e, w1).
Proof. intros H. unfold bind, or_fail. by rewrite H. Qed.

Lemma split_contract_error
    (split : nat → string → string → ChunkConfig → M (list string * Z))
    fuel filePath tempDir config w e :
  0 < MaxChunks config →
  (∀ fuel', split fuel' filePath tempDir config w = (Error e, w)) →
  emitted (MaxChunks config) w (Error e) w
  ∧ (MaxChunks config < Z.of_nat fuel → Error e ≠ OutOfFuel (A := list string * Z))
  ∧ (0 ≤ Overlap config ≤ Size config → bounded_input w filePath →
     Error e ≠ Panic (A := list string * Z))
  ∧ (∀ fuel', (fuel ≤ fuel')%nat → Error e ≠ OutOfFuel (A := list string * Z) →
       split fuel' filePath tempDir config w = (Error e, w)).
Proof.
  intros Hm Hsplit. split; [apply emitted_nothing; [lia|done]|].
  repeat split; done.
Qed.

Lemma splitByLines_contract : split_contract splitByLines.
Proof.
  intros fuel filePath tempDir config w r w' Hint Hs Hm. unfold splitByLines.
  destruct (Open_cases filePath w) as [Hopen | (data & Hdata & Hopen)].
  { rewrite (bind_or_fail_Error _ _ _ _ _ _ Hopen). intros [= <- <-].
    apply (split_contract_error splitByLines); [done|]. intros fuel'.
    unfold splitByLines. by rewrite (bind_or_fail_Error _ _ _ _ _ _ Hopen). }
  rewrite (bind_or_fail_Ok _ _ _ _ _ _ Hopen).
  destruct (scan_cases filePath data w) as [Hscan | Hscan].
  { rewrite (bind_or_fail_Error _ _ _ _ _ _ Hscan). intros [= <- <-].
    apply (split_contract_error splitByLines); [done|]. intros fuel'.
    unfold splitByLines. rewrite (bind_or_fail_Ok _ _ _ _ _ _ Hopen).
    by rewrite (bind_or_fail_Error _ _ _ _ _ _ Hscan). }
  rewrite (bind_or_fail_Ok _ _ _ _ _ _ Hscan). cbv zeta. intros Hrun.
  destruct (split_tail_emitted _ _ _ _ _ _ _ _ (lines_content_pure _)
              (proj2 (proj2 Hint)) Hs Hm Hrun) as [Hem Hfuel].
  split; [done|]. split; [done|]. split.
  - intros Ho Hb. specialize (Hb data "lines" Hdata).
    change (unit_count "lines" data) with (length (ScanLines data)) in Hb.
    revert Hrun. rewrite len_id by done.
    apply split_tail_no_panic; try done; [|lia]. by apply lines_content_safe.
  - intros fuel' Hle Hr.
    rewrite (bind_or_fail_Ok _ _ _ _ _ _ Hopen), (bind_or_fail_Ok _ _ _ _ _ _ Hscan).
    by apply (split_tail_fuel_mono fuel).
Qed.

Lemma splitByTokens_contract : split_contract splitByTokens.
Proof.
  intros fuel filePath tempDir config w r w' Hint Hs Hm. unfold splitByTokens.
  destruct (Open_cases filePath w) as [Hopen | (data & Hdata & Hopen)].
  { rewrite (bind_or_fail_Error _ _ _ _ _ _ Hopen). intros [= <- <-].
    apply (split_contract_error splitByTokens); [done|]. intros fuel'.
    unfold splitByTokens. by rewrite (bind_or_fail_Error _ _ _ _ _ _ Hopen). }
  rewrite (bind_or_fail_Ok _ _ _ _ _ _ Hopen).
  destruct (scan_cases filePath data w) as [Hscan | Hscan].
  { rewrite (bind_or_fail_Error _ _ _ _ _ _ Hscan). intros [= <- <-].
    apply (split_contract_error splitByTokens); [done|]. intros fuel'.
    unfold splitByTokens. rewrite (bind_or_fail_Ok _ _ _ _ _ _ Hopen).
    by rewrite (bind_or_fail_Error _ _ _ _ _ _ Hscan). }
  rewrite (bind_or_fail_Ok _ _ _ _ _ _ Hscan). cbv zeta. intros Hrun.
  destruct (split_tail_emitted _ _ _ _ _ _ _ _ (tokens_content_pure _)
              (proj2 (proj2 Hint)) Hs Hm Hrun) as [Hem Hfuel].
  split; [done|]. split; [done|]. split.
  - intros Ho Hb. specialize (Hb data "tokens" Hdata).
    change (unit_count "tokens" data)
      with (length (concat (Fields <$> ScanLines data))) in Hb.
    revert Hrun. rewrite len_id by done.
    apply split_tail_no_panic; try done; [|lia]. by apply tokens_content_safe.
  - intros fuel' Hle Hr.
    rewrite (bind_or_fail_Ok _ _ _ _ _ _ Hopen), (bind_or_fail_Ok _ _ _ _ _ _ Hscan).
    by apply (split_tail_fuel_mono fuel).
Qed.

Lemma splitByBytes_contract : split_contract splitByBytes.
Proof.
  intros fuel filePath tempDir config w r w' Hint Hs Hm. unfold splitByBytes.
  destruct (Open_cases filePath w) as [Hopen | (data & Hdata & Hopen)].
  { rewrite (bind_or_fail_Error _ _ _ _ _ _ Hopen). intros [= <- <-].
    apply (split_contract_error splitByBytes); [done|]. intros fuel'.
    unfold splitByBytes. by rewrite (bind_or_fail_Error _ _ _ _ _ _ Hopen). }
  rewrite (bind_or_fail_Ok _ _ _ _ _ _ Hopen).
  destruct (Stat_cases filePath data w) as [Hstat | Hstat].
  { rewrite (bind_or_fail_Error _ _ _ _ _ _ Hstat). intros [= <- <-].
    apply (split_contract_error splitByBytes); [done|]. intros fuel'.
    unfold splitByBytes. rewrite (bind_or_fail_Ok _ _ _ _ _ _ Hopen).
    by rewrite (bind_or_fail_Error _ _ _ _ _ _ Hstat). }
  rewrite (bind_or_fail_Ok _ _ _ _ _ _ Hstat). intros Hrun.
  destruct (split_tail_emitted _ _ _ _ _ _ _ _ (bytes_content_pure _ _)
              (proj2 (proj2 Hint)) Hs Hm Hrun) as [Hem Hfuel].
  split; [done|]. split; [done|]. split.
  - intros Ho Hb. specialize (Hb data "bytes" Hdata).
    change (unit_count "bytes" data) with (String.length data) in Hb.
    revert Hrun.
    rewrite wrap_id by (unfold unit_bound, in_int, int_min, int_max in *; lia).
    apply split_tail_no_panic; try done; [|lia]. by apply bytes_content_safe.
  - intros fuel' Hle Hr.
    rewrite (bind_or_fail_Ok _ _ _ _ _ _ Hopen), (bind_or_fail_Ok _ _ _ _ _ _ Hstat).
    by apply (split_tail_fuel_mono fuel).
Qed.

Lemma split_for_contract by_ : split_contract (split_for by_).
Proof.
  unfold split_for. repeat case_bool_decide;
    auto using splitByLines_contract, splitByBytes_contract, splitByTokens_contract.
Qed.

(** On a readable input of bounded size every split function counts
    the units and goes on to the common tail. *)
Lemma split_for_readable by_ fuel filePath tempDir config w data :
  valid_method by_ → readable w filePath data →
  Z.of_nat (unit_count by_ data) < unit_bound →
  split_for by_ fuel filePath tempDir config w =
  (let total := Z.of_nat (unit_count by_ data) in
   if total =? 0 then empty_chunk tempDir
   else let* _ := check_limit total config in
        emit_loop fuel (content_for by_ filePath data) total tempDir config 0 0 []) w.
Proof.
  intros Hby (Hdata & Hopen & Hscan & Hstat) Hb.
  assert (Open filePath w = (Ok data, w)) as HO.
  { unfold Open. by rewrite Hdata, Hopen. }
  assert (scan filePath data w = (Ok (ScanLines data), w)) as HS.
  { unfold scan. by rewrite Hscan. }
  assert (Stat filePath data w = (Ok (wrap (Z.of_nat (String.length data))), w)) as HT.
  { unfold Stat. by rewrite Hstat. }
  destruct Hby as [-> | [-> | ->]].
  - change (split_for "lines") with splitByLines.
    change (content_for "lines" filePath data) with (lines_content (ScanLines data)).
    change (unit_count "lines" data) with (length (ScanLines data)) in *.
    unfold splitByLines.
    rewrite (bind_or_fail_Ok _ _ _ _ _ _ HO), (bind_or_fail_Ok _ _ _ _ _ _ HS).
    cbv zeta. by rewrite len_id.
  - change (split_for "bytes") with splitByBytes.
    change (content_for "bytes" filePath data) with (bytes_content filePath data).
    change (unit_count "bytes" data) with (String.length data) in *.
    unfold splitByBytes.
    rewrite (bind_or_fail_Ok _ _ _ _ _ _ HO), (bind_or_fail_Ok _ _ _ _ _ _ HT).
    cbv zeta.
    by rewrite wrap_id by (unfold unit_bound, in_int, int_min, int_max in *; lia).
  - change (split_for "tokens") with splitByTokens.
    change (content_for "tokens" filePath data)
      with (tokens_content (concat (Fields <$> ScanLines data))).
    change (unit_count "tokens" data)
      with (length (concat (Fields <$> ScanLines data))) in *.
    unfold splitByTokens.
    rewrite (bind_or_fail_Ok _ _ _ _ _ _ HO), (bind_or_fail_Ok _ _ _ _ _ _ HS).
    cbv zeta. by rewrite len_id.
Qed.

Lemma readable_make_dir w dir filePath data :
  readable w filePath data → readable (make_dir dir w) filePath data.
Proof. done. Qed.

Lemma MkdirTemp_Ok w :
  can_mkdir w →
  MkdirTemp w = (Ok (temp_name (temp_seq w)), make_dir (temp_name (temp_seq w)) w).
Proof. intros [Hf Hex]. unfold MkdirTemp. cbv zeta. by rewrite Hf, Hex. Qed.

(** [SplitFile] once validation and the creation of the scratch
    directory have gone through. *)
Lemma SplitFile_run fuel filePath config config' w :
  validateConfig config = Ok config' → can_mkdir w →
  SplitFile fuel filePath config w =
  let tempDir := temp_name (temp_seq w) in
  match split_for (ToLower (By config')) fuel filePath tempDir config'
          (make_dir tempDir w) with
  | (Ok (chunkPaths, totalChunks), w1) =>
      (Ok {| ChunkPaths := chunkPaths; TempDir := tempDir;
             TotalChunks := totalChunks |}, w1)
  | (Error err, w1) => (Error err, (RemoveAll tempDir w1).2)
  | (Panic, w1) => (Panic, w1)
  | (OutOfFuel, w1) => (OutOfFuel, w1)
  end.
Proof.
  intros Hv Hmk. unfold SplitFile. rewrite Hv.
  unfold or_fail. rewrite (MkdirTemp_Ok _ Hmk). cbv zeta.
  apply validateConfig_inv in Hv as (Hby & _ & ->).
  change (By (validated config)) with (By config).
  unfold split_for.
  destruct Hby as [-> | [-> | ->]]; simpl;
    match goal with
    | |- context [?f fuel filePath ?d ?c ?w1] =>
        destruct (f fuel filePath d c w1) as [[[paths n]|e| |] w2]; try done
    end; by destruct (RemoveAll _ w2).
Qed.

(** *** Empty input *)

(** C7: for a configuration that passes validation, in any of the
    three modes, an input of no units makes [SplitFile] succeed with
    exactly one chunk, [chunk_0.txt], whose content is empty. *)
Theorem SplitFile_empty_input (fuel : nat) (filePath : string)
    (config config' : ChunkConfig) (w : World) (data : string) :
  validateConfig config = Ok config' →
  can_mkdir w → readable w filePath data →
  unit_count (ToLower (By config)) data = 0%nat →
  let tempDir := temp_name (temp_seq w) in
  let chunkPath := path_join tempDir "chunk_0.txt" in
  write_fails (faults w) chunkPath = false →
  ∃ w', SplitFile fuel filePath config w
        = (Ok {| ChunkPaths := [chunkPath]; TempDir := tempDir; TotalChunks := 1 |}, w')
        ∧ files w' = <[chunkPath := EmptyString]> (files w)
        ∧ writes (log w') = writes (log w) ++ [(chunkPath, EmptyString)].
Proof.
  intros Hv Hmk Hread Hzero tempDir chunkPath Hwrite.
  rewrite (SplitFile_run _ _ _ _ _ Hv Hmk). cbv zeta. fold tempDir.
  pose proof (validateConfig_inv _ _ Hv) as (Hby & _ & ->).
  change (By (validated config)) with (By config).
  rewrite (split_for_readable _ _ _ _ _ _ data Hby (readable_make_dir _ _ _ _ Hread))
    by (rewrite Hzero; done).
  rewrite Hzero. simpl.
  unfold empty_chunk, bind, or_fail, WriteFile. fold chunkPath.
  change (faults (make_dir tempDir w)) with (faults w). rewrite Hwrite.
  eexists. split; [done|]. split; [done|]. simpl.
  rewrite !writes_app. simpl. by rewrite app_nil_r.
Qed.

Lemma SplitFile_empty_input_witness :
  ∃ w', SplitFile 0 "in.txt"
          {| By := "Tokens"; Size := 4; Overlap := 1; MaxChunks := 0 |}
          (sample_world 0)
        = (Ok {| ChunkPaths := ["/tmp/comanda-chunks-0/chunk_0.txt"];
                 TempDir := "/tmp/comanda-chunks-0"; TotalChunks := 1 |}, w')
        ∧ files w' !! "/tmp/comanda-chunks-0/chunk_0.txt" = Some EmptyString.
Proof.
  destruct (SplitFile_empty_input 0 "in.txt"
              {| By := "Tokens"; Size := 4; Overlap := 1; MaxChunks := 0 |}
              {| By := "Tokens"; Size := 4; Overlap := 0 `max` 1; MaxChunks := 100 |}
              (sample_world 0) EmptyString)
    as (w' & Hrun & Hfiles & _); try done.
  exists w'. split; [exact Hrun|]. rewrite Hfiles. apply lookup_insert_eq.
Defined.

(** *** The limit on the number of chunks *)

(** C2: for a configuration that passes validation, in any of the
    three modes, and an input of a positive number of units: if
    [ceil(total / Size)] exceeds [MaxChunks], [SplitFile] fails with
    the limit error, and no file has been written on the way. *)
Theorem SplitFile_limit_exceeded (fuel : nat) (filePath : string)
    (config config' : ChunkConfig) (w : World) (data : string) :
  int_config config →
  validateConfig config = Ok config' →
  can_mkdir w → readable w filePath data →
  let total := Z.of_nat (unit_count (ToLower (By config)) data) in
  0 < total < unit_bound →
  MaxChunks config' < ceil_div total (Size config') →
  ∃ w', SplitFile fuel filePath config w
        = (Error (ErrLimit (ceil_div total (Size config')) (MaxChunks config')), w')
        ∧ writes (log w') = writes (log w)
        ∧ files w' ⊆ files w.
Proof.
  intros Hint Hv Hmk Hread total Ht Hlimit.
  rewrite (SplitFile_run _ _ _ _ _ Hv Hmk). cbv zeta.
  pose proof (validateConfig_inv _ _ Hv) as (Hby & Hs & ->).
  pose proof (validated_int _ Hint) as (HiS & _ & _).
  pose proof (validated_bounds config) as [_ Hm].
  change (By (validated config)) with (By config).
  change (Size (validated config)) with (Size config) in *.
  rewrite (split_for_readable _ _ _ _ _ _ data Hby (readable_make_dir _ _ _ _ Hread))
    by (fold total; lia).
  fold total. cbv zeta. rewrite (proj2 (Z.eqb_neq _ _)) by lia.
  unfold bind at 1. rewrite check_limit_eq by done. cbv zeta.
  change (Size (validated config)) with (Size config).
  rewrite check_limit_count; [|done..|apply ceil_div_gt_1; [done|lia]].
  rewrite (proj2 (Z.gtb_lt _ _)) by lia.
  eexists. split; [done|]. unfold RemoveAll.
  destruct (negb _); [|destruct (remove_fails _ _)]; simpl.
  - rewrite writes_app. simpl. split; [by rewrite app_nil_r | done].
  - rewrite writes_app. simpl. split; [by rewrite app_nil_r | done].
  - rewrite !writes_app. simpl. split; [by rewrite !app_nil_r|].
    apply map_filter_subseteq.
Qed.

Lemma SplitFile_limit_exceeded_witness :
  ∃ w', SplitFile 0 "in.txt"
          {| By := "lines"; Size := 2; Overlap := 0; MaxChunks := 2 |}
          (sample_world 5)
        = (Error (ErrLimit 3 2), w')
        ∧ writes (log w') = [].
Proof.
  destruct (SplitFile_limit_exceeded 0 "in.txt"
              {| By := "lines"; Size := 2; Overlap := 0; MaxChunks := 2 |}
              {| By := "lines"; Size := 2; Overlap := 0; MaxChunks := 2 |}
              (sample_world 5) (numbered_lines 5))
    as (w' & Hrun & Hlog & _); try done; try (by vm_compute).
  exists w'. split; [exact Hrun | exact Hlog].
Defined.

(** *** Cleaning up *)
Lemma remove_tree_gone path w :
  (path ∉ dirs (remove_tree path w))
  ∧ files (remove_tree path w) !! path = None
  ∧ (∀ p, under path p = true → files (remove_tree path w) !! p = None)
  ∧ (∀ p, p ≠ path → under path p = false →
        files (remove_tree path w) !! p = files w !! p).
Proof.
  unfold remove_tree. simpl. split; [|split; [|split]].
  - intros [_ Hn]%elem_of_difference. apply Hn. by apply elem_of_singleton.
  - apply map_lookup_filter_None. right. intros x _ [Hne _]. by apply Hne.
  - intros p Hp. apply map_lookup_filter_None. right. intros x _ [_ Hu].
    simpl in Hu. congruence.
  - intros p Hne Hu. destruct (files w !! p) as [x|] eqn:Hx.
    + by apply map_lookup_filter_Some.
    + apply map_lookup_filter_None. by left.
Qed.

Lemma exists_path_remove_tree path w : exists_path (remove_tree path w) path = false.
Proof.
  destruct (remove_tree_gone path w) as (Hd & Hf & _). unfold exists_path.
  rewrite bool_decide_eq_false_2 by done. rewrite Hf.
  by rewrite bool_decide_eq_false_2 by (by intros [? ?]).
Qed.

(** C8: releasing a result removes its scratch directory and all
    that is below it, and nothing else; releasing again, releasing
    nil, releasing a result without a scratch location, and
    releasing a location that does not exist all return no error and
    leave the world as it is. *)
Theorem CleanupChunks_release (result : ChunkResult) (w : World) :
  CleanupChunks None w = (Ok (), w)
  ∧ (TempDir result = EmptyString → CleanupChunks (Some result) w = (Ok (), w))
  ∧ (exists_path w (TempDir result) = false →
     CleanupChunks (Some result) w = (Ok (), w))
  ∧ (TempDir result ≠ EmptyString → TempDir result ∈ dirs w →
     remove_fails (faults w) (TempDir result) = false →
     ∃ w1, CleanupChunks (Some result) w = (Ok (), w1)
           ∧ (TempDir result ∉ dirs w1)
           ∧ files w1 !! TempDir result = None
           ∧ (∀ p, under (TempDir result) p = true → files w1 !! p = None)
           ∧ (∀ p, p ≠ TempDir result → under (TempDir result) p = false →
                 files w1 !! p = files w !! p)
           ∧ CleanupChunks (Some result) w1 = (Ok (), w1)).
Proof.
  split; [done|]. split; [|split].
  - intros Hempty. unfold CleanupChunks. by rewrite bool_decide_eq_true_2.
  - intros Hnone. unfold CleanupChunks. destruct (bool_decide _); [done|].
    unfold RemoveAll. by rewrite Hnone.
  - intros Hne Hdir Hrm. unfold CleanupChunks, RemoveAll.
    rewrite bool_decide_eq_false_2 by done.
    assert (exists_path w (TempDir result) = true) as ->.
    { unfold exists_path. by rewrite bool_decide_eq_true_2. }
    rewrite Hrm. simpl. eexists. split; [done|].
    destruct (remove_tree_gone (TempDir result) w) as (Hd & Hf & Hu & Ho).
    repeat (split; [done|]). by rewrite exists_path_remove_tree.
Qed.

Lemma CleanupChunks_release_witness :
  ∃ w1, CleanupChunks
          (Some {| ChunkPaths := ["/tmp/comanda-chunks-0/chunk_0.txt"];
                   TempDir := "/tmp/comanda-chunks-0"; TotalChunks := 1 |})
          (put_file "/tmp/comanda-chunks-0/chunk_0.txt" EmptyString
             (make_dir "/tmp/comanda-chunks-0" (sample_world 0)))
        = (Ok (), w1)
        ∧ files w1 !! "/tmp/comanda-chunks-0/chunk_0.txt" = None
        ∧ files w1 !! "in.txt" = Some EmptyString.
Proof.
  destruct (CleanupChunks_release
              {| ChunkPaths := ["/tmp/comanda-chunks-0/chunk_0.txt"];
                 TempDir := "/tmp/comanda-chunks-0"; TotalChunks := 1 |}
              (put_file "/tmp/comanda-chunks-0/chunk_0.txt" EmptyString
                 (make_dir "/tmp/comanda-chunks-0" (sample_world 0))))
    as (_ & _ & _ & Hrel).
  destruct Hrel as (w1 & Hrun & _ & _ & Hunder & Hother & _);
    [done | apply (bool_decide_unpack _); by vm_compute | done |].
  exists w1. split; [exact Hrun|]. split.
  - by apply Hunder.
  - rewrite Hother by done. by vm_compute.
Defined.

(** C10: when validation has passed and the scratch directory has
    been created, an error of [SplitFile] (the result is then nil)
    comes with the scratch directory removed again, with everything
    below it, provided the removal itself goes through. *)
Theorem SplitFile_error_removes_scratch (fuel : nat) (filePath : string)
    (config config' : ChunkConfig) (w : World) (e : error) (w' : World) :
  int_config config →
  validateConfig config = Ok config' → can_mkdir w →
  let tempDir := temp_name (temp_seq w) in
  remove_fails (faults w) tempDir = false →
  SplitFile fuel filePath config w = (Error e, w') →
  (tempDir ∉ dirs w') ∧ dirs w' = dirs w
  ∧ files w' !! tempDir = None
  ∧ (∀ p, under tempDir p = true → files w' !! p = None)
  ∧ ∃ evs, log w' = log w ++ [EvMkdir tempDir] ++ evs ++ [EvRemoveAll tempDir].
Proof.
  intros Hint Hv Hmk. cbv zeta.
  rewrite (SplitFile_run _ _ _ _ _ Hv Hmk). cbv zeta.
  pose proof (validateConfig_inv _ _ Hv) as (Hby & Hs & ->).
  pose proof (validated_bounds config) as [_ Hm].
  destruct Hmk as [_ Hex]. unfold exists_path in Hex.
  apply orb_false_iff in Hex as [Hex%bool_decide_eq_false_1 _].
  revert Hex. generalize (temp_name (temp_seq w)). intros tempDir Hfresh Hrm.
  destruct (split_for _ _ _ _ _ _) as [[[paths n]|err| |] w1] eqn:Hsplit;
    [discriminate | | discriminate..].
  intros [= <- <-].
  apply split_for_contract in Hsplit as ((ws & Hw & _) & _);
    [|by apply validated_int|done..].
  destruct Hw as (Hd & _ & Hf & Hl & _).
  change (dirs (make_dir tempDir w)) with ({[tempDir]} ∪ dirs w) in Hd.
  change (faults (make_dir tempDir w)) with (faults w) in Hf.
  change (log (make_dir tempDir w)) with (log w ++ [EvMkdir tempDir]) in Hl.
  unfold RemoveAll.
  assert (exists_path w1 tempDir = true) as ->.
  { unfold exists_path. rewrite Hd.
    rewrite bool_decide_eq_true_2; [done|].
    apply elem_of_union_l. by apply elem_of_singleton. }
  rewrite Hf, Hrm. cbn [negb snd].
  destruct (remove_tree_gone tempDir w1) as (Hgone & Hfile & Hunder & _).
  split; [done|]. split; [|split; [done|split; [done|]]].
  - cbn [dirs remove_tree]. rewrite Hd.
    apply set_eq. intros x. rewrite elem_of_difference, elem_of_union, !elem_of_singleton.
    split; [intros [[->|Hx] Hne]; done|]. intros Hx. split; [by right|].
    intros ->. done.
  - exists ((λ pc, EvWrite pc.1 pc.2) <$> ws). cbn [log remove_tree]. rewrite Hl.
    by rewrite <- !app_assoc.
Qed.

Lemma SplitFile_error_removes_scratch_witness :
  let config := {| By := "lines"; Size := 2; Overlap := 0; MaxChunks := 2 |} in
  "/tmp/comanda-chunks-0" ∉ dirs (SplitFile 0 "in.txt" config (sample_world 5)).2.
Proof.
  intros config.
  apply (SplitFile_error_removes_scratch 0 "in.txt" config config (sample_world 5)
           (ErrLimit 3 2) (SplitFile 0 "in.txt" config (sample_world 5)).2).
  - repeat split; by vm_compute.
  - reflexivity.
  - split; by vm_compute.
  - reflexivity.
  - by vm_compute.
Defined.

(** *** Overlap and termination *)

(** Validation looks at the method and at the size and at nothing
    else: a configuration with a valid method and a positive size is
    accepted, whatever its overlap; an overlap of at least the size
    comes back as it went in. *)
Lemma validateConfig_overlap_kept (config : ChunkConfig) :
  (valid_method (ToLower (By config)) → 0 < Size config →
     validateConfig config = Ok (validated config)
     ∧ (Size config ≤ Overlap config →
        Overlap (validated config) = Overlap config
        ∧ Size (validated config) = Size config
        ∧ Size (validated config) ≤ Overlap (validated config)))
  ∧ (¬ valid_method (ToLower (By config)) →
       validateConfig config = Error (ErrInvalidMethod (By config)))
  ∧ (valid_method (ToLower (By config)) → Size config ≤ 0 →
       validateConfig config = Error (ErrChunkSize (Size config))).
Proof.
  split; [|split].
  - intros Hby Hs. split; [by apply validateConfig_Ok|].
    unfold validated. simpl. lia.
  - intros Hby. unfold validateConfig.
    destruct (default false _) eqn:Hm; [|done].
    by apply validMethods_spec in Hm.
  - intros Hby%validMethods_spec Hs. unfold validateConfig. rewrite Hby. simpl.
    by rewrite (proj2 (Z.leb_le _ _)).
Qed.

(** C3: the code does not treat [Overlap >= Size] as a configuration
    error.  On a file of five lines with size 2 and overlap 3,
    validation accepts the configuration with its overlap unchanged;
    [SplitFile] by lines writes [chunk_0.txt], moves its start to
    [0 + 2 - 3 = -1] and panics on the slice [lineBuffer[-1:1]], with
    the scratch directory left behind; by bytes it fails on the seek
    to [-1] after the first chunk; and with overlap 2, equal to the
    size, it succeeds with the first two lines written [MaxChunks]
    times. *)
Theorem SplitFile_overlap_not_checked :
  let config by_ overlap maxChunks :=
    {| By := by_; Size := 2; Overlap := overlap; MaxChunks := maxChunks |} in
  let scratch := "/tmp/comanda-chunks-0" in
  let chunk := "L0" +:+ newline +:+ "L1" in
  validateConfig (config "lines" 3 0) = Ok (config "lines" 3 100)
  ∧ (∃ w', SplitFile 101 "in.txt" (config "lines" 3 0) (sample_world 5) = (Panic, w')
           ∧ scratch ∈ dirs w'
           ∧ writes (log w') = [ (scratch +:+ "/chunk_0.txt", chunk) ])
  ∧ (∃ w', SplitFile 101 "in.txt" (config "bytes" 3 0) (sample_world 5)
           = (Error (ErrSeek (-1)), w')
           ∧ writes (log w') = [ (scratch +:+ "/chunk_0.txt", "L0") ])
  ∧ (∃ w', SplitFile 101 "in.txt" (config "lines" 2 3) (sample_world 5)
           = (Ok {| ChunkPaths := [ scratch +:+ "/chunk_0.txt";
                                    scratch +:+ "/chunk_1.txt";
                                    scratch +:+ "/chunk_2.txt" ];
                    TempDir := scratch; TotalChunks := 3 |}, w')
           ∧ writes (log w')
             = [ (scratch +:+ "/chunk_0.txt", chunk);
                 (scratch +:+ "/chunk_1.txt", chunk);
                 (scratch +:+ "/chunk_2.txt", chunk) ]).
Proof.
  intros config scratch chunk. split; [reflexivity|]. split; [|split].
  - exists (SplitFile 101 "in.txt" (config "lines" 3 0) (sample_world 5)).2.
    split; [by vm_compute|]. split; [|by vm_compute].
    apply (bool_decide_unpack _). by vm_compute.
  - exists (SplitFile 101 "in.txt" (config "bytes" 3 0) (sample_world 5)).2.
    split; by vm_compute.
  - exists (SplitFile 101 "in.txt" (config "lines" 2 3) (sample_world 5)).2.
    split; by vm_compute.
Qed.

Lemma split_contract_returns
    (split : nat → string → string → ChunkConfig → M (list string * Z))
    fuel filePath tempDir config w :
  split_contract split →
  int_config config → 0 < Size config → 0 < MaxChunks config →
  0 ≤ Overlap config ≤ Size config →
  bounded_input w filePath →
  MaxChunks config < Z.of_nat fuel →
  ∃ r w', split fuel filePath tempDir config w = (r, w')
          ∧ returns r
          ∧ emitted (MaxChunks config) w r w'
          ∧ ∀ fuel', MaxChunks config < Z.of_nat fuel' →
              split fuel' filePath tempDir config w = (r, w').
Proof.
  intros Hc Hint Hs Hm Ho Hb Hfuel.
  destruct (split fuel filePath tempDir config w) as [r w'] eqn:Hrun.
  destruct (Hc _ _ _ _ _ _ _ Hint Hs Hm Hrun) as (Hem & Hnf & Hnp & Hmono).
  specialize (Hnf Hfuel). specialize (Hnp Ho Hb).
  exists r, w'. split; [done|]. split; [by destruct r|]. split; [done|].
  intros fuel' Hfuel'.
  destruct (decide (fuel ≤ fuel')%nat) as [Hle|Hgt]; [by apply Hmono|].
  destruct (split fuel' filePath tempDir config w) as [r2 w2] eqn:Hrun2.
  destruct (Hc _ _ _ _ _ _ _ Hint Hs Hm Hrun2) as (_ & Hnf2 & _ & Hmono2).
  rewrite (Hmono2 fuel) in Hrun by (auto; lia). by simplify_eq.
Qed.

(** C9: for a configuration that passed validation, with
    [0 <= Overlap <= Size], and an input of bounded size, each of the
    three split functions, given more fuel than [MaxChunks], comes to
    an end with a value or an error (it neither runs out of fuel nor
    panics), has written at most [MaxChunks] chunk files and nothing
    else, and does the same with any other amount of fuel beyond
    [MaxChunks].  [Overlap = Size] is included. *)
Theorem split_terminates_within_cap
    (split : nat → string → string → ChunkConfig → M (list string * Z))
    (fuel : nat) (filePath tempDir : string) (config0 config : ChunkConfig)
    (w : World) :
  split ∈ [splitByLines; splitByBytes; splitByTokens] →
  int_config config0 → validateConfig config0 = Ok config →
  Overlap config ≤ Size config →
  bounded_input w filePath →
  MaxChunks config < Z.of_nat fuel →
  ∃ r w', split fuel filePath tempDir config w = (r, w')
          ∧ returns r
          ∧ emitted (MaxChunks config) w r w'
          ∧ ∀ fuel', MaxChunks config < Z.of_nat fuel' →
              split fuel' filePath tempDir config w = (r, w').
Proof.
  intros Hsplit Hint Hv Ho Hb Hfuel.
  apply validateConfig_inv in Hv as (_ & Hs & ->).
  pose proof (validated_bounds config0) as [Ho0 Hm].
  apply split_contract_returns; try done; [|by apply validated_int].
  repeat (apply elem_of_cons in Hsplit as [->|Hsplit];
          [auto using splitByLines_contract, splitByBytes_contract,
             splitByTokens_contract|]).
  by apply elem_of_nil in Hsplit.
Qed.

Lemma sample_world_bounded n :
  Z.of_nat (String.length (numbered_lines n)) < unit_bound →
  Z.of_nat (length (ScanLines (numbered_lines n))) < unit_bound →
  Z.of_nat (length (concat (Fields <$> ScanLines (numbered_lines n)))) < unit_bound →
  bounded_input (sample_world n) "in.txt".
Proof.
  intros Hbytes Hlines Htokens data by_. unfold sample_world. simpl.
  rewrite lookup_singleton_eq. intros [= <-].
  unfold unit_count. by repeat case_bool_decide.
Qed.

Lemma split_terminates_within_cap_witness :
  let config := {| By := "lines"; Size := 2; Overlap := 2; MaxChunks := 3 |} in
  ∃ r w', splitByLines 4 "in.txt" "/tmp/scratch" config (sample_world 5) = (r, w')
          ∧ returns r
          ∧ emitted 3 (sample_world 5) r w'.
Proof.
  intros config.
  destruct (split_terminates_within_cap splitByLines 4 "in.txt" "/tmp/scratch"
              config config (sample_world 5))
    as (r & w' & Hrun & Hret & Hem & _).
  - apply list_elem_of_here.
  - repeat split; by vm_compute.
  - reflexivity.
  - by vm_compute.
  - apply sample_world_bounded; by vm_compute.
  - by vm_compute.
  - exists r, w'. split; [exact Hrun|]. split; [exact Hret | exact Hem].
Defined.

(** *** A file of 25 lines *)

(** One iteration of the emission loop that writes its chunk. *)
Lemma emit_loop_step fuel content total tempDir config start idx paths w end_ c :
  (start <? total) = true → (idx >=? MaxChunks config) = false →
  (if add start (Size config) >? total then total else add start (Size config))
  = end_ →
  content start end_ w = (Ok c, w) →
  write_fails (faults w) (path_join tempDir (chunk_name idx)) = false →
  emit_loop (S fuel) content total tempDir config start idx paths w =
  let chunkPath := path_join tempDir (chunk_name idx) in
  if end_ >=? total
  then (Ok (paths ++ [chunkPath], add idx 1), put_file chunkPath c w)
  else emit_loop fuel content total tempDir config
         (add start (sub (Size config) (Overlap config))) (add idx 1)
         (paths ++ [chunkPath]) (put_file chunkPath c w).
Proof.
  intros Hlt Hcap Hend Hc Hw. rewrite emit_loop_S, Hlt, Hcap.
  cbv beta iota zeta delta [negb].
  rewrite Hend. unfold bind at 1. rewrite Hc.
  unfold bind at 1, or_fail, WriteFile. rewrite Hw.
  by destruct (end_ >=? total).
Qed.

Lemma path_join_inj dir name1 name2 :
  path_join dir name1 = path_join dir name2 → name1 = name2.
Proof.
  unfold path_join. intros H.
  apply (inj (String.app dir)) in H. by simplify_eq.
Qed.

(** C1: a file of 25 lines, split by lines with size 10, overlap 2
    and [MaxChunks] left at its zero value, gives three chunks,
    [chunk_0.txt], [chunk_1.txt] and [chunk_2.txt], which hold the
    lines [[0,10)], [[8,18)] and [[16,25)] joined by line feeds, and
    a chunk count of 3. *)
Theorem SplitFile_25_lines (fuel : nat) (filePath : string) (w : World)
    (data : string) :
  can_mkdir w → readable w filePath data →
  length (ScanLines data) = 25%nat →
  (3 ≤ fuel)%nat →
  let config := {| By := "lines"; Size := 10; Overlap := 2; MaxChunks := 0 |} in
  let tempDir := temp_name (temp_seq w) in
  let lines := ScanLines data in
  let p0 := path_join tempDir "chunk_0.txt" in
  let p1 := path_join tempDir "chunk_1.txt" in
  let p2 := path_join tempDir "chunk_2.txt" in
  let c0 := Join (range lines 0 10) newline in
  let c1 := Join (range lines 8 18) newline in
  let c2 := Join (range lines 16 25) newline in
  write_fails (faults w) p0 = false →
  write_fails (faults w) p1 = false →
  write_fails (faults w) p2 = false →
  ∃ w', SplitFile fuel filePath config w
        = (Ok {| ChunkPaths := [p0; p1; p2]; TempDir := tempDir; TotalChunks := 3 |},
           w')
        ∧ files w' !! p0 = Some c0
        ∧ files w' !! p1 = Some c1
        ∧ files w' !! p2 = Some c2
        ∧ writes (log w') = writes (log w) ++ [(p0, c0); (p1, c1); (p2, c2)].
Proof.
  intros Hmk Hread Hlen Hfuel config.
  rewrite (SplitFile_run fuel filePath config (validated config) w eq_refl Hmk).
  cbv zeta. generalize (temp_name (temp_seq w)). intros tempDir Hw0 Hw1 Hw2.
  change (ToLower (By (validated config))) with "lines".
  rewrite (split_for_readable "lines" _ _ _ _ _ data (or_introl eq_refl)
             (readable_make_dir _ _ _ _ Hread))
    by (change (unit_count "lines" data) with (length (ScanLines data));
        rewrite Hlen; done).
  change (unit_count "lines" data) with (length (ScanLines data)).
  change (content_for "lines" filePath data) with (lines_content (ScanLines data)).
  rewrite Hlen. cbv zeta. change (Z.of_nat 25 =? 0) with false. cbv iota.
  unfold bind at 1. rewrite check_limit_eq by done.
  set (w1 := make_dir tempDir w).
  change (wrap (sub (add (Z.of_nat 25) (Size (validated config))) 1
                ÷ Size (validated config))) with 3.
  change (MaxChunks (validated config)) with 100. cbv zeta.
  change (3 >? 100) with false. cbv iota.
  destruct fuel as [|[|[|fuel]]]; [lia..|].
  assert (∀ a b w0, 0 ≤ a ≤ b → b ≤ 25 →
            lines_content (ScanLines data) a b w0
            = (Ok (Join (range (ScanLines data) (Z.to_nat a) (Z.to_nat b)) newline),
               w0)) as Hcontent.
  { intros a b w0 Hab Hb. unfold lines_content, bind.
    by rewrite slice_Ok by (rewrite ?Hlen; lia). }
  erewrite (emit_loop_step _ _ _ _ _ 0 0 _ _ 10);
    [|reflexivity|reflexivity|reflexivity|by apply Hcontent|exact Hw0].
  cbv zeta. change (10 >=? Z.of_nat 25) with false. cbv iota.
  change (add 0 (sub (Size (validated config)) (Overlap (validated config)))) with 8.
  change (add 0 1) with 1.
  erewrite (emit_loop_step _ _ _ _ _ 8 1 _ _ 18);
    [|reflexivity|reflexivity|reflexivity|by apply Hcontent|exact Hw1].
  cbv zeta. change (18 >=? Z.of_nat 25) with false. cbv iota.
  change (add 8 (sub (Size (validated config)) (Overlap (validated config)))) with 16.
  change (add 1 1) with 2.
  erewrite (emit_loop_step _ _ _ _ _ 16 2 _ _ 25);
    [|reflexivity|reflexivity|reflexivity|by apply Hcontent|exact Hw2].
  cbv zeta. change (25 >=? Z.of_nat 25) with true. cbv iota.
  change (add 2 1) with 3.
  change (chunk_name 0) with "chunk_0.txt". change (chunk_name 1) with "chunk_1.txt".
  change (chunk_name 2) with "chunk_2.txt".
  eexists. split; [reflexivity|].
  cbn [files put_file log].
  assert (path_join tempDir "chunk_0.txt" ≠ path_join tempDir "chunk_1.txt") as H01
    by (by intros ?%path_join_inj).
  assert (path_join tempDir "chunk_0.txt" ≠ path_join tempDir "chunk_2.txt") as H02
    by (by intros ?%path_join_inj).
  assert (path_join tempDir "chunk_1.txt" ≠ path_join tempDir "chunk_2.txt") as H12
    by (by intros ?%path_join_inj).
  split; [|split; [|split]].
  - rewrite !lookup_insert_ne by done. apply lookup_insert_eq.
  - rewrite lookup_insert_ne by done. apply lookup_insert_eq.
  - apply lookup_insert_eq.
  - unfold w1. cbn [log make_dir]. rewrite !writes_app. simpl.
    by rewrite app_nil_r, <- !app_assoc.
Qed.

Lemma SplitFile_25_lines_witness :
  ∃ w', SplitFile 101 "in.txt"
          {| By := "lines"; Size := 10; Overlap := 2; MaxChunks := 0 |}
          (sample_world 25)
        = (Ok {| ChunkPaths := [ "/tmp/comanda-chunks-0/chunk_0.txt";
                                 "/tmp/comanda-chunks-0/chunk_1.txt";
                                 "/tmp/comanda-chunks-0/chunk_2.txt" ];
                 TempDir := "/tmp/comanda-chunks-0"; TotalChunks := 3 |}, w')
        ∧ files w' !! "/tmp/comanda-chunks-0/chunk_2.txt"
          = Some (Join ["L16"; "L17"; "L18"; "L19"; "L20"; "L21"; "L22"; "L23"; "L24"]
                    newline).
Proof.
  destruct (SplitFile_25_lines 101 "in.txt" (sample_world 25) (numbered_lines 25))
    as (w' & Hrun & _ & _ & Hc2 & _).
  - split; by vm_compute.
  - repeat split; by vm_compute.
  - by vm_compute.
  - lia.
  - reflexivity.
  - reflexivity.
  - reflexivity.
  - exists w'. split; [exact Hrun | exact Hc2].
Defined.

End ChunkerFacts.


(** * Further properties *)

(** ** Normal forms of queries *)
Section NormalFormFacts.

Lemma lower_ascii_idem c : lower_ascii (lower_ascii c) = lower_ascii c.
Proof. destruct c as [[] [] [] [] [] [] [] []]; reflexivity. Qed.

Lemma isSpace_lower_ascii c : isSpace (lower_ascii c) = isSpace c.
Proof. destruct c as [[] [] [] [] [] [] [] []]; reflexivity. Qed.

Lemma ToLower_idem s : ToLower (ToLower s) = ToLower s.
Proof. induction s as [|c s IH]; simpl; [done|]. by rewrite lower_ascii_idem, IH. Qed.

Lemma ToLower_TrimLeft s : ToLower (TrimLeft s) = TrimLeft (ToLower s).
Proof.
  induction s as [|c s IH]; simpl; [done|].
  rewrite isSpace_lower_ascii. by destruct (isSpace c).
Qed.

Lemma ToLower_TrimRight s : ToLower (TrimRight s) = TrimRight (ToLower s).
Proof.
  induction s as [|c s IH]; simpl; [done|].
  rewrite <- IH, isSpace_lower_ascii.
  destruct (TrimRight s); simpl; [by destruct (isSpace c) | done].
Qed.

Lemma ToLower_TrimSpace s : ToLower (TrimSpace s) = TrimSpace (ToLower s).
Proof. unfold TrimSpace. by rewrite ToLower_TrimRight, ToLower_TrimLeft. Qed.

Lemma TrimRight_idem s : TrimRight (TrimRight s) = TrimRight s.
Proof.
  induction s as [|c s IH]; simpl; [done|].
  destruct (TrimRight s) as [|d t] eqn:Ht.
  - destruct (isSpace c) eqn:Hc; simpl; [done|]. by rewrite Hc.
  - simpl in *. by rewrite IH.
Qed.

Lemma TrimLeft_TrimRight_TrimLeft s :
  TrimLeft (TrimRight (TrimLeft s)) = TrimRight (TrimLeft s).
Proof.
  induction s as [|c s IH]; simpl; [done|].
  destruct (isSpace c) eqn:Hc; [exact IH|]. simpl.
  destruct (TrimRight s); rewrite ?Hc; simpl; by rewrite ?Hc.
Qed.

Lemma TrimSpace_idem s : TrimSpace (TrimSpace s) = TrimSpace s.
Proof.
  unfold TrimSpace. by rewrite TrimLeft_TrimRight_TrimLeft, TrimRight_idem.
Qed.

(** The normal form of a query is in normal form. *)
Lemma normalized_normal_form s : normalized (TrimSpace (ToLower s)).
Proof.
  split.
  - by rewrite ToLower_TrimSpace, ToLower_idem.
  - apply TrimSpace_idem.
Qed.

End NormalFormFacts.

(** ** More on the model registry *)
Section RegistryMore.

Lemma GetModels_RegisterModels r p ms q :
  GetModels (RegisterModels r p ms) q
  = if decide (q = p) then GetModels r q ++ ms else GetModels r q.
Proof.
  unfold GetModels, RegisterModels, index. simpl. case_decide as Hq.
  - subst. by rewrite lookup_insert_eq.
  - by rewrite lookup_insert_ne.
Qed.

Lemma GetFamilies_RegisterFamilies r p fs q :
  GetFamilies (RegisterFamilies r p fs) q
  = if decide (q = p) then GetFamilies r q ++ fs else GetFamilies r q.
Proof.
  unfold GetFamilies, RegisterFamilies, index. simpl. case_decide as Hq.
  - subst. by rewrite lookup_insert_eq.
  - by rewrite lookup_insert_ne.
Qed.

(** X1: registration appends to the list of the provider it names,
    keeping what was there and its order, and changes no other list:
    not that of another provider, and not the list of the other kind
    (names against family prefixes). *)
Theorem Register_lookup (r : ModelRegistry) (p q : string) (entries : list string) :
  GetModels (RegisterModels r p entries) q
  = (if decide (q = p) then GetModels r q ++ entries else GetModels r q)
  ∧ GetFamilies (RegisterModels r p entries) q = GetFamilies r q
  ∧ GetFamilies (RegisterFamilies r p entries) q
    = (if decide (q = p) then GetFamilies r q ++ entries else GetFamilies r q)
  ∧ GetModels (RegisterFamilies r p entries) q = GetModels r q.
Proof.
  split; [apply GetModels_RegisterModels|]. split; [done|].
  split; [apply GetFamilies_RegisterFamilies|done].
Qed.

(** Validation depends on the registry only through which names and
    which prefixes are registered. *)
Lemma ValidateModel_ext r1 r2 p s :
  (∀ x, x ∈ GetModels r1 p ↔ x ∈ GetModels r2 p) →
  (∀ x, x ∈ GetFamilies r1 p ↔ x ∈ GetFamilies r2 p) →
  ValidateModel r1 p s = ValidateModel r2 p s.
Proof.
  intros Hm Hf. apply eq_true_iff_eq. rewrite !ValidateModel_true_iff.
  split; (intros [Hin | (f & Hin & Hpre)]; [left | right; exists f; split; [|done]]);
    by (apply Hm || apply Hf).
Qed.

(** X2: registration only ever adds to what validates: a query that
    validates for a provider still does after any registration of
    names or prefixes, and a registration for one provider leaves the
    validation for every other provider exactly as it was. *)
Theorem ValidateModel_registration_grows (r : ModelRegistry) (p q s : string)
    (entries : list string) :
  (ValidateModel r q s = true →
     ValidateModel (RegisterModels r p entries) q s = true
     ∧ ValidateModel (RegisterFamilies r p entries) q s = true)
  ∧ (q ≠ p →
     ValidateModel (RegisterModels r p entries) q s = ValidateModel r q s
     ∧ ValidateModel (RegisterFamilies r p entries) q s = ValidateModel r q s).
Proof.
  split.
  - rewrite !ValidateModel_true_iff.
    rewrite GetModels_RegisterModels, GetFamilies_RegisterFamilies.
    intros [Hin | (f & Hin & Hpre)]; split;
      try (left; case_decide; [apply elem_of_app; by left | done]);
      try (by left); try (right; exists f; split; [|done]);
      try done; case_decide; [apply elem_of_app; by left | done].
  - intros Hne. split; apply ValidateModel_ext; intros x;
      rewrite ?GetModels_RegisterModels, ?GetFamilies_RegisterFamilies;
      try done; by case_decide.
Qed.

Lemma ValidateModel_registration_grows_witness :
  ValidateModel (RegisterModels NewModelRegistry "openai" ["gpt-5"])
    "anthropic" "Claude-Opus-4-20250514" = true
  ∧ ValidateModel (RegisterFamilies NewModelRegistry "openai" ["gpt-"])
      "xai" "gpt-4o" = ValidateModel NewModelRegistry "xai" "gpt-4o".
Proof.
  destruct (ValidateModel_registration_grows NewModelRegistry "openai" "anthropic"
              "Claude-Opus-4-20250514" ["gpt-5"]) as [Hgrow _].
  destruct (ValidateModel_registration_grows NewModelRegistry "openai" "xai"
              "gpt-4o" ["gpt-"]) as [_ Hother].
  split.
  - apply Hgrow. by vm_compute.
  - apply Hother. done.
Defined.


(** X4: the normal form of a query validates exactly as the query
    does: lowercasing and trimming a second time changes nothing. *)
Theorem ValidateModel_normal_form (r : ModelRegistry) (p s : string) :
  ValidateModel r p (TrimSpace (ToLower s)) = ValidateModel r p s.
Proof.
  unfold ValidateModel. destruct (normalized_normal_form s) as [Hl Ht].
  by rewrite Hl, Ht.
Qed.

(** X5: the provider key is looked up as it is given: in the seeded
    registry every provider name other than the six seeded ones, among
    them [ollama] and any other spelling of a seeded one, validates no
    model name at all. *)
Theorem ValidateModel_unknown_provider (p s : string) :
  p ∉ ["anthropic"; "openai"; "xai"; "deepseek"; "google"; "moonshot"] →
  ValidateModel NewModelRegistry p s = false.
Proof.
  intros Hp.
  assert (dom (models NewModelRegistry)
          = list_to_set ["anthropic"; "openai"; "xai"; "deepseek"; "google"; "moonshot"])
    as Hm by (apply (bool_decide_unpack _); by vm_compute).
  assert (dom (families NewModelRegistry) ⊆ dom (models NewModelRegistry))
    as Hf by (apply (bool_decide_unpack _); by vm_compute).
  assert (p ∉ dom (models NewModelRegistry)) as Hpm.
  { rewrite Hm. by rewrite elem_of_list_to_set. }
  assert (p ∉ dom (families NewModelRegistry)) as Hpf by (intros ?; by apply Hpm, Hf).
  apply not_elem_of_dom in Hpm, Hpf.
  unfold ValidateModel, index. by rewrite Hpm, Hpf.
Qed.

Lemma ValidateModel_unknown_provider_witness :
  ValidateModel NewModelRegistry "OpenAI" "gpt-4o" = false
  ∧ ValidateModel NewModelRegistry "ollama" "llama3" = false.
Proof.
  split; apply ValidateModel_unknown_provider;
    apply (bool_decide_unpack _); by vm_compute.
Defined.

Lemma elem_of_foldl_app (l : list (string * list string)) (acc : list string) x :
  x ∈ foldl (λ allModels kv, allModels ++ kv.2) acc l
  ↔ x ∈ acc ∨ ∃ kv, kv ∈ l ∧ x ∈ kv.2.
Proof.
  revert acc. induction l as [|kv l IH]; intros acc; simpl.
  - split; [by left|]. intros [H | (kv & Hkv & _)]; [done|]. by apply elem_of_nil in Hkv.
  - rewrite IH, elem_of_app. split.
    + intros [[H|H] | (kv' & Hkv & Hx)]; [by left | |].
      * right. exists kv. split; [apply list_elem_of_here | done].
      * right. exists kv'. split; [by apply list_elem_of_further | done].
    + intros [H | (kv' & Hkv & Hx)]; [by left; left|].
      apply elem_of_cons in Hkv as [-> | Hkv]; [by left; right|].
      right. by exists kv'.
Qed.

(** X6: the flat list of all names holds exactly the names that are
    registered for some provider, in whatever order the map is ranged
    over. *)
Theorem GetAllModelsList_elem (r : ModelRegistry) (name : string) :
  name ∈ GetAllModelsList r ↔ ∃ provider, name ∈ GetModels r provider.
Proof.
  unfold GetAllModelsList, GetModels, index. rewrite elem_of_foldl_app. split.
  - intros [H | ([p ms] & Hkv & Hx)]; [by apply elem_of_nil in H|].
    apply elem_of_map_to_list in Hkv. exists p. by rewrite Hkv.
  - intros (p & Hx). right.
    destruct (models r !! p) as [ms|] eqn:Hp; [|by apply elem_of_nil in Hx].
    exists (p, ms). split; [by apply elem_of_map_to_list | done].
Qed.

End RegistryMore.

(** ** The seeded registry is unambiguous *)
Section SeedFacts.

Lemma HasPrefix_two n f1 f2 :
  HasPrefix n f1 = true → HasPrefix n f2 = true →
  HasPrefix f1 f2 = true ∨ HasPrefix f2 f1 = true.
Proof.
  revert f1 f2. induction n as [|c n IH]; intros [|a f1] [|b f2]; simpl; auto.
  - discriminate.
  - intros [Ha H1]%andb_true_iff [Hb H2]%andb_true_iff.
    apply bool_decide_eq_true_1 in Ha, Hb. subst.
    rewrite bool_decide_eq_true_2 by done. simpl. by apply IH.
Qed.

Lemma elem_of_index (m : gmap string (list string)) p x :
  x ∈ index m p ↔ ∃ l, m !! p = Some l ∧ x ∈ l.
Proof.
  unfold index. destruct (m !! p) as [l|]; simpl.
  - split; [eauto|]. by intros (l' & [= <-] & Hx).
  - split; [by intros ?%elem_of_nil | by intros (l' & ? & _)].
Qed.

(** A registry in which the entries of different providers do not
    clash validates every query for at most one provider. *)
Lemma ValidateModel_unambiguous r p q s :
  map_Forall (λ p1 ns, map_Forall (λ p2 ms,
      p1 = p2 ∨ Forall (λ n, n ∉ ms) ns) (models r)) (models r) →
  map_Forall (λ p1 ns, map_Forall (λ p2 fs,
      p1 = p2 ∨ Forall (λ n, Forall (λ f, HasPrefix n f = false) fs) ns)
      (families r)) (models r) →
  map_Forall (λ p1 fs1, map_Forall (λ p2 fs2,
      p1 = p2 ∨ Forall (λ f1, Forall (λ f2,
         HasPrefix f1 f2 = false ∧ HasPrefix f2 f1 = false) fs2) fs1)
      (families r)) (families r) →
  p ≠ q →
  ValidateModel r p s = true → ValidateModel r q s = false.
Proof.
  intros Hnn Hnf Hff Hne Hp. apply not_true_is_false. intros Hq.
  apply ValidateModel_true_iff in Hp, Hq. unfold GetModels, GetFamilies in *.
  set (n := TrimSpace (ToLower s)) in *.
  destruct Hp as [(ns & Hns & Hn)%elem_of_index | (f1 & (fs1 & Hfs1 & Hf1)%elem_of_index & Hpre1)];
    destruct Hq as [(ms & Hms & Hm)%elem_of_index | (f2 & (fs2 & Hfs2 & Hf2)%elem_of_index & Hpre2)].
  - destruct (Hnn _ _ Hns _ _ Hms) as [|Hall]; [done|].
    rewrite Forall_forall in Hall. by apply (Hall n).
  - destruct (Hnf _ _ Hns _ _ Hfs2) as [|Hall]; [done|].
    rewrite Forall_forall in Hall. specialize (Hall n Hn).
    rewrite Forall_forall in Hall. rewrite (Hall f2 Hf2) in Hpre2. done.
  - destruct (Hnf _ _ Hms _ _ Hfs1) as [|Hall]; [done|].
    rewrite Forall_forall in Hall. specialize (Hall n Hm).
    rewrite Forall_forall in Hall. rewrite (Hall f1 Hf1) in Hpre1. done.
  - destruct (Hff _ _ Hfs1 _ _ Hfs2) as [|Hall]; [done|].
    rewrite Forall_forall in Hall. specialize (Hall f1 Hf1).
    rewrite Forall_forall in Hall. destruct (Hall f2 Hf2) as [H12 H21].
    destruct (HasPrefix_two n f1 f2 Hpre1 Hpre2); congruence.
Qed.

(** X7: in the seeded registry no model name validates for two
    providers: whatever the query, at most one of the six seeded
    providers accepts it. *)
Theorem NewModelRegistry_unambiguous (p q s : string) :
  p ≠ q →
  ValidateModel NewModelRegistry p s = true →
  ValidateModel NewModelRegistry q s = false.
Proof.
  apply ValidateModel_unambiguous; apply (bool_decide_unpack _); by vm_compute.
Qed.

Lemma NewModelRegistry_unambiguous_witness :
  ValidateModel NewModelRegistry "openai" " Gemini-2.5-Flash-Exp" = false.
Proof.
  apply (NewModelRegistry_unambiguous "google"); [done | by vm_compute].
Defined.

End SeedFacts.

(** ** More on the provider resolver *)
Section ResolverMore.
Variable json_Unmarshal : string → option OllamaTagsResponse.

Lemma SplitByte_head s sep :
  ∃ w ws, SplitByte s sep = w :: ws
          ∧ (ContainsByte s sep = true → ∃ rest, s = w +:+ String sep rest).
Proof.
  induction s as [|c s (w & ws & Hs & Hrest)]; simpl.
  - exists EmptyString, []. by split.
  - case_bool_decide as Hc; simpl.
    + subst. exists EmptyString, (SplitByte s sep). split; [done|].
      intros _. by exists s.
    + rewrite Hs. exists (String c w), ws. split; [done|].
      intros Hcont. destruct (Hrest Hcont) as [rest ->]. by exists rest.
Qed.

Lemma drop_bytes_app q r : drop_bytes (String.length q) (q +:+ r) = r.
Proof. induction q as [|c q IH]; [by destruct r | exact IH]. Qed.

(** When does a local model answer to a requested name? *)
Lemma tag_matches_iff q model :
  tag_matches q model = true ↔
  let full := ToLower (TagName model) in
  full = q ∨ (∃ rest, full = q +:+ ":" +:+ rest) ∨ (∃ rest, full = q +:+ "." +:+ rest).
Proof.
  cbv zeta. unfold tag_matches. set (full := ToLower (TagName model)).
  case_bool_decide as Heq; [by split; [left|]|].
  destruct (SplitByte_head full ":"%char) as (w & ws & Hsplit & Hrest).
  rewrite Hsplit. change (default EmptyString (head (w :: ws))) with w.
  destruct (ContainsByte full ":" && bool_decide (w = q)) eqn:Hsecond.
  { split; [|done]. intros _. apply andb_true_iff in Hsecond as [Hc Hw].
    apply bool_decide_eq_true_1 in Hw as <-.
    destruct (Hrest Hc) as [rest ->]. right. left. by exists rest. }
  destruct (HasPrefix full q) eqn:Hpre.
  - apply HasPrefix_spec in Hpre as [r Hr]. rewrite Hr, drop_bytes_app.
    rewrite orb_true_iff, !HasPrefix_spec. split.
    + intros [[rest ->] | [rest ->]]; [right; left | right; right]; by exists rest.
    + intros [Hq | [[rest Hrst] | [rest Hrst]]].
      * by rewrite Hr in Heq.
      * left. exists rest. by apply (inj (String.app q)) in Hrst.
      * right. exists rest. by apply (inj (String.app q)) in Hrst.
  - split; [done|]. intros [Hq | [[rest Hrst] | [rest Hrst]]]; [done| |].
    + rewrite Hrst, HasPrefix_app in Hpre. done.
    + rewrite Hrst, HasPrefix_app in Hpre. done.
Qed.

(** X8: for a response with status 200 whose payload decodes, the
    probe answers [true] exactly when some listed model, in lower
    case, is the requested name in lower case, or that name followed
    by a colon or a dot and anything; so [llama3] answers to
    [llama3.2:latest] and [llama] does not answer to [llama3:latest]. *)
Theorem isModelAvailableLocally_iff (body : string) (tags : OllamaTagsResponse)
    (modelName : string) :
  json_Unmarshal body = Some tags →
  isModelAvailableLocally json_Unmarshal (Response 200 (Some body)) modelName = true
  ↔ ∃ model, model ∈ Models tags
      ∧ (ToLower (TagName model) = ToLower modelName
         ∨ (∃ rest, ToLower (TagName model) = ToLower modelName +:+ ":" +:+ rest)
         ∨ (∃ rest, ToLower (TagName model) = ToLower modelName +:+ "." +:+ rest)).
Proof.
  intros Hjson. simpl. rewrite Hjson, existsb_elem_of.
  split; intros (model & Hin & Hm); exists model; (split; [done|]);
    by apply tag_matches_iff.
Qed.

(** X9: resolution never returns a hosted capability that does not
    support the name: its value is the local capability, or a hosted
    one whose support predicate holds; and when the local capability
    does not support the name the probe has no say in the outcome. *)
Theorem defaultDetectProvider_supports (B : Backends) (resp : HttpResult)
    (modelName : string) :
  (defaultDetectProvider json_Unmarshal B resp modelName = NewOllamaProvider B
   ∨ (defaultDetectProvider json_Unmarshal B resp modelName ∈ providers B
      ∧ SupportsModel (defaultDetectProvider json_Unmarshal B resp modelName)
          modelName = true))
  ∧ (SupportsModel (NewOllamaProvider B) modelName = false →
     ∀ resp', defaultDetectProvider json_Unmarshal B resp' modelName
              = defaultDetectProvider json_Unmarshal B resp modelName).
Proof.
  split.
  - unfold defaultDetectProvider. destruct (_ && _); [by left|].
    destruct (first_supporting _ _) as [p|] eqn:Hp; [right | by left].
    split; [by apply first_supporting_elem in Hp|].
    clear -Hp. induction (providers B) as [|q ps IH]; simpl in Hp; [done|].
    destruct (SupportsModel q modelName) eqn:Hq; [by simplify_eq | auto].
  - intros Hno resp'. unfold defaultDetectProvider. by rewrite Hno.
Qed.

End ResolverMore.

Lemma isModelAvailableLocally_iff_witness :
  isModelAvailableLocally sample_Unmarshal (Response 200 (Some tags_body)) "GPT-OSS"
  = true.
Proof.
  apply (isModelAvailableLocally_iff sample_Unmarshal tags_body
           {| Models := [ {| TagName := "gpt-oss:latest" |} ] |}); [reflexivity|].
  exists {| TagName := "gpt-oss:latest" |}. split; [apply list_elem_of_here|].
  right. left. by exists "latest".
Defined.

Lemma defaultDetectProvider_supports_witness :
  let B := registry_backends NewModelRegistry in
  defaultDetectProvider sample_Unmarshal B (Response 200 (Some tags_body)) "gpt-4o"
  = defaultDetectProvider sample_Unmarshal B TransportError "gpt-4o".
Proof.
  intros B.
  destruct (defaultDetectProvider_supports sample_Unmarshal B TransportError "gpt-4o")
    as [_ Hprobe].
  apply Hprobe. by vm_compute.
Defined.

(** ** The chunks that are written *)
Section PlanFacts.
Local Open Scope chunker_scope.

Lemma string_app_assoc a b c : (a +:+ b) +:+ c = a +:+ b +:+ c.
Proof. induction a as [|x a IH]; [done|]. rewrite !string_app_cons. by rewrite IH. Qed.

Lemma string_app_nil_r a : a +:+ EmptyString = a.
Proof. induction a as [|x a IH]; [done|]. rewrite string_app_cons. by rewrite IH. Qed.

Lemma under_path_join dir name : under dir (path_join dir name) = true.
Proof. unfold under, path_join. rewrite <- string_app_assoc. apply HasPrefix_app. Qed.

(** The emission loop writes the chunk files of the plan. *)
Lemma emit_loop_plan fuel content text total tempDir config w :
  int_config config → 0 < Size config → 0 ≤ Overlap config ≤ Size config →
  0 ≤ total < unit_bound →
  writable_below w tempDir →
  (∀ a b w0, faults w0 = faults w → 0 ≤ a ≤ b → b ≤ total →
             content a b w0 = (Ok (text a b), w0)) →
  ∀ start idx paths w0,
    faults w0 = faults w →
    0 ≤ start → (start = 0 ∨ Size config < total) →
    0 ≤ idx ≤ MaxChunks config →
    MaxChunks config - idx < Z.of_nat fuel →
    let pl := plan fuel total (Size config) (Overlap config) (MaxChunks config)
                start idx in
    ∃ w', emit_loop fuel content total tempDir config start idx paths w0
          = (Ok (paths ++ (chunk_files tempDir text idx pl).*1,
                 idx + Z.of_nat (length pl)), w')
          ∧ wrote w0 w' (chunk_files tempDir text idx pl).
Proof.
  intros Hint Hs Ho Ht Hwr Hcontent. pose proof Hint as (HiS & HiO & HiM).
  induction fuel as [|fuel IH]; intros start idx paths w0 Hf Hst Hinv Hidx Hfuel.
  { lia. }
  cbv zeta. rewrite emit_loop_S. simpl plan.
  destruct (Z.ltb_spec start total) as [Hlt|]; simpl.
  2:{ eexists. rewrite app_nil_r, Z.add_0_r. split; [done | apply wrote_refl]. }
  destruct (Z.ltb_spec idx (MaxChunks config)) as [Hcap|Hcap].
  2:{ rewrite (proj2 (Z.geb_le _ _)) by lia. simpl.
      eexists. rewrite app_nil_r, Z.add_0_r. split; [done | apply wrote_refl]. }
  rewrite Z.geb_leb, (proj2 (Z.leb_gt _ _)) by lia.
  destruct (loop_end_bounds config total start) as [Hend Hnext]; [done..|lia|done|].
  cbv zeta in Hend, Hnext. rewrite Hend in *.
  set (end_ := Z.min (start + Size config) total) in *.
  unfold bind at 1. rewrite Hcontent by (done || lia).
  unfold bind at 1, or_fail, WriteFile.
  rewrite Hf, (Hwr _ (under_path_join _ _)).
  assert (add idx 1 = idx + 1) as ->.
  { apply wrap_id. unfold in_int, int_min, int_max in *. lia. }
  destruct (Z.ltb_spec end_ total) as [Hgo|Hstop].
  - rewrite Z.geb_leb, (proj2 (Z.leb_gt _ _)) by lia.
    destruct (Hnext Hgo) as [Hsz ->].
    destruct (IH (start + Size config - Overlap config) (idx + 1)
                (paths ++ [path_join tempDir (chunk_name idx)])
                (put_file (path_join tempDir (chunk_name idx)) (text start end_) w0))
      as (w' & Hrun & Hw); [done | lia | by right | lia | lia |].
    cbv zeta in Hrun. exists w'. rewrite Hrun. split.
    + simpl. rewrite <- app_assoc. simpl. do 3 f_equal. lia.
    + simpl. eapply (wrote_trans _ _ _ [_]); [apply wrote_put | done].
  - rewrite (proj2 (Z.geb_le _ _)) by lia. eexists. split; [|simpl; apply wrote_put].
    reflexivity.
Qed.

End PlanFacts.

(** ** The pre-check and the content of a chunk, on exact inputs *)
Section ExactFacts.
Local Open Scope chunker_scope.

Lemma wrap_over z : int_max < z ≤ int_max + 2 ^ 64 → wrap z = z - 2 ^ 64.
Proof.
  unfold int_max, wrap. intros Hz.
  rewrite <- (Z.mod_unique (z + 2 ^ 63) (2 ^ 64) 1 (z + 2 ^ 63 - 2 ^ 64)); lia.
Qed.

(** A chunk size that holds the whole input passes the pre-check,
    also where the addition wraps around. *)
Lemma check_limit_count_small total size :
  0 < total < unit_bound → in_int size → total ≤ size →
  wrap (sub (add total size) 1 ÷ size) ≤ 1.
Proof.
  unfold unit_bound, in_int, int_min, int_max. intros Ht Hi Hle.
  destruct (decide (total + size ≤ 2 ^ 63 - 1)) as [Hfit|Hover].
  - unfold add, sub.
    rewrite (wrap_id (total + size)) by (unfold in_int, int_min, int_max; lia).
    rewrite (wrap_id (total + size - 1)) by (unfold in_int, int_min, int_max; lia).
    rewrite Z.quot_div_nonneg by lia.
    assert (0 ≤ (total + size - 1) `div` size < 2) as Hq.
    { split; [apply Z.div_pos; lia | apply Z.div_lt_upper_bound; lia]. }
    rewrite wrap_id by (unfold in_int, int_min, int_max; lia). lia.
  - unfold add. rewrite (wrap_over (total + size)) by (unfold int_max; lia).
    destruct (decide (total + size = 2 ^ 63)) as [Heq|Hne].
    + unfold sub. replace (total + size - 2 ^ 64 - 1) with (- 2 ^ 63 - 1) by lia.
      change (wrap (- 2 ^ 63 - 1)) with (2 ^ 63 - 1).
      rewrite Z.quot_div_nonneg by lia.
      assert (0 ≤ (2 ^ 63 - 1) `div` size < 2) as Hq.
      { split; [apply Z.div_pos; lia | apply Z.div_lt_upper_bound; lia]. }
      rewrite wrap_id by (unfold in_int, int_min, int_max; lia). lia.
    + unfold sub.
      rewrite (wrap_id (total + size - 2 ^ 64 - 1))
        by (unfold in_int, int_min, int_max; lia).
      set (a := 2 ^ 64 + 1 - total - size).
      replace (total + size - 2 ^ 64 - 1) with (- a) by (unfold a; lia).
      assert (0 < a ≤ 2 ^ 63) as Ha by (unfold a; lia).
      rewrite Z.quot_opp_l by lia. rewrite Z.quot_div_nonneg by lia.
      assert (0 ≤ a `div` size ≤ a) as Hq.
      { split; [apply Z.div_pos; lia|]. apply Z.div_le_upper_bound; nia. }
      rewrite wrap_id by (unfold in_int, int_min, int_max; lia). lia.
Qed.

Lemma check_limit_pass total config w :
  int_config config → 0 < Size config → 0 < MaxChunks config →
  0 < total < unit_bound →
  ceil_div total (Size config) ≤ MaxChunks config →
  check_limit total config w = (Ok (), w).
Proof.
  intros (HiS & _ & _) Hs Hm Ht Hceil. rewrite check_limit_eq by done. cbv zeta.
  destruct (decide (Size config < total)) as [Hlt|Hge].
  - rewrite check_limit_count by done.
    by rewrite Z.gtb_ltb, (proj2 (Z.ltb_ge _ _)) by lia.
  - pose proof (check_limit_count_small total (Size config) Ht HiS ltac:(lia)).
    by rewrite Z.gtb_ltb, (proj2 (Z.ltb_ge _ _)) by lia.
Qed.

Lemma substring_length a n s :
  (a + n ≤ String.length s)%nat → String.length (String.substring a n s) = n.
Proof.
  revert a n. induction s as [|c s IH]; intros [|a] [|n]; simpl; try lia.
  - intros H. rewrite IH; lia.
  - intros H. apply IH. lia.
  - intros H. apply IH. lia.
Qed.

(** Within the input, and with reads that go through, the content
    function of every mode yields the text of the range. *)
Lemma content_for_text by_ filePath data w :
  valid_method by_ → (by_ = "bytes" → reads_ok w filePath) →
  Z.of_nat (unit_count by_ data) < unit_bound →
  ∀ a b w0, faults w0 = faults w → 0 ≤ a ≤ b → b ≤ Z.of_nat (unit_count by_ data) →
            content_for by_ filePath data a b w0 = (Ok (chunk_text by_ data a b), w0).
Proof.
  intros Hby Hrd Hbound a b w0 Hf Hab Hb. destruct Hby as [-> | [-> | ->]].
  - change (content_for "lines" filePath data) with (lines_content (ScanLines data)).
    change (unit_count "lines" data) with (length (ScanLines data)) in *.
    unfold lines_content, bind. by rewrite slice_Ok.
  - change (content_for "bytes" filePath data) with (bytes_content filePath data).
    change (unit_count "bytes" data) with (String.length data) in *.
    change (chunk_text "bytes" data a b)
      with (String.substring (Z.to_nat a) (Z.to_nat (b - a)) data).
    unfold bytes_content, bind, or_fail, Seek, ReadFull.
    assert (sub b a = b - a) as ->.
    { apply wrap_id. unfold unit_bound, in_int, int_min, int_max in *. lia. }
    rewrite (proj2 (Z.ltb_ge _ _)), (proj2 (Z.ltb_ge _ _)) by lia.
    rewrite Hf, (Hrd eq_refl). rewrite substring_length by lia.
    rewrite Nat.sub_diag. simpl. by rewrite string_app_nil_r.
  - change (content_for "tokens" filePath data)
      with (tokens_content (concat (Fields <$> ScanLines data))).
    change (unit_count "tokens" data)
      with (length (concat (Fields <$> ScanLines data))) in *.
    unfold tokens_content, bind. by rewrite slice_Ok.
Qed.

(** A run of [SplitFile] without faults, on an input that passes the
    pre-check: the chunks of the plan are written. *)
Lemma SplitFile_plan_run fuel filePath config config' w data :
  int_config config → validateConfig config = Ok config' →
  Overlap config' ≤ Size config' →
  can_mkdir w → readable w filePath data →
  (ToLower (By config) = "bytes" → reads_ok w filePath) →
  0 < Z.of_nat (unit_count (ToLower (By config)) data) < unit_bound →
  ceil_div (Z.of_nat (unit_count (ToLower (By config)) data)) (Size config')
  ≤ MaxChunks config' →
  writable_below w (temp_name (temp_seq w)) →
  MaxChunks config' < Z.of_nat fuel →
  ∃ w', SplitFile fuel filePath config w
        = (Ok {| ChunkPaths :=
                   (chunk_files (temp_name (temp_seq w))
                      (chunk_text (ToLower (By config)) data) 0
                      (plan fuel (Z.of_nat (unit_count (ToLower (By config)) data))
                         (Size config') (Overlap config') (MaxChunks config') 0 0)).*1;
                 TempDir := temp_name (temp_seq w);
                 TotalChunks :=
                   Z.of_nat (length
                      (plan fuel (Z.of_nat (unit_count (ToLower (By config)) data))
                         (Size config') (Overlap config') (MaxChunks config') 0 0)) |},
           w')
        ∧ wrote (make_dir (temp_name (temp_seq w)) w) w'
            (chunk_files (temp_name (temp_seq w))
               (chunk_text (ToLower (By config)) data) 0
               (plan fuel (Z.of_nat (unit_count (ToLower (By config)) data))
                  (Size config') (Overlap config') (MaxChunks config') 0 0)).
Proof.
  intros Hint Hv Ho Hmk Hread Hrd Ht Hceil Hwr Hfuel.
  rewrite (SplitFile_run _ _ _ _ _ Hv Hmk). cbv zeta.
  pose proof (validateConfig_inv _ _ Hv) as (Hby & Hs & ->).
  pose proof (validated_int _ Hint) as Hint'.
  pose proof (validated_bounds config) as [Ho0 Hm].
  change (By (validated config)) with (By config).
  rewrite (split_for_readable _ _ _ _ _ _ data Hby (readable_make_dir _ _ _ _ Hread))
    by lia.
  cbv zeta. rewrite (proj2 (Z.eqb_neq _ _)) by lia.
  unfold bind at 1. rewrite check_limit_pass by done.
  set (by_ := ToLower (By config)) in *.
  set (total := Z.of_nat (unit_count by_ data)) in *.
  set (tempDir := temp_name (temp_seq w)) in *.
  destruct (emit_loop_plan fuel (content_for by_ filePath data) (chunk_text by_ data)
              total tempDir (validated config) (make_dir tempDir w) Hint' Hs
              (conj Ho0 Ho) ltac:(lia) Hwr
              (content_for_text by_ filePath data (make_dir tempDir w) Hby Hrd
                 ltac:(fold total; lia))
              0 0 [] (make_dir tempDir w) eq_refl ltac:(lia) (or_introl eq_refl)
              ltac:(lia) ltac:(lia))
    as (w' & Hrun & Hw).
  cbv zeta in Hrun. rewrite Hrun. exists w'. split; [|done]. simpl. by rewrite Z.add_0_l.
Qed.

(** X10: for a configuration that passed validation, with
    [0 <= Overlap <= Size], a readable input of a positive number of
    units that passes the pre-check, and an environment without
    faults, [SplitFile] in any mode succeeds and writes exactly the
    chunks of the plan: [chunk_0.txt], [chunk_1.txt], ... in the
    scratch directory, chunk [i] holding the units from
    [i * (Size - Overlap)] up to [Size] further or the end of the
    input, and its chunk count is their number. *)
Theorem SplitFile_writes_plan (fuel : nat) (filePath : string)
    (config config' : ChunkConfig) (w : World) (data : string) :
  int_config config → validateConfig config = Ok config' →
  Overlap config' ≤ Size config' →
  can_mkdir w → readable w filePath data → reads_ok w filePath →
  let by_ := ToLower (By config) in
  let total := Z.of_nat (unit_count by_ data) in
  let tempDir := temp_name (temp_seq w) in
  0 < total < unit_bound →
  ceil_div total (Size config') ≤ MaxChunks config' →
  writable_below w tempDir →
  MaxChunks config' < Z.of_nat fuel →
  let pl := plan fuel total (Size config') (Overlap config') (MaxChunks config') 0 0 in
  let chunks := chunk_files tempDir (chunk_text by_ data) 0 pl in
  ∃ w', SplitFile fuel filePath config w
        = (Ok {| ChunkPaths := chunks.*1; TempDir := tempDir;
                 TotalChunks := Z.of_nat (length pl) |}, w')
        ∧ wrote (make_dir tempDir w) w' chunks.
Proof.
  intros Hint Hv Ho Hmk Hread Hrd. cbv zeta. intros Ht Hceil Hwr Hfuel.
  by apply SplitFile_plan_run.
Qed.

End ExactFacts.

(** ** Chunk names *)
Section NameFacts.

Lemma list_ascii_of_string_app a b :
  String.list_ascii_of_string (a +:+ b)
  = String.list_ascii_of_string a ++ String.list_ascii_of_string b.
Proof. induction a as [|c a IH]; [done|]. rewrite string_app_cons. simpl. by rewrite IH. Qed.

Lemma string_app_inj_r a b t : a +:+ t = b +:+ t → a = b.
Proof.
  intros H. apply (f_equal String.list_ascii_of_string) in H.
  rewrite !list_ascii_of_string_app in H. apply app_inv_tail in H.
  apply (f_equal String.string_of_list_ascii) in H.
  by rewrite !String.string_of_list_ascii_of_string in H.
Qed.

Lemma chunk_name_inj i j : chunk_name i = chunk_name j → i = j.
Proof.
  unfold chunk_name. intros H. apply (inj (String.app "chunk_")) in H.
  apply string_app_inj_r in H. by apply (inj pretty) in H.
Qed.

Lemma chunk_files_fst tempDir text idx pl :
  (chunk_files tempDir text idx pl).*1
  = (λ i, path_join tempDir (chunk_name i)) <$> seqZ idx (Z.of_nat (length pl)).
Proof.
  revert idx. induction pl as [|[a b] pl IH]; intros idx; [done|].
  simpl chunk_files. rewrite fmap_cons, IH.
  rewrite (seqZ_cons idx) by (simpl; lia). rewrite fmap_cons. simpl fst.
  do 3 f_equal; simpl; lia.
Qed.

Lemma chunk_paths_NoDup tempDir idx n :
  NoDup ((λ i, path_join tempDir (chunk_name i)) <$> seqZ idx n).
Proof.
  apply NoDup_fmap_2; [|apply NoDup_seqZ].
  intros i j H. by apply path_join_inj, chunk_name_inj in H.
Qed.

(** Files written under distinct names can all be read back. *)
Lemma wrote_read_back w w' ws :
  wrote w w' ws → NoDup ws.*1 →
  Forall (λ pc, files w' !! pc.1 = Some pc.2) ws.
Proof.
  intros (_ & _ & _ & _ & ->). generalize (files w). clear.
  induction ws as [|[p c] ws IH] using rev_ind; intros m Hnd; [done|].
  rewrite fmap_app in Hnd. apply NoDup_app in Hnd as (Hnd & Hdisj & _).
  rewrite foldl_app. simpl. apply Forall_app. split.
  - specialize (IH m Hnd). rewrite Forall_forall in IH. apply Forall_forall.
    intros [p' c'] Hin. simpl. rewrite lookup_insert_ne; [by apply (IH (p', c'))|].
    intros <-. apply (Hdisj p); [|simpl; apply list_elem_of_here].
    apply list_elem_of_fmap. by exists (p, c').
  - apply Forall_singleton. simpl. apply lookup_insert_eq.
Qed.

(** A file that is not among those written is as it was. *)
Lemma wrote_other w w' ws p :
  wrote w w' ws → p ∉ ws.*1 → files w' !! p = files w !! p.
Proof.
  intros (_ & _ & _ & _ & ->). generalize (files w).
  induction ws as [|[q c] ws IH]; intros m Hp; [done|].
  simpl in *. apply not_elem_of_cons in Hp as [Hne Hp].
  rewrite IH by done. by rewrite lookup_insert_ne.
Qed.

End NameFacts.

(** ** Chunks without overlap *)
Section PartitionFacts.

Lemma ceil_div_small a s : 0 < a ≤ s → ceil_div a s = 1.
Proof.
  intros Ha. rewrite ceil_div_add by lia. symmetry.
  apply (Z.div_unique _ _ _ (a - 1)); lia.
Qed.

Lemma ceil_div_sub x s : 0 < s → ceil_div (x - s) s = ceil_div x s - 1.
Proof.
  intros Hs. rewrite !ceil_div_add by done.
  replace (x - s + s - 1) with (x + s - 1 + (- 1) * s) by lia.
  rewrite Z.div_add by lia. lia.
Qed.

Lemma ceil_div_nonneg a s : 0 ≤ a → 0 < s → 0 ≤ ceil_div a s.
Proof. intros Ha Hs. rewrite ceil_div_add by done. apply Z.div_pos; lia. Qed.

Lemma range_drop {A} (l : list A) (a b : nat) :
  (a ≤ b)%nat → range l a b ++ drop b l = drop a l.
Proof.
  intros Hab. unfold range. replace b with (a + (b - a))%nat at 2 by lia.
  rewrite <- drop_drop. apply take_drop.
Qed.

Lemma range_to_end {A} (l : list A) (a : nat) : range l a (length l) = drop a l.
Proof. unfold range. apply take_ge. rewrite length_drop. lia. Qed.

Lemma range_length {A} (l : list A) (a b : nat) :
  (a ≤ b)%nat → (b ≤ length l)%nat → length (range l a b) = (b - a)%nat.
Proof. intros Hab Hb. unfold range. rewrite length_take, length_drop. lia. Qed.

(** With no overlap, and the cap out of the way, the plan cuts the
    units from [start] on into consecutive pieces of [size] units, the
    last one possibly shorter, [ceil] of them. *)
Lemma plan_partition {A} (l : list A) fuel size maxChunks :
  0 < size →
  ∀ start idx,
    0 ≤ start ≤ Z.of_nat (length l) → 0 ≤ idx →
    idx + ceil_div (Z.of_nat (length l) - start) size ≤ maxChunks →
    maxChunks - idx < Z.of_nat fuel →
    let pl := plan fuel (Z.of_nat (length l)) size 0 maxChunks start idx in
    concat ((λ ab, range l (Z.to_nat ab.1) (Z.to_nat ab.2)) <$> pl)
    = drop (Z.to_nat start) l
    ∧ Z.of_nat (length pl) = ceil_div (Z.of_nat (length l) - start) size
    ∧ Forall (λ ab, 0 ≤ ab.1 < ab.2 ∧ ab.2 ≤ Z.of_nat (length l) ∧ ab.2 - ab.1 ≤ size) pl.
Proof.
  intros Hs. set (total := Z.of_nat (length l)).
  induction fuel as [|fuel IH]; intros start idx Hst Hidx Hcap Hfuel.
  { pose proof (ceil_div_nonneg (total - start) size ltac:(lia) Hs). lia. }
  cbv zeta. simpl plan.
  destruct (Z.ltb_spec start total) as [Hlt|Hge]; simpl.
  2:{ assert (start = total) as -> by lia. rewrite Z.sub_diag.
      split; [|done]. unfold total. rewrite Nat2Z.id. symmetry. apply drop_all. }
  pose proof (ceil_div_pos (total - start) size ltac:(lia) Hs) as Hpos.
  rewrite (proj2 (Z.ltb_lt _ _)) by lia.
  destruct (Z.ltb_spec (Z.min (start + size) total) total) as [Hgo|Hstop].
  - rewrite Z.min_l in * by lia. rewrite Z.sub_0_r.
    destruct (IH (start + size) (idx + 1)) as (Hcat & Hlen & Hall); [lia | lia | | lia |].
    { replace (total - (start + size)) with (total - start - size) by lia.
      rewrite ceil_div_sub by done. lia. }
    cbv zeta in Hcat, Hlen, Hall. split; [|split].
    + rewrite fmap_cons. simpl concat. rewrite Hcat. simpl.
      apply range_drop. lia.
    + simpl length. rewrite Nat2Z.inj_succ, Hlen.
      replace (total - (start + size)) with (total - start - size) by lia.
      rewrite ceil_div_sub by done. lia.
    + apply Forall_cons. split; [simpl; lia | done].
  - assert (total ≤ start + size) as Hlast by lia.
    rewrite Z.min_r in * by lia. split; [|split].
    + simpl. rewrite app_nil_r. unfold total. rewrite Nat2Z.id. apply range_to_end.
    + simpl. symmetry. apply ceil_div_small. lia.
    + apply Forall_singleton. simpl. lia.
Qed.

Lemma Join_cons x rest sep :
  rest ≠ [] → Join (x :: rest) sep = x +:+ sep +:+ Join rest sep.
Proof. by destruct rest. Qed.

Lemma Join_app a b sep :
  a ≠ [] → b ≠ [] → Join (a ++ b) sep = Join a sep +:+ sep +:+ Join b sep.
Proof.
  intros Ha Hb. induction a as [|x a IH]; [done|].
  destruct a as [|y a].
  - simpl app. by rewrite Join_cons.
  - rewrite <- app_comm_cons, Join_cons by done.
    rewrite IH by done. rewrite (Join_cons x (y :: a)) by done.
    by rewrite !string_app_assoc.
Qed.

(** Joining the joined pieces is joining all the units. *)
Lemma Join_concat (pieces : list (list string)) sep :
  Forall (λ piece, piece ≠ []) pieces →
  Join ((λ piece, Join piece sep) <$> pieces) sep = Join (concat pieces) sep.
Proof.
  induction pieces as [|x ps IH]; intros Hne; [done|].
  apply Forall_cons in Hne as [Hx Hps]. destruct ps as [|y ps].
  - simpl. by rewrite app_nil_r.
  - rewrite fmap_cons. rewrite Join_cons by (by rewrite fmap_cons). rewrite IH by done.
    change (concat (x :: y :: ps)) with (x ++ concat (y :: ps)).
    rewrite (Join_app x (concat (y :: ps))); [done | done |].
    apply Forall_cons in Hps as [Hy _]. simpl. by destruct y.
Qed.

Lemma string_of_list_ascii_app a b :
  String.string_of_list_ascii (a ++ b)
  = String.string_of_list_ascii a +:+ String.string_of_list_ascii b.
Proof. induction a as [|c a IH]; [done|]. simpl. by rewrite IH. Qed.

Lemma substring_list a n s :
  String.substring a n s
  = String.string_of_list_ascii (take n (drop a (String.list_ascii_of_string s))).
Proof.
  revert a n. induction s as [|c s IH]; intros [|a] [|n]; simpl; rewrite ?IH; done.
Qed.

Lemma list_ascii_of_string_length s :
  length (String.list_ascii_of_string s) = String.length s.
Proof. induction s as [|c s IH]; simpl; [done|]. by rewrite IH. Qed.

Lemma concat_strings_of_lists (pieces : list (list ascii)) :
  concat_strings (String.string_of_list_ascii <$> pieces)
  = String.string_of_list_ascii (concat pieces).
Proof.
  induction pieces as [|x ps IH]; [done|].
  rewrite fmap_cons. change (concat (x :: ps)) with (x ++ concat ps).
  rewrite string_of_list_ascii_app, <- IH. done.
Qed.

Lemma string_of_list_ascii_length (l : list ascii) :
  String.length (String.string_of_list_ascii l) = length l.
Proof. induction l as [|c l IH]; simpl; [done|]. by rewrite IH. Qed.

End PartitionFacts.

(** ** Round trips *)
Section RoundTripFacts.

Lemma chunk_files_snd tempDir text idx pl :
  (chunk_files tempDir text idx pl).*2 = (λ ab, text ab.1 ab.2) <$> pl.
Proof.
  revert idx. induction pl as [|[a b] pl IH]; intros idx; [done|].
  simpl chunk_files. rewrite !fmap_cons, IH. done.
Qed.

Lemma Forall_Forall2_pairs {A B} (P : A → B → Prop) (l : list (A * B)) :
  Forall (λ pc, P pc.1 pc.2) l → Forall2 P l.*1 l.*2.
Proof. induction 1; constructor; done. Qed.

(** The chunk files of a plan, read back after the run. *)
Lemma chunk_files_read_back w w' tempDir text pl :
  wrote w w' (chunk_files tempDir text 0 pl) →
  Forall2 (λ path ab, files w' !! path = Some (text ab.1 ab.2))
    (chunk_files tempDir text 0 pl).*1 pl.
Proof.
  intros Hw. apply wrote_read_back in Hw;
    [|rewrite chunk_files_fst; apply chunk_paths_NoDup].
  apply (Forall_Forall2_pairs (λ p c, files w' !! p = Some c)) in Hw.
  rewrite chunk_files_snd in Hw.
  by apply Forall2_fmap_r in Hw.
Qed.

Lemma unit_count_units by_ data :
  valid_method by_ → by_ ≠ "bytes" → unit_count by_ data = length (units by_ data).
Proof. intros [-> | [-> | ->]] Hne; done. Qed.

Lemma chunk_text_units by_ data a b :
  by_ ≠ "bytes" →
  chunk_text by_ data a b
  = Join (range (units by_ data) (Z.to_nat a) (Z.to_nat b)) (separator by_).
Proof. intros Hne. unfold chunk_text. by rewrite bool_decide_eq_false_2. Qed.

(** X11: split by lines or by tokens without overlap, an input that
    passes the pre-check is cut into consecutive pieces that together
    are all its units, in order: each chunk file holds one piece of
    at least one and at most [Size] units, joined by the separator of
    the mode; there are [ceil(total / Size)] chunks; and joining the
    chunk texts by the separator gives the joined units back. *)
Theorem SplitFile_partitions_units (fuel : nat) (filePath : string)
    (config config' : ChunkConfig) (w : World) (data : string) :
  int_config config → validateConfig config = Ok config' →
  Overlap config' = 0 →
  can_mkdir w → readable w filePath data →
  let by_ := ToLower (By config) in
  let total := Z.of_nat (length (units by_ data)) in
  by_ ≠ "bytes" →
  0 < total < unit_bound →
  ceil_div total (Size config') ≤ MaxChunks config' →
  writable_below w (temp_name (temp_seq w)) →
  MaxChunks config' < Z.of_nat fuel →
  ∃ res w' pieces,
    SplitFile fuel filePath config w = (Ok res, w')
    ∧ TotalChunks res = ceil_div total (Size config')
    ∧ concat pieces = units by_ data
    ∧ Forall (λ piece, 0 < Z.of_nat (length piece) ≤ Size config') pieces
    ∧ Forall2 (λ path piece, files w' !! path = Some (Join piece (separator by_)))
        (ChunkPaths res) pieces
    ∧ Join ((λ piece, Join piece (separator by_)) <$> pieces) (separator by_)
      = Join (units by_ data) (separator by_).
Proof.
  intros Hint Hv Ho Hmk Hread. cbv zeta. intros Hby Ht Hceil Hwr Hfuel.
  pose proof (validateConfig_inv _ _ Hv) as (Hvalid & Hs & Hc).
  pose proof (unit_count_units _ data Hvalid Hby) as Hcount.
  assert (0 < Size config') as Hs' by (subst config'; done).
  destruct (SplitFile_plan_run fuel filePath config config' w data Hint Hv
              ltac:(lia) Hmk Hread ltac:(done)
              ltac:(rewrite Hcount; lia) ltac:(rewrite Hcount; lia) Hwr Hfuel)
    as (w' & Hrun & Hw).
  rewrite Hcount, Ho in Hrun, Hw.
  set (by_ := ToLower (By config)) in *. set (l := units by_ data) in *.
  set (pl := plan _ _ _ _ _ _ _) in *.
  destruct (plan_partition l fuel (Size config') (MaxChunks config')) with
    (start := 0) (idx := 0) as (Hcat & Hlen & Hall);
    [done | lia | lia | rewrite Z.sub_0_r; lia | lia |].
  cbv zeta in Hcat, Hlen, Hall. fold pl in Hcat, Hlen, Hall.
  rewrite Z.sub_0_r in Hlen.
  eexists _, w', ((λ ab, range l (Z.to_nat ab.1) (Z.to_nat ab.2)) <$> pl).
  split; [exact Hrun|]. simpl. split; [done|]. split; [done|].
  assert (Forall (λ piece : list string, 0 < Z.of_nat (length piece) ≤ Size config')
            ((λ ab, range l (Z.to_nat ab.1) (Z.to_nat ab.2)) <$> pl)) as Hpieces.
  { apply Forall_fmap. eapply Forall_impl; [exact Hall|].
    intros [a b] (Ha & Hb & Hsz). simpl in *. rewrite range_length by lia. lia. }
  split; [done|]. split.
  - apply Forall2_fmap_r. apply chunk_files_read_back in Hw.
    eapply Forall2_impl; [exact Hw|]. intros path [a b] Hfile. simpl in *.
    rewrite Hfile. f_equal. by apply chunk_text_units.
  - rewrite Join_concat, Hcat; [done|].
    eapply Forall_impl; [exact Hpieces|]. intros piece Hp. simpl in Hp.
    destruct piece; [simpl in Hp; lia | done].
Qed.

(** X12: split by bytes without overlap, an input that passes the
    pre-check is cut into consecutive pieces whose concatenation is
    the input, byte for byte: each chunk file holds one piece of at
    least one and at most [Size] bytes, and there are
    [ceil(total / Size)] chunks. *)
Theorem SplitFile_partitions_bytes (fuel : nat) (filePath : string)
    (config config' : ChunkConfig) (w : World) (data : string) :
  int_config config → validateConfig config = Ok config' →
  Overlap config' = 0 →
  can_mkdir w → readable w filePath data → reads_ok w filePath →
  ToLower (By config) = "bytes" →
  let total := Z.of_nat (String.length data) in
  0 < total < unit_bound →
  ceil_div total (Size config') ≤ MaxChunks config' →
  writable_below w (temp_name (temp_seq w)) →
  MaxChunks config' < Z.of_nat fuel →
  ∃ res w' pieces,
    SplitFile fuel filePath config w = (Ok res, w')
    ∧ TotalChunks res = ceil_div total (Size config')
    ∧ concat_strings pieces = data
    ∧ Forall (λ piece, 0 < Z.of_nat (String.length piece) ≤ Size config') pieces
    ∧ Forall2 (λ path piece, files w' !! path = Some piece) (ChunkPaths res) pieces.
Proof.
  intros Hint Hv Ho Hmk Hread Hrd Hby. cbv zeta. intros Ht Hceil Hwr Hfuel.
  pose proof (validateConfig_inv _ _ Hv) as (Hvalid & Hs & Hc).
  assert (0 < Size config') as Hs' by (subst config'; done).
  destruct (SplitFile_plan_run fuel filePath config config' w data Hint Hv
              ltac:(lia) Hmk Hread ltac:(done)
              ltac:(rewrite Hby; exact Ht) ltac:(rewrite Hby; exact Hceil) Hwr Hfuel)
    as (w' & Hrun & Hw).
  rewrite Hby, Ho in Hrun, Hw.
  change (unit_count "bytes" data) with (String.length data) in *.
  set (l := String.list_ascii_of_string data).
  assert (String.length data = length l) as Hl
    by (unfold l; by rewrite list_ascii_of_string_length).
  rewrite Hl in *. set (pl := plan _ _ _ _ _ _ _) in *.
  destruct (plan_partition l fuel (Size config') (MaxChunks config')) with
    (start := 0) (idx := 0) as (Hcat & Hlen & Hall);
    [done | lia | lia | rewrite Z.sub_0_r; lia | lia |].
  cbv zeta in Hcat, Hlen, Hall. fold pl in Hcat, Hlen, Hall.
  rewrite Z.sub_0_r in Hlen.
  assert (∀ ab, 0 ≤ ab.1 < ab.2 →
            chunk_text "bytes" data ab.1 ab.2
            = String.string_of_list_ascii (range l (Z.to_nat ab.1) (Z.to_nat ab.2)))
    as Htext.
  { intros [a b] Hab. simpl in *.
    change (chunk_text "bytes" data a b)
      with (String.substring (Z.to_nat a) (Z.to_nat (b - a)) data).
    rewrite substring_list. unfold range. by rewrite Z2Nat.inj_sub by lia. }
  eexists _, w',
    (String.string_of_list_ascii
       <$> ((λ ab, range l (Z.to_nat ab.1) (Z.to_nat ab.2)) <$> pl)).
  split; [exact Hrun|]. simpl. split; [done|]. split; [|split].
  - rewrite concat_strings_of_lists, Hcat. simpl.
    apply String.string_of_list_ascii_of_string.
  - rewrite <- list_fmap_compose. apply Forall_fmap.
    eapply Forall_impl; [exact Hall|].
    intros [a b] (Ha & Hb & Hsz). simpl in *.
    rewrite string_of_list_ascii_length, range_length by lia. lia.
  - rewrite <- list_fmap_compose. apply Forall2_fmap_r.
    apply chunk_files_read_back in Hw.
    apply Forall2_same_length_lookup. split; [by eapply Forall2_length|].
    intros i path ab Hpath Hab.
    pose proof (Forall2_lookup_lr _ _ _ _ _ _ Hw Hpath Hab) as Hfile.
    simpl in *. rewrite Hfile. f_equal. apply Htext.
    rewrite Forall_forall in Hall. apply (Hall ab).
    by eapply list_elem_of_lookup_2.
Qed.

End RoundTripFacts.

(** ** What a successful split leaves behind *)
Section SuccessFacts.
Local Open Scope chunker_scope.

(** The names the emission loop gives its chunks. *)
Lemma emit_loop_names fuel content total tempDir config :
  in_int (MaxChunks config) →
  ∀ start idx paths w paths' n w',
    0 ≤ idx ≤ MaxChunks config →
    emit_loop fuel content total tempDir config start idx paths w
    = (Ok (paths', n), w') →
    idx ≤ n ≤ MaxChunks config
    ∧ (start < total → idx < MaxChunks config → idx < n)
    ∧ paths' = paths ++ ((λ i, path_join tempDir (chunk_name i)) <$> seqZ idx (n - idx)).
Proof.
  intros Hmax. induction fuel as [|fuel IH]; intros start idx paths w paths' n w' Hidx.
  { intros [=]. }
  rewrite emit_loop_S.
  destruct (Z.ltb_spec start total) as [Hlt|Hge]; simpl.
  2:{ intros [= <- <- <-]. rewrite Z.sub_diag. simpl. rewrite app_nil_r.
      split; [lia|]. split; [lia|done]. }
  destruct (Z.geb_spec idx (MaxChunks config)) as [Hcap|Hcap].
  { intros [= <- <- <-]. rewrite Z.sub_diag. simpl. rewrite app_nil_r.
    split; [lia|]. split; [lia|done]. }
  unfold bind at 1. destruct (content _ _ w) as [[c|e| |] w1]; [|intros [=]..].
  unfold bind at 1.
  destruct ((_ orelse _) w1) as [[[]|e| |] w2]; [|intros [=]..].
  assert (add idx 1 = idx + 1) as ->.
  { apply wrap_id. unfold in_int, int_min, int_max in *. lia. }
  destruct (_ >=? total).
  - intros [= <- <- <-]. replace (idx + 1 - idx) with 1 by lia.
    split; [lia|]. split; [lia|done].
  - intros Hloop. apply IH in Hloop as (Hn & _ & ->); [|lia].
    split; [lia|]. split; [lia|].
    rewrite <- app_assoc. f_equal. rewrite (seqZ_cons idx) by lia.
    simpl. do 3 f_equal; lia.
Qed.

Lemma split_tail_names fuel content total tempDir config w paths n w' :
  in_int (MaxChunks config) → 0 < Size config → 0 < MaxChunks config →
  (if total =? 0 then empty_chunk tempDir
   else let* _ := check_limit total config in
        emit_loop fuel content total tempDir config 0 0 []) w = (Ok (paths, n), w') →
  0 ≤ n ≤ MaxChunks config
  ∧ (0 ≤ total → 1 ≤ n)
  ∧ paths = (λ i, path_join tempDir (chunk_name i)) <$> seqZ 0 n.
Proof.
  intros Hint Hs Hm. destruct (Z.eqb_spec total 0) as [Hz|Hnz].
  - unfold empty_chunk, bind, or_fail.
    destruct (WriteFile_cases (path_join tempDir "chunk_0.txt") "" w) as [[_ ->]|[_ ->]];
      [intros [=]|].
    intros [= <- <- <-]. split; [lia|]. split; [lia|done].
  - unfold bind at 1. rewrite check_limit_eq by done. cbv zeta.
    destruct (_ >? _); [intros [=]|].
    intros Hloop. apply emit_loop_names in Hloop as (Hn & Hfirst & ->); [|done|lia].
    rewrite Z.sub_0_r. split; [lia|]. split; [|done]. intros Ht.
    assert (0 < n); [apply Hfirst; lia | lia].
Qed.

(** On success every split function returns the names
    [chunk_0.txt], [chunk_1.txt], ... of the scratch directory. *)
Lemma split_for_names by_ fuel filePath tempDir config w paths n w' :
  in_int (MaxChunks config) → 0 < Size config → 0 < MaxChunks config →
  split_for by_ fuel filePath tempDir config w = (Ok (paths, n), w') →
  0 ≤ n ≤ MaxChunks config
  ∧ (bounded_input w filePath → 1 ≤ n)
  ∧ paths = (λ i, path_join tempDir (chunk_name i)) <$> seqZ 0 n.
Proof.
  intros Hint Hs Hm. unfold split_for.
  destruct (Open_cases filePath w) as [Hopen | (data & Hdata & Hopen)].
  { repeat case_bool_decide;
      unfold splitByLines, splitByBytes, splitByTokens;
      rewrite (bind_or_fail_Error _ _ _ _ _ _ Hopen); intros [=]. }
  destruct (scan_cases filePath data w) as [Hscan | Hscan];
    destruct (Stat_cases filePath data w) as [Hstat | Hstat];
    repeat case_bool_decide;
    unfold splitByLines, splitByBytes, splitByTokens;
    rewrite (bind_or_fail_Ok _ _ _ _ _ _ Hopen);
    rewrite ?(bind_or_fail_Error _ _ _ _ _ _ Hscan),
            ?(bind_or_fail_Error _ _ _ _ _ _ Hstat),
            ?(bind_or_fail_Ok _ _ _ _ _ _ Hscan),
            ?(bind_or_fail_Ok _ _ _ _ _ _ Hstat);
    try (intros [=]; fail); cbv zeta; intros Hrun;
    apply split_tail_names in Hrun as (Hn & Hpos & Hpaths); try done;
    (split; [done|]; split; [|done]); intros Hb; apply Hpos.
  all: try (unfold len; apply Z.le_trans with 0; [done|];
            pose proof (Hb data "lines" Hdata) as Hl;
            pose proof (Hb data "tokens" Hdata) as Htk;
            change (unit_count "lines" data) with (length (ScanLines data)) in Hl;
            change (unit_count "tokens" data)
              with (length (concat (Fields <$> ScanLines data))) in Htk;
            rewrite wrap_id by (unfold unit_bound, in_int, int_min, int_max in *; lia);
            lia).
  all: pose proof (Hb data "bytes" Hdata) as Hbytes;
    change (unit_count "bytes" data) with (String.length data) in Hbytes;
    rewrite wrap_id by (unfold unit_bound, in_int, int_min, int_max in *; lia); lia.
Qed.

Lemma temp_name_nonempty n : temp_name n ≠ EmptyString.
Proof. unfold temp_name. by intros [H _]%string_app_nil_inv. Qed.

(** What a successful [SplitFile] went through. *)
Lemma SplitFile_Ok_inv fuel filePath config w res w' :
  SplitFile fuel filePath config w = (Ok res, w') →
  validateConfig config = Ok (validated config) ∧ can_mkdir w
  ∧ ∃ paths n,
      split_for (ToLower (By config)) fuel filePath (temp_name (temp_seq w))
        (validated config) (make_dir (temp_name (temp_seq w)) w)
      = (Ok (paths, n), w')
      ∧ res = {| ChunkPaths := paths; TempDir := temp_name (temp_seq w);
                 TotalChunks := n |}.
Proof.
  intros Hrun.
  assert (validateConfig config = Ok (validated config)) as Hv.
  { unfold SplitFile in Hrun.
    destruct (validateConfig config) as [c|e| |] eqn:Hv; [|done..].
    by apply validateConfig_inv in Hv as (_ & _ & ->). }
  assert (can_mkdir w) as Hmk.
  { unfold SplitFile in Hrun. rewrite Hv in Hrun.
    unfold or_fail, MkdirTemp in Hrun. cbv zeta in Hrun. unfold can_mkdir.
    destruct (mkdir_fails (faults w)); [done|].
    destruct (exists_path w (temp_name (temp_seq w))); [done|]. done. }
  split; [done|]. split; [done|].
  rewrite (SplitFile_run _ _ _ _ _ Hv Hmk) in Hrun. cbv zeta in Hrun.
  change (By (validated config)) with (By config) in Hrun.
  destruct (split_for _ _ _ _ _ _) as [[[paths n]|e| |] w1]; [|done..].
  exists paths, n. by simplify_eq.
Qed.

(** X13: whenever [SplitFile] succeeds, its chunk paths are
    [chunk_0.txt], [chunk_1.txt], ... up to the chunk count, in that
    order, in the scratch directory it created; they are pairwise
    different; the count is at most the validated [MaxChunks], and at
    least 1 for an input of bounded size. *)
Theorem SplitFile_paths_numbered (fuel : nat) (filePath : string)
    (config : ChunkConfig) (w : World) (res : ChunkResult) (w' : World) :
  int_config config →
  SplitFile fuel filePath config w = (Ok res, w') →
  TempDir res = temp_name (temp_seq w)
  ∧ ChunkPaths res
    = (λ i, path_join (TempDir res) (chunk_name i)) <$> seqZ 0 (TotalChunks res)
  ∧ NoDup (ChunkPaths res)
  ∧ 0 ≤ TotalChunks res ≤ MaxChunks (validated config)
  ∧ (bounded_input w filePath → 1 ≤ TotalChunks res).
Proof.
  intros Hint (Hv & Hmk & paths & n & Hsplit & ->)%SplitFile_Ok_inv.
  apply validateConfig_inv in Hv as (_ & Hs & _).
  pose proof (validated_int _ Hint) as (_ & _ & HiM).
  pose proof (validated_bounds config) as [_ Hm].
  apply split_for_names in Hsplit as (Hn & Hpos & ->); [|done..].
  simpl. split; [done|]. split; [done|]. split; [apply chunk_paths_NoDup|].
  split; [done|]. exact Hpos.
Qed.

(** X14: a successful [SplitFile] adds the scratch directory, which
    was not there before, and files below it, and changes nothing
    else: every file that is not below the scratch directory, the
    input among them, is as it was, and so are the other directories. *)
Theorem SplitFile_success_frame (fuel : nat) (filePath : string)
    (config : ChunkConfig) (w : World) (res : ChunkResult) (w' : World) :
  int_config config →
  SplitFile fuel filePath config w = (Ok res, w') →
  (TempDir res ∉ dirs w)
  ∧ dirs w' = {[TempDir res]} ∪ dirs w
  ∧ (∀ p, under (TempDir res) p = false → files w' !! p = files w !! p)
  ∧ (∀ p, p ∈ ChunkPaths res → under (TempDir res) p = true ∧ is_Some (files w' !! p)).
Proof.
  intros Hint (Hv & Hmk & paths & n & Hsplit & ->)%SplitFile_Ok_inv.
  apply validateConfig_inv in Hv as (_ & Hs & _).
  pose proof (validated_int _ Hint) as Hint'. pose proof Hint' as (_ & _ & HiM).
  pose proof (validated_bounds config) as [_ Hm].
  pose proof (split_for_names _ _ _ _ _ _ _ _ _ HiM Hs Hm Hsplit) as (_ & _ & Hpaths).
  apply split_for_contract in Hsplit as ((ws & Hw & _ & Hok) & _); [|done..].
  destruct (Hok _ _ eq_refl) as [_ Hws].
  assert (∀ p, p ∈ paths → under (temp_name (temp_seq w)) p = true) as Hunder.
  { intros p Hp. rewrite Hpaths in Hp.
    apply list_elem_of_fmap in Hp as (i & -> & _). apply under_path_join. }
  simpl. split; [|split; [|split]].
  - destruct Hmk as [_ Hex]. unfold exists_path in Hex.
    by apply orb_false_iff in Hex as [Hex%bool_decide_eq_false_1 _].
  - by destruct Hw as (-> & _).
  - intros p Hp. rewrite (wrote_other _ _ _ p Hw); [done|].
    rewrite <- Hws. intros Hin. apply Hunder in Hin. congruence.
  - intros p Hp. split; [by apply Hunder|].
    pose proof (wrote_read_back _ _ _ Hw) as Hread.
    rewrite <- Hws, Hpaths in Hread. specialize (Hread (chunk_paths_NoDup _ _ _)).
    rewrite Hws in Hp. apply list_elem_of_fmap in Hp as ([q c] & -> & Hin).
    rewrite Forall_forall in Hread. by rewrite (Hread _ Hin).
Qed.

(** X15: a successful [SplitFile] followed by [CleanupChunks] on its
    result leaves the directories as they were before the split, no
    file below the scratch directory, and every other file as it was,
    provided the removal goes through. *)
Theorem SplitFile_then_CleanupChunks (fuel : nat) (filePath : string)
    (config : ChunkConfig) (w : World) (res : ChunkResult) (w' : World) :
  int_config config →
  SplitFile fuel filePath config w = (Ok res, w') →
  remove_fails (faults w) (TempDir res) = false →
  ∃ w'', CleanupChunks (Some res) w' = (Ok (), w'')
         ∧ dirs w'' = dirs w
         ∧ (∀ p, under (TempDir res) p = true → files w'' !! p = None)
         ∧ (∀ p, under (TempDir res) p = false → p ≠ TempDir res →
               files w'' !! p = files w !! p).
Proof.
  intros Hint (Hv & Hmk & paths & n & Hsplit & ->)%SplitFile_Ok_inv.
  apply validateConfig_inv in Hv as (_ & Hs & _).
  pose proof (validated_int _ Hint) as Hint'. pose proof Hint' as (_ & _ & HiM).
  pose proof (validated_bounds config) as [_ Hm].
  pose proof (split_for_names _ _ _ _ _ _ _ _ _ HiM Hs Hm Hsplit) as (_ & _ & Hpaths).
  apply split_for_contract in Hsplit as ((ws & Hw & _ & Hok) & _); [|done..].
  destruct (Hok _ _ eq_refl) as [_ Hws].
  simpl. set (tempDir := temp_name (temp_seq w)) in *. intros Hrm.
  assert (tempDir ∉ dirs w) as Hfresh.
  { destruct Hmk as [_ Hex]. unfold exists_path in Hex.
    by apply orb_false_iff in Hex as [Hex%bool_decide_eq_false_1 _]. }
  pose proof Hw as (Hd & _ & Hf & _).
  unfold RemoveAll.
  assert (exists_path w' tempDir = true) as ->.
  { unfold exists_path. rewrite Hd. rewrite bool_decide_eq_true_2; [done|].
    apply elem_of_union_l. by apply elem_of_singleton. }
  rewrite Hf. change (faults (make_dir tempDir w)) with (faults w). rewrite Hrm.
  cbn [negb]. eexists. split; [done|].
  destruct (remove_tree_gone tempDir w') as (_ & _ & Hunder & Hother).
  split; [|split; [done|]].
  - cbn [dirs remove_tree]. rewrite Hd. cbn [dirs make_dir].
    apply set_eq. intros x. rewrite elem_of_difference, elem_of_union, !elem_of_singleton.
    split; [intros [[->|Hx] Hne]; done|]. intros Hx. split; [by right|].
    intros ->. done.
  - intros p Hu Hne. rewrite Hother by done.
    rewrite (wrote_other _ _ _ p Hw); [done|].
    rewrite <- Hws, Hpaths. intros (i & -> & _)%list_elem_of_fmap.
    by rewrite under_path_join in Hu.
Qed.

End SuccessFacts.

(** ** Edges: overlap beyond the size, a missing input, validation *)
Section EdgeFacts.
Local Open Scope chunker_scope.

Lemma ceil_div_ge_2 a s : 0 < s → s < a → 2 ≤ ceil_div a s.
Proof.
  intros Hs Ha. rewrite ceil_div_add by done. apply Z.div_le_lower_bound; lia.
Qed.

Lemma content_for_negative by_ filePath data a b w :
  valid_method by_ → by_ ≠ "bytes" → a < 0 →
  content_for by_ filePath data a b w = (Panic, w).
Proof.
  intros [-> | [-> | ->]] Hne Ha; [|done|].
  - change (content_for "lines" filePath data) with (lines_content (ScanLines data)).
    unfold lines_content, bind, slice. by rewrite (proj2 (Z.leb_gt _ _)) by lia.
  - change (content_for "tokens" filePath data)
      with (tokens_content (concat (Fields <$> ScanLines data))).
    unfold tokens_content, bind, slice. by rewrite (proj2 (Z.leb_gt _ _)) by lia.
Qed.

(** The first iteration of a run on more units than one chunk holds,
    with an overlap beyond the size: the first chunk is written and
    the next start is negative. *)
Lemma SplitFile_second_start fuel filePath config w data :
  int_config config → valid_method (ToLower (By config)) → 0 < Size config →
  Size config < Overlap config →
  can_mkdir w → readable w filePath data →
  (ToLower (By config) = "bytes" → reads_ok w filePath) →
  Size config < Z.of_nat (unit_count (ToLower (By config)) data) < unit_bound →
  ceil_div (Z.of_nat (unit_count (ToLower (By config)) data)) (Size config)
  ≤ MaxChunks (validated config) →
  write_fails (faults w) (path_join (temp_name (temp_seq w)) "chunk_0.txt") = false →
  split_for (ToLower (By config)) (S (S fuel)) filePath (temp_name (temp_seq w))
    (validated config) (make_dir (temp_name (temp_seq w)) w)
  = (let by_ := ToLower (By config) in
     let total := Z.of_nat (unit_count by_ data) in
     let tempDir := temp_name (temp_seq w) in
     let chunkPath := path_join tempDir "chunk_0.txt" in
     let start := Size config - Overlap config in
     let end_ := if add start (Size config) >? total then total
                 else add start (Size config) in
     let* chunkContent := content_for by_ filePath data start end_ in
     let* _ := WriteFile (path_join tempDir (chunk_name 1)) chunkContent
               orelse ErrWriteChunk 1 in
     let chunkPaths := [chunkPath] ++ [path_join tempDir (chunk_name 1)] in
     if end_ >=? total then ret (chunkPaths, add 1 1)
     else emit_loop fuel (content_for by_ filePath data) total tempDir
            (validated config)
            (add start (sub (Size (validated config)) (Overlap (validated config))))
            (add 1 1) chunkPaths)
      (put_file (path_join (temp_name (temp_seq w)) "chunk_0.txt")
         (chunk_text (ToLower (By config)) data 0 (Size config))
         (make_dir (temp_name (temp_seq w)) w)).
Proof.
  intros Hint Hby Hs Hov Hmk Hread Hrd Ht Hceil Hw0. cbv zeta.
  pose proof Hint as (HiS & HiO & HiM).
  pose proof (validated_int _ Hint) as Hint'.
  assert (2 ≤ MaxChunks (validated config)) as Hm2.
  { pose proof (ceil_div_ge_2 _ _ Hs (proj1 Ht)). lia. }
  assert (Overlap (validated config) = Overlap config) as HO.
  { unfold validated. simpl. lia. }
  rewrite (split_for_readable _ _ _ _ _ _ data Hby (readable_make_dir _ _ _ _ Hread))
    by lia.
  cbv zeta. rewrite (proj2 (Z.eqb_neq _ _)) by lia.
  unfold bind at 1. rewrite check_limit_pass; [|done|done|lia|lia|done].
  set (by_ := ToLower (By config)) in *.
  set (total := Z.of_nat (unit_count by_ data)) in *.
  set (tempDir := temp_name (temp_seq w)) in *.
  erewrite (emit_loop_step _ _ _ _ _ 0 0 _ _ (Size config)
              (chunk_text by_ data 0 (Size config))).
  - cbv zeta. change (Size (validated config)) with (Size config).
    rewrite Z.geb_leb, (proj2 (Z.leb_gt _ _)) by lia.
    rewrite HO. change (chunk_name 0) with "chunk_0.txt".
    assert (add 0 (sub (Size config) (Overlap config)) = Size config - Overlap config)
      as ->.
    { unfold add, sub. rewrite (wrap_id (_ - _));
        [|unfold in_int, int_min, int_max in *; lia].
      rewrite Z.add_0_l. apply wrap_id. unfold in_int, int_min, int_max in *. lia. }
    change (add 0 1) with 1.
    rewrite emit_loop_S.
    rewrite (proj2 (Z.ltb_lt _ _)) by lia. cbn [negb].
    rewrite Z.geb_leb, (proj2 (Z.leb_gt _ _)) by lia.
    cbv zeta. change (Size (validated config)) with (Size config). by rewrite HO.
  - apply Z.ltb_lt. lia.
  - rewrite Z.geb_leb. apply Z.leb_gt. lia.
  - change (Size (validated config)) with (Size config).
    unfold add. rewrite Z.add_0_l, wrap_id by done.
    by rewrite Z.gtb_ltb, (proj2 (Z.ltb_ge _ _)) by lia.
  - apply (content_for_text by_ filePath data (make_dir tempDir w)); try done;
      fold total; lia.
  - exact Hw0.
Qed.

(** X16: split by lines or by tokens with an overlap greater than the
    size, an input of more units than one chunk holds that passes the
    pre-check makes [SplitFile] panic in its second iteration, on a
    slice with a negative lower bound: no result and no error come
    back, and the scratch directory stays, with [chunk_0.txt] in it. *)
Theorem SplitFile_overlap_beyond_size_panics (fuel : nat) (filePath : string)
    (config config' : ChunkConfig) (w : World) (data : string) :
  int_config config → validateConfig config = Ok config' →
  Size config' < Overlap config' →
  can_mkdir w → readable w filePath data →
  let by_ := ToLower (By config) in
  let total := Z.of_nat (unit_count by_ data) in
  let tempDir := temp_name (temp_seq w) in
  by_ ≠ "bytes" →
  Size config' < total < unit_bound →
  ceil_div total (Size config') ≤ MaxChunks config' →
  write_fails (faults w) (path_join tempDir "chunk_0.txt") = false →
  (2 ≤ fuel)%nat →
  ∃ w', SplitFile fuel filePath config w = (Panic, w')
        ∧ tempDir ∈ dirs w'
        ∧ files w' !! path_join tempDir "chunk_0.txt"
          = Some (chunk_text by_ data 0 (Size config')).
Proof.
  intros Hint Hv Hov Hmk Hread. cbv zeta. intros Hne Ht Hceil Hw0 Hfuel.
  rewrite (SplitFile_run _ _ _ _ _ Hv Hmk). cbv zeta.
  pose proof (validateConfig_inv _ _ Hv) as (Hby & Hs & ->).
  change (Size (validated config)) with (Size config) in *.
  assert (Overlap (validated config) = Overlap config) as HO.
  { revert Hov. unfold validated. simpl. lia. }
  rewrite HO in *.
  change (By (validated config)) with (By config).
  destruct fuel as [|[|fuel]]; [lia..|].
  rewrite (SplitFile_second_start fuel filePath config w data) by done.
  cbv zeta. unfold bind at 1.
  rewrite content_for_negative by (done || lia).
  eexists. split; [done|]. split.
  - cbn [dirs put_file make_dir]. apply elem_of_union_l. by apply elem_of_singleton.
  - cbn [files put_file]. apply lookup_insert_eq.
Qed.

(** X17: split by bytes with an overlap greater than the size, the
    same input makes [SplitFile] fail in its second iteration, on the
    seek to the negative offset [Size - Overlap]; as for every error
    the scratch directory is removed. *)
Theorem SplitFile_overlap_beyond_size_bytes (fuel : nat) (filePath : string)
    (config config' : ChunkConfig) (w : World) (data : string) :
  int_config config → validateConfig config = Ok config' →
  Size config' < Overlap config' < unit_bound →
  can_mkdir w → readable w filePath data → reads_ok w filePath →
  ToLower (By config) = "bytes" →
  let total := Z.of_nat (String.length data) in
  let tempDir := temp_name (temp_seq w) in
  Size config' < total < unit_bound →
  ceil_div total (Size config') ≤ MaxChunks config' →
  write_fails (faults w) (path_join tempDir "chunk_0.txt") = false →
  remove_fails (faults w) tempDir = false →
  (2 ≤ fuel)%nat →
  ∃ w', SplitFile fuel filePath config w
        = (Error (ErrSeek (Size config' - Overlap config')), w')
        ∧ (tempDir ∉ dirs w')
        ∧ files w' !! path_join tempDir "chunk_0.txt" = None.
Proof.
  intros Hint Hv Hov Hmk Hread Hrd Hbytes. cbv zeta. intros Ht Hceil Hw0 Hrm Hfuel.
  rewrite (SplitFile_run _ _ _ _ _ Hv Hmk). cbv zeta.
  pose proof (validateConfig_inv _ _ Hv) as (Hby & Hs & ->).
  pose proof Hint as (HiS & HiO & HiM).
  change (Size (validated config)) with (Size config) in *.
  assert (Overlap (validated config) = Overlap config) as HO.
  { revert Hov. unfold validated. simpl. lia. }
  rewrite HO in *.
  change (By (validated config)) with (By config).
  destruct fuel as [|[|fuel]]; [lia..|].
  assert (unit_count (ToLower (By config)) data = String.length data) as Hcount
    by (by rewrite Hbytes).
  rewrite (SplitFile_second_start fuel filePath config w data Hint Hby Hs (proj1 Hov)
             Hmk Hread (λ _, Hrd) ltac:(rewrite Hcount; exact Ht)
             ltac:(rewrite Hcount; exact Hceil) Hw0).
  cbv zeta. rewrite Hcount, Hbytes.
  change (content_for "bytes" filePath data) with (bytes_content filePath data).
  set (total := Z.of_nat (String.length data)) in *.
  set (start := Size config - Overlap config).
  assert (add start (Size config) = start + Size config) as ->.
  { apply wrap_id. unfold start, unit_bound, in_int, int_min, int_max in *. lia. }
  set (end_ := if start + Size config >? total then total else start + Size config).
  assert (start < end_ ≤ total) as Hend.
  { unfold end_. destruct (Z.gtb_spec (start + Size config) total); lia. }
  unfold bind at 1. unfold bytes_content at 1.
  assert (sub end_ start = end_ - start) as ->.
  { apply wrap_id. unfold start, unit_bound, in_int, int_min, int_max in *. lia. }
  rewrite (proj2 (Z.ltb_ge _ _)) by lia.
  unfold bind at 1, or_fail, Seek. rewrite (proj2 (Z.ltb_lt _ _)) by (unfold start; lia).
  set (tempDir := temp_name (temp_seq w)) in *.
  unfold RemoveAll.
  assert (exists_path (put_file (path_join tempDir "chunk_0.txt")
                         (chunk_text "bytes" data 0 (Size config))
                         (make_dir tempDir w)) tempDir = true) as ->.
  { unfold exists_path. cbn [dirs put_file make_dir].
    rewrite bool_decide_eq_true_2; [done|].
    apply elem_of_union_l. by apply elem_of_singleton. }
  cbn [negb faults put_file make_dir]. rewrite Hrm. cbn [snd].
  eexists. split; [done|].
  destruct (remove_tree_gone tempDir
              (put_file (path_join tempDir "chunk_0.txt")
                 (chunk_text "bytes" data 0 (Size config)) (make_dir tempDir w)))
    as (Hgone & _ & Hunder & _).
  split; [done|]. apply Hunder, under_path_join.
Qed.

End EdgeFacts.

Section EdgeFacts2.
Local Open Scope chunker_scope.



(** X19: what validation accepts it returns in a form it accepts
    again unchanged: the method is one of the three, the size is
    positive, the overlap is not negative and [MaxChunks] is positive;
    method and size are those of the caller. *)
Theorem validateConfig_idempotent (config config' : ChunkConfig) :
  validateConfig config = Ok config' →
  validateConfig config' = Ok config'
  ∧ valid_method (ToLower (By config'))
  ∧ 0 < Size config' ∧ 0 ≤ Overlap config' ∧ 0 < MaxChunks config'
  ∧ By config' = By config ∧ Size config' = Size config.
Proof.
  intros (Hby & Hs & ->)%validateConfig_inv.
  pose proof (validated_bounds config) as [Ho Hm].
  split; [|done].
  rewrite validateConfig_Ok by done. f_equal.
  unfold validated in *. simpl in *.
  rewrite (proj2 (Z.leb_gt _ _)) by done. f_equal. lia.
Qed.

(** With an overlap equal to the size the plan never leaves the
    start: it is the first chunk, [maxChunks] times. *)
Lemma plan_overlap_eq_size fuel total size maxChunks :
  0 < size < total →
  ∀ idx, 0 ≤ idx ≤ maxChunks → maxChunks - idx < Z.of_nat fuel →
         plan fuel total size size maxChunks 0 idx
         = replicate (Z.to_nat (maxChunks - idx)) (0, size).
Proof.
  intros Hs. induction fuel as [|fuel IH]; intros idx Hidx Hfuel; [lia|].
  simpl plan. rewrite (proj2 (Z.ltb_lt 0 total)) by lia.
  destruct (Z.ltb_spec idx maxChunks) as [Hlt|Hge]; simpl.
  - rewrite Z.min_l by lia. rewrite (proj2 (Z.ltb_lt _ _)) by lia.
    replace (0 + size - size) with 0 by lia. rewrite IH by lia.
    replace (Z.to_nat (maxChunks - idx)) with (S (Z.to_nat (maxChunks - (idx + 1))))
      by lia.
    done.
  - by replace (maxChunks - idx) with 0 by lia.
Qed.

(** X20: with an overlap equal to the size the start of the loop
    never advances: on an input of more units than one chunk holds
    that passes the pre-check, [SplitFile] succeeds with exactly
    [MaxChunks] chunks, every one of them holding the first [Size]
    units. *)
Theorem SplitFile_overlap_eq_size_repeats (fuel : nat) (filePath : string)
    (config config' : ChunkConfig) (w : World) (data : string) :
  int_config config → validateConfig config = Ok config' →
  Overlap config' = Size config' →
  can_mkdir w → readable w filePath data → reads_ok w filePath →
  let by_ := ToLower (By config) in
  let total := Z.of_nat (unit_count by_ data) in
  Size config' < total < unit_bound →
  ceil_div total (Size config') ≤ MaxChunks config' →
  writable_below w (temp_name (temp_seq w)) →
  MaxChunks config' < Z.of_nat fuel →
  ∃ res w',
    SplitFile fuel filePath config w = (Ok res, w')
    ∧ TotalChunks res = MaxChunks config'
    ∧ Z.of_nat (length (ChunkPaths res)) = MaxChunks config'
    ∧ Forall (λ path, files w' !! path = Some (chunk_text by_ data 0 (Size config')))
        (ChunkPaths res).
Proof.
  intros Hint Hv Ho Hmk Hread Hrd. cbv zeta. intros Ht Hceil Hwr Hfuel.
  pose proof (validateConfig_inv _ _ Hv) as (Hby & Hs & Hc).
  assert (0 < Size config') as Hs' by (subst config'; done).
  assert (0 < MaxChunks config') as Hm.
  { subst config'. apply validated_bounds. }
  destruct (SplitFile_plan_run fuel filePath config config' w data Hint Hv
              ltac:(lia) Hmk Hread (λ _, Hrd) ltac:(lia) Hceil Hwr Hfuel)
    as (w' & Hrun & Hw).
  rewrite Ho in Hrun, Hw. rewrite plan_overlap_eq_size in Hrun, Hw by lia.
  rewrite Z.sub_0_r in Hrun, Hw.
  eexists _, w'. split; [exact Hrun|]. simpl.
  rewrite length_fmap.
  assert (∀ idx n, length (chunk_files (temp_name (temp_seq w))
                      (chunk_text (ToLower (By config)) data) idx
                      (replicate n (0, Size config'))) = n) as Hlen.
  { intros idx n. revert idx. induction n as [|n IH]; intros idx; simpl; [done|].
    by rewrite IH. }
  rewrite length_replicate, Hlen. split; [lia|]. split; [lia|].
  apply chunk_files_read_back in Hw.
  apply Forall_forall. intros path Hin.
  apply list_elem_of_lookup in Hin as [i Hi].
  destruct (Forall2_lookup_l _ _ _ _ _ Hw Hi) as (ab & Hab & Hfile).
  apply lookup_replicate in Hab as [-> _]. done.
Qed.

End EdgeFacts2.

(** ** The properties above, on sample files *)
Section SampleRuns.
Local Open Scope chunker_scope.

Lemma SplitFile_writes_plan_witness :
  ∃ w', SplitFile 101 "in.txt"
          {| By := "lines"; Size := 2; Overlap := 1; MaxChunks := 0 |}
          (sample_world 5)
        = (Ok {| ChunkPaths := [ "/tmp/comanda-chunks-0/chunk_0.txt";
                                 "/tmp/comanda-chunks-0/chunk_1.txt";
                                 "/tmp/comanda-chunks-0/chunk_2.txt";
                                 "/tmp/comanda-chunks-0/chunk_3.txt" ];
                 TempDir := "/tmp/comanda-chunks-0"; TotalChunks := 4 |}, w').
Proof.
  destruct (SplitFile_writes_plan 101 "in.txt"
              {| By := "lines"; Size := 2; Overlap := 1; MaxChunks := 0 |}
              {| By := "lines"; Size := 2; Overlap := 1; MaxChunks := 100 |}
              (sample_world 5) (numbered_lines 5))
    as (w' & Hrun & _).
  - repeat split; by vm_compute.
  - reflexivity.
  - by vm_compute.
  - split; by vm_compute.
  - repeat split; by vm_compute.
  - intros offset. reflexivity.
  - split; by vm_compute.
  - by vm_compute.
  - intros p _. reflexivity.
  - by vm_compute.
  - exists w'. exact Hrun.
Defined.

Lemma SplitFile_partitions_units_witness :
  ∃ res w' pieces,
    SplitFile 101 "in.txt"
      {| By := "lines"; Size := 2; Overlap := 0; MaxChunks := 0 |} (sample_world 5)
    = (Ok res, w')
    ∧ TotalChunks res = 3
    ∧ concat pieces = ["L0"; "L1"; "L2"; "L3"; "L4"].
Proof.
  destruct (SplitFile_partitions_units 101 "in.txt"
              {| By := "lines"; Size := 2; Overlap := 0; MaxChunks := 0 |}
              {| By := "lines"; Size := 2; Overlap := 0; MaxChunks := 100 |}
              (sample_world 5) (numbered_lines 5))
    as (res & w' & pieces & Hrun & Hn & Hcat & _).
  - repeat split; by vm_compute.
  - reflexivity.
  - reflexivity.
  - split; by vm_compute.
  - repeat split; by vm_compute.
  - by vm_compute.
  - split; by vm_compute.
  - by vm_compute.
  - intros p _. reflexivity.
  - by vm_compute.
  - exists res, w', pieces. split; [exact Hrun|]. split; [exact Hn | exact Hcat].
Defined.

Lemma SplitFile_partitions_bytes_witness :
  ∃ res w' pieces,
    SplitFile 101 "in.txt"
      {| By := "bytes"; Size := 4; Overlap := 0; MaxChunks := 0 |} (sample_world 2)
    = (Ok res, w')
    ∧ TotalChunks res = 2
    ∧ concat_strings pieces = "L0" +:+ newline +:+ "L1".
Proof.
  destruct (SplitFile_partitions_bytes 101 "in.txt"
              {| By := "bytes"; Size := 4; Overlap := 0; MaxChunks := 0 |}
              {| By := "bytes"; Size := 4; Overlap := 0; MaxChunks := 100 |}
              (sample_world 2) (numbered_lines 2))
    as (res & w' & pieces & Hrun & Hn & Hcat & _).
  - repeat split; by vm_compute.
  - reflexivity.
  - reflexivity.
  - split; by vm_compute.
  - repeat split; by vm_compute.
  - intros offset. reflexivity.
  - reflexivity.
  - split; by vm_compute.
  - by vm_compute.
  - intros p _. reflexivity.
  - by vm_compute.
  - exists res, w', pieces. split; [exact Hrun|]. split; [exact Hn | exact Hcat].
Defined.

Lemma SplitFile_paths_numbered_witness :
  let config := {| By := "lines"; Size := 2; Overlap := 0; MaxChunks := 0 |} in
  let res := {| ChunkPaths := [ "/tmp/comanda-chunks-0/chunk_0.txt";
                                "/tmp/comanda-chunks-0/chunk_1.txt";
                                "/tmp/comanda-chunks-0/chunk_2.txt" ];
                TempDir := "/tmp/comanda-chunks-0"; TotalChunks := 3 |} in
  SplitFile 101 "in.txt" config (sample_world 5)
  = (Ok res, (SplitFile 101 "in.txt" config (sample_world 5)).2)
  ∧ NoDup (ChunkPaths res)
  ∧ 1 ≤ TotalChunks res ≤ 100.
Proof.
  intros config res.
  assert (SplitFile 101 "in.txt" config (sample_world 5)
          = (Ok res, (SplitFile 101 "in.txt" config (sample_world 5)).2)) as Hrun
    by (vm_compute; reflexivity).
  destruct (SplitFile_paths_numbered 101 "in.txt" config (sample_world 5) res _
              ltac:(repeat split; by vm_compute) Hrun)
    as (_ & _ & Hnd & [_ Hmax] & Hpos).
  split; [exact Hrun|]. split; [exact Hnd|]. split; [|exact Hmax].
  apply Hpos, sample_world_bounded; by vm_compute.
Defined.

Lemma SplitFile_success_frame_witness :
  let config := {| By := "tokens"; Size := 3; Overlap := 1; MaxChunks := 0 |} in
  let res := {| ChunkPaths := [ "/tmp/comanda-chunks-0/chunk_0.txt";
                                "/tmp/comanda-chunks-0/chunk_1.txt" ];
                TempDir := "/tmp/comanda-chunks-0"; TotalChunks := 2 |} in
  let w' := (SplitFile 101 "in.txt" config (sample_world 5)).2 in
  SplitFile 101 "in.txt" config (sample_world 5) = (Ok res, w')
  ∧ dirs w' = {[ "/tmp/comanda-chunks-0" ]} ∪ ∅
  ∧ files w' !! "in.txt" = Some (numbered_lines 5).
Proof.
  intros config res w'.
  assert (SplitFile 101 "in.txt" config (sample_world 5) = (Ok res, w')) as Hrun
    by (vm_compute; reflexivity).
  destruct (SplitFile_success_frame 101 "in.txt" config (sample_world 5) res w'
              ltac:(repeat split; by vm_compute) Hrun)
    as (_ & Hdirs & Hfiles & _).
  split; [exact Hrun|]. split; [exact Hdirs|].
  rewrite (Hfiles "in.txt") by reflexivity. reflexivity.
Defined.

Lemma SplitFile_then_CleanupChunks_witness :
  let config := {| By := "bytes"; Size := 4; Overlap := 2; MaxChunks := 0 |} in
  let res := {| ChunkPaths := [ "/tmp/comanda-chunks-0/chunk_0.txt";
                                "/tmp/comanda-chunks-0/chunk_1.txt" ];
                TempDir := "/tmp/comanda-chunks-0"; TotalChunks := 2 |} in
  let w' := (SplitFile 101 "in.txt" config (sample_world 2)).2 in
  ∃ w'', SplitFile 101 "in.txt" config (sample_world 2) = (Ok res, w')
         ∧ CleanupChunks (Some res) w' = (Ok (), w'')
         ∧ dirs w'' = ∅
         ∧ files w'' !! "/tmp/comanda-chunks-0/chunk_1.txt" = None
         ∧ files w'' !! "in.txt" = Some (numbered_lines 2).
Proof.
  intros config res w'.
  assert (SplitFile 101 "in.txt" config (sample_world 2) = (Ok res, w')) as Hrun
    by (vm_compute; reflexivity).
  destruct (SplitFile_then_CleanupChunks 101 "in.txt" config (sample_world 2) res w'
              ltac:(repeat split; by vm_compute) Hrun eq_refl)
    as (w'' & Hclean & Hdirs & Hunder & Hother).
  exists w''. split; [exact Hrun|]. split; [exact Hclean|]. split; [exact Hdirs|].
  split.
  - apply Hunder. reflexivity.
  - rewrite (Hother "in.txt") by done. reflexivity.
Defined.

Lemma SplitFile_overlap_beyond_size_panics_witness :
  ∃ w', SplitFile 2 "in.txt"
          {| By := "lines"; Size := 2; Overlap := 3; MaxChunks := 0 |}
          (sample_world 5)
        = (Panic, w')
        ∧ "/tmp/comanda-chunks-0" ∈ dirs w'.
Proof.
  destruct (SplitFile_overlap_beyond_size_panics 2 "in.txt"
              {| By := "lines"; Size := 2; Overlap := 3; MaxChunks := 0 |}
              {| By := "lines"; Size := 2; Overlap := 3; MaxChunks := 100 |}
              (sample_world 5) (numbered_lines 5))
    as (w' & Hrun & Hdir & _).
  - repeat split; by vm_compute.
  - reflexivity.
  - by vm_compute.
  - split; by vm_compute.
  - repeat split; by vm_compute.
  - by vm_compute.
  - split; by vm_compute.
  - by vm_compute.
  - reflexivity.
  - lia.
  - exists w'. split; [exact Hrun | exact Hdir].
Defined.

Lemma SplitFile_overlap_beyond_size_bytes_witness :
  ∃ w', SplitFile 2 "in.txt"
          {| By := "bytes"; Size := 2; Overlap := 3; MaxChunks := 0 |}
          (sample_world 2)
        = (Error (ErrSeek (-1)), w')
        ∧ "/tmp/comanda-chunks-0" ∉ dirs w'.
Proof.
  destruct (SplitFile_overlap_beyond_size_bytes 2 "in.txt"
              {| By := "bytes"; Size := 2; Overlap := 3; MaxChunks := 0 |}
              {| By := "bytes"; Size := 2; Overlap := 3; MaxChunks := 100 |}
              (sample_world 2) (numbered_lines 2))
    as (w' & Hrun & Hdir & _).
  - repeat split; by vm_compute.
  - reflexivity.
  - split; by vm_compute.
  - split; by vm_compute.
  - repeat split; by vm_compute.
  - intros offset. reflexivity.
  - reflexivity.
  - split; by vm_compute.
  - by vm_compute.
  - reflexivity.
  - reflexivity.
  - lia.
  - exists w'. split; [exact Hrun | exact Hdir].
Defined.


Lemma validateConfig_idempotent_witness :
  validateConfig {| By := "Lines"; Size := 10; Overlap := 0; MaxChunks := 100 |}
  = Ok {| By := "Lines"; Size := 10; Overlap := 0; MaxChunks := 100 |}.
Proof.
  apply (validateConfig_idempotent
           {| By := "Lines"; Size := 10; Overlap := -3; MaxChunks := 0 |}).
  reflexivity.
Defined.

Lemma SplitFile_overlap_eq_size_repeats_witness :
  ∃ res w', SplitFile 4 "in.txt"
              {| By := "lines"; Size := 2; Overlap := 2; MaxChunks := 3 |}
              (sample_world 5)
            = (Ok res, w')
            ∧ TotalChunks res = 3.
Proof.
  destruct (SplitFile_overlap_eq_size_repeats 4 "in.txt"
              {| By := "lines"; Size := 2; Overlap := 2; MaxChunks := 3 |}
              {| By := "lines"; Size := 2; Overlap := 2; MaxChunks := 3 |}
              (sample_world 5) (numbered_lines 5))
    as (res & w' & Hrun & Hn & _).
  - repeat split; by vm_compute.
  - reflexivity.
  - reflexivity.
  - split; by vm_compute.
  - repeat split; by vm_compute.
  - intros offset. reflexivity.
  - split; by vm_compute.
  - by vm_compute.
  - intros p _. reflexivity.
  - by vm_compute.
  - exists res, w'. split; [exact Hrun | exact Hn].
Defined.

End SampleRuns.
